(** * RTSP-Player: the stream session manager of [server-main.js]

    A shallow embedding of the [RTSPStreamer] class: the two tables
    [activeStreams] and [wsConnections], the WebSocket handlers, the
    stream lifecycle ([startRtspStream], [stopRtspStream],
    [cleanupStream]), the liveness sweep ([checkConnections]), the age
    sweep ([cleanupExpiredFiles]) and the two HLS routes.

    The handlers run on Node's single-threaded event loop, so each one is
    a function from the server state to a new state and the list of
    effects it performed on the outside world (frames sent, signals
    delivered, filesystem calls), in program order.  What the environment
    decides (the clock, [Math.random], the outcome of [JSON.parse], whether
    creating the ffmpeg command throws) comes in with the event.  A
    handler reads the clock once.  [gracefulShutdown] ends the process
    and the logger keeps no state the server reads; neither is modelled. *)

From Stdlib Require Import List NArith ZArith String Ascii Bool Lia.
From Stdlib Require DecimalString.
Import ListNotations.

Set Warnings "-register-all".
Local Open Scope Z_scope.

(** ** JavaScript strings

    A JavaScript string is a sequence of UTF-16 code units; [length],
    [startsWith], [trim] and the regular expressions of the source all
    work on code units. *)

Definition jsstring := list N.

(** An ASCII literal of the source. *)
Definition lit (s : string) : jsstring :=
  map N_of_ascii (list_ascii_of_string s).

Fixpoint str_eqb (a b : jsstring) : bool :=
  match a, b with
  | [], [] => true
  | x :: a', y :: b' => N.eqb x y && str_eqb a' b'
  | _, _ => false
  end.

(** [s.startsWith(p)] *)
Fixpoint startsWith (p s : jsstring) : bool :=
  match p, s with
  | [], _ => true
  | x :: p', y :: s' => N.eqb x y && startsWith p' s'
  | _ :: _, [] => false
  end.

(** [s.includes(p)], which is also what [/p/.test(s)] computes for a
    pattern [p] without metacharacters. *)
Fixpoint includes (p s : jsstring) : bool :=
  startsWith p s ||
  match s with
  | [] => false
  | _ :: s' => includes p s'
  end.

(** The code units [String.prototype.trim] strips: WhiteSpace and
    LineTerminator of ECMA-262. *)
Definition isWhiteSpace (c : N) : bool :=
  existsb (N.eqb c)
    [0x9; 0xA; 0xB; 0xC; 0xD; 0x20; 0xA0; 0x1680; 0x2028; 0x2029;
     0x202F; 0x205F; 0x3000; 0xFEFF]%N
  || (N.leb 0x2000 c && N.leb c 0x200A).

Fixpoint trimStart (s : jsstring) : jsstring :=
  match s with
  | c :: s' => if isWhiteSpace c then trimStart s' else s
  | [] => []
  end.

Definition trim (s : jsstring) : jsstring :=
  rev (trimStart (rev (trimStart s))).

(** [n.toString()] for an integral number. *)
Definition toString (n : Z) : jsstring :=
  lit (DecimalString.NilZero.string_of_int (Z.to_int n)).

(** ASCII case folding, which is all the [i] flag does for a pattern of
    ASCII letters: without the [u] flag a code unit above 127 never
    canonicalizes to an ASCII one. *)
Definition toLowerAscii (c : N) : N :=
  if N.leb 0x41 c && N.leb c 0x5A then (c + 0x20)%N else c.

(** ** [Map]

    A JavaScript [Map] iterates in insertion order, and [forEach] is how
    the server walks both of its tables, so a map is the list of its
    entries in insertion order.  [set] on a key already present keeps the
    entry's place; [delete] removes the entry. *)

Module JsMap.
Section WithValue.
Context {V : Type}.

Definition t := list (jsstring * V).

Fixpoint get (k : jsstring) (m : t) : option V :=
  match m with
  | [] => None
  | (k', v) :: m' => if str_eqb k k' then Some v else get k m'
  end.

Definition has (k : jsstring) (m : t) : bool :=
  match get k m with Some _ => true | None => false end.

Fixpoint set (k : jsstring) (v : V) (m : t) : t :=
  match m with
  | [] => [(k, v)]
  | (k', v') :: m' =>
      if str_eqb k k' then (k, v) :: m' else (k', v') :: set k v m'
  end.

Fixpoint delete (k : jsstring) (m : t) : t :=
  match m with
  | [] => []
  | (k', v') :: m' =>
      if str_eqb k k' then delete k m' else (k', v') :: delete k m'
  end.

Definition size (m : t) : nat := List.length m.

Definition keys (m : t) : list jsstring := map fst m.
End WithValue.
Arguments t : clear implicits.
End JsMap.

(** ** Values that arrive as JSON

    The result of [JSON.parse].  The server only ever reads the
    properties [type], [rtspUrl] and [streamId] of the parsed value and
    tests them with [typeof] and [===], so numbers keep an integer
    payload that nothing inspects. *)

Inductive json : Type :=
| JNull
| JBool (b : bool)
| JNumber (n : Z)
| JString (s : jsstring)
| JArray (items : list json)
| JObject (props : list (jsstring * json)).

(** [data.p] for a value [data] that is neither [null] nor [undefined]:
    [None] stands for [undefined].  Primitives and arrays have none of
    the three properties the server reads. *)
Definition prop (p : jsstring) (data : json) : option json :=
  match data with
  | JObject props => JsMap.get p props
  | _ => None
  end.

(** ** Paths

    A path is the list of its components below the root; the storage
    directory and everything [path.join] returns are absolute.
    [path.join(dir, name)] concatenates with a separator and normalizes
    (POSIX rules): empty and [.] components vanish, [..] removes the
    component before it and is dropped at the root.  A trailing
    separator is not recorded. *)

Definition path := list jsstring.

Definition slash : N := 0x2F%N.

Fixpoint splitOn (sep : N) (s : jsstring) : list jsstring :=
  match s with
  | [] => [[]]
  | c :: s' =>
      if N.eqb c sep then [] :: splitOn sep s'
      else match splitOn sep s' with
           | w :: ws => (c :: w) :: ws
           | [] => [[c]]
           end
  end.

(** Normalization, on the reversed prefix already normalized. *)
Fixpoint normalizeOnto (acc : list jsstring) (parts : list jsstring) : path :=
  match parts with
  | [] => rev acc
  | p :: parts' =>
      if str_eqb p [] || str_eqb p (lit ".") then normalizeOnto acc parts'
      else if str_eqb p (lit "..") then normalizeOnto (tl acc) parts'
      else normalizeOnto (p :: acc) parts'
  end.

Definition path_join (dir : path) (name : jsstring) : path :=
  normalizeOnto [] (dir ++ splitOn slash name).

Fixpoint path_eqb (p q : path) : bool :=
  match p, q with
  | [], [] => true
  | x :: p', y :: q' => str_eqb x y && path_eqb p' q'
  | _, _ => false
  end.

(** A path as [path.join] returns it: no empty, [.] or [..] component. *)
Definition isNormalized (p : path) : bool :=
  forallb (fun c => negb (str_eqb c [] || str_eqb c (lit ".")
                          || str_eqb c (lit ".."))) p.

(** [p] names something strictly below directory [dir]. *)
Fixpoint isBelow (dir p : path) : bool :=
  match dir, p with
  | [], _ :: _ => true
  | d :: dir', x :: p' => str_eqb d x && isBelow dir' p'
  | _, _ => false
  end.

(** ** Configuration ([config.js])

    The fields of the merged configuration that the session manager
    reads. *)

Record Config := {
  streams_directory : path;
  streams_maxAge : Z;
  websocket_heartbeatInterval : Z;
  websocket_maxConnections : Z
}.

(** [defaultConfig] of [config.js], for a server installed in
    [dirname]. *)
Definition defaultConfig (dirname : path) : Config := {|
  streams_directory := dirname ++ [lit "public"; lit "streams"];
  streams_maxAge := 300000;
  websocket_heartbeatInterval := 30000;
  websocket_maxConnections := 100
|}.

(** ** The server state *)

(** [ws.readyState] *)
Inductive ReadyState := CONNECTING | OPEN | CLOSING | CLOSED.

Definition isOpen (r : ReadyState) : bool :=
  match r with OPEN => true | _ => false end.

(** An entry of [wsConnections].  Of the socket [ws] the server reads
    only [readyState], which the transport changes on its own. *)
Record ClientInfo := {
  id : jsstring;
  readyState : ReadyState;
  ip : jsstring;
  userAgent : jsstring;
  connectTime : Z;
  lastPing : Z
}.

(** An entry of [activeStreams].  [command] is the handle of the ffmpeg
    command, [timeoutId] the handle of the forced-kill timer or [null]. *)
Record StreamInfo := {
  command : option nat;
  connections : list jsstring;
  rtspUrl : jsstring;
  startTime : Z;
  timeoutId : option nat
}.

(** A file of the disk: where it is, when it was last modified, and
    whether [fs.unlinkSync] on it succeeds. *)
Record File := {
  file_path : path;
  mtimeMs : Z;
  unlinkable : bool
}.

(** [activeStreams] and [wsConnections] are the two tables of the class.
    [timers] are the pending [setTimeout] callbacks of [stopRtspStream],
    each with the [streamId] its closure captured; [handlers] are the
    [streamId] and [connectionId] captured by the event handlers of each
    ffmpeg command, by command handle; [disk] is the filesystem. *)
Record State := {
  activeStreams : JsMap.t StreamInfo;
  wsConnections : JsMap.t ClientInfo;
  timers : list (nat * jsstring);
  nextTimer : nat;
  handlers : list (jsstring * jsstring);
  disk : list File
}.

Definition initialState (files : list File) : State := {|
  activeStreams := [];
  wsConnections := [];
  timers := [];
  nextTimer := 0;
  handlers := [];
  disk := files
|}.

Definition with_activeStreams (f : JsMap.t StreamInfo -> JsMap.t StreamInfo)
  (st : State) : State := {|
  activeStreams := f (activeStreams st);
  wsConnections := wsConnections st;
  timers := timers st;
  nextTimer := nextTimer st;
  handlers := handlers st;
  disk := disk st
|}.

Definition with_wsConnections (f : JsMap.t ClientInfo -> JsMap.t ClientInfo)
  (st : State) : State := {|
  activeStreams := activeStreams st;
  wsConnections := f (wsConnections st);
  timers := timers st;
  nextTimer := nextTimer st;
  handlers := handlers st;
  disk := disk st
|}.

Definition with_disk (f : list File -> list File) (st : State) : State := {|
  activeStreams := activeStreams st;
  wsConnections := wsConnections st;
  timers := timers st;
  nextTimer := nextTimer st;
  handlers := handlers st;
  disk := f (disk st)
|}.

(** ** Effects *)

Inductive Signal := SIGTERM | SIGKILL.

(** The messages the server sends; every one also carries a
    [timestamp], and the three stream notifications a fixed [message]
    text. *)
Inductive Message :=
| error (message : jsstring)
| streamStarted (streamId : jsstring)
| streamEnded (streamId : jsstring)
| streamStopped (streamId : jsstring)
| ping.

Inductive Effect :=
| Send (connectionId : jsstring) (m : Message)
    (* [clientInfo.ws.send(JSON.stringify(m))] *)
| Reject (code : Z) (reason : jsstring)
    (* [ws.close(code, reason)] on the socket asking for admission *)
| Terminate (connectionId : jsstring)
    (* [clientInfo.ws.terminate()] *)
| Save (cmd : nat) (input : jsstring) (output : path)
    (* [ffmpeg(input)...save(output)] *)
| Kill (cmd : nat) (signal : Signal)
    (* [command.kill(signal)] *)
| SetTimeout (timer : nat) (ms : Z)
| ClearTimeout (timer : nat)
| EnsureDir (p : path)
    (* [if (!fs.existsSync(p)) fs.mkdirSync(p, { recursive: true })] *)
| ExistsSync (p : path)
| Readdir (p : path)
| Stat (p : path)
| Unlink (p : path).

(** ** Handlers as state transformers that log their effects *)

Definition M (A : Type) : Type := State -> A * State * list Effect.

Definition ret {A} (a : A) : M A := fun st => (a, st, []).

Definition bind {A B} (c : M A) (k : A -> M B) : M B :=
  fun st =>
    let '(a, st1, fx1) := c st in
    let '(b, st2, fx2) := k a st1 in
    (b, st2, fx1 ++ fx2).

Definition getState : M State := fun st => (st, st, []).
Definition modify (f : State -> State) : M unit := fun st => (tt, f st, []).
Definition emit (e : Effect) : M unit := fun st => (tt, st, [e]).

Declare Scope js_scope.
Delimit Scope js_scope with js.
Notation "x <- c ;; k" := (bind c (fun x => k))
  (at level 61, c at next level, right associativity) : js_scope.
Notation "c ;; k" := (bind c (fun _ => k))
  (at level 61, right associativity) : js_scope.
Local Open Scope js_scope.

Definition stateOf {A} (r : A * State * list Effect) : State := snd (fst r).
Definition effectsOf {A} (r : A * State * list Effect) : list Effect := snd r.
Definition valueOf {A} (r : A * State * list Effect) : A := fst (fst r).

(** [when b c]: [if (b) { c }] *)
Definition when (b : bool) (c : M unit) : M unit := if b then c else ret tt.

(** [map.forEach(f)]: the entries are visited in insertion order; an
    entry deleted before its turn is skipped, and the value passed is the
    one the map holds at that moment.  (No callback of the server adds an
    entry to the map it is walking.) *)
Fixpoint forEachKey {V} (table : State -> JsMap.t V) (ks : list jsstring)
  (f : V -> jsstring -> M unit) : M unit :=
  match ks with
  | [] => ret tt
  | k :: ks' =>
      st <- getState ;;
      match JsMap.get k (table st) with
      | Some v => f v k
      | None => ret tt
      end ;;
      forEachKey table ks' f
  end.

Definition forEach {V} (table : State -> JsMap.t V)
  (f : V -> jsstring -> M unit) : M unit :=
  st <- getState ;;
  forEachKey table (JsMap.keys (table st)) f.

(** ** Timers and the filesystem *)

Definition setTimeout (streamId : jsstring) (ms : Z) : M nat :=
  fun st =>
    let t := nextTimer st in
    (t,
     {| activeStreams := activeStreams st;
        wsConnections := wsConnections st;
        timers := timers st ++ [(t, streamId)];
        nextTimer := S t;
        handlers := handlers st;
        disk := disk st |},
     [SetTimeout t ms]).

Definition clearTimeout (t : nat) : M unit :=
  fun st =>
    (tt,
     {| activeStreams := activeStreams st;
        wsConnections := wsConnections st;
        timers := filter (fun p => negb (Nat.eqb (fst p) t)) (timers st);
        nextTimer := nextTimer st;
        handlers := handlers st;
        disk := disk st |},
     [ClearTimeout t]).

Definition existsSync (p : path) : M bool :=
  fun st => (existsb (fun f => path_eqb p (file_path f)) (disk st), st,
             [ExistsSync p]).

(** The name of [p] inside [dir], when [p] is an entry of [dir]. *)
Fixpoint childOf (dir p : path) : option jsstring :=
  match dir, p with
  | [], [name] => Some name
  | d :: dir', x :: p' => if str_eqb d x then childOf dir' p' else None
  | _, _ => None
  end.

(** [fs.readdirSync(dir)].  The storage directory is created by the
    constructor, so the call does not throw. *)
Definition readdirSync (dir : path) : M (list jsstring) :=
  fun st =>
    (flat_map (fun f => match childOf dir (file_path f) with
                        | Some name => [name]
                        | None => []
                        end) (disk st),
     st, [Readdir dir]).

(** [fs.statSync(p).mtimeMs]; [None] when the call throws. *)
Definition statSync (p : path) : M (option Z) :=
  fun st =>
    (option_map mtimeMs (find (fun f => path_eqb p (file_path f)) (disk st)),
     st, [Stat p]).

(** [fs.unlinkSync(p)]; the result is [false] when the call throws. *)
Definition unlinkSync (p : path) : M bool :=
  fun st =>
    match find (fun f => path_eqb p (file_path f)) (disk st) with
    | Some f =>
        if unlinkable f
        then (true,
              with_disk (filter (fun f => negb (path_eqb p (file_path f)))) st,
              [Unlink p])
        else (false, st, [Unlink p])
    | None => (false, st, [Unlink p])
    end.

(** ** The texts of the source *)

Module Text.
(* 'URL不能为空' *)
Definition urlEmpty : jsstring :=
  lit "URL" ++ [0x4E0D; 0x80FD; 0x4E3A; 0x7A7A]%N.
(* '无效的RTSP URL，必须以 rtsp:// 开头' *)
Definition urlNotRtsp : jsstring :=
  [0x65E0; 0x6548; 0x7684]%N ++ lit "RTSP URL"
  ++ [0xFF0C; 0x5FC5; 0x987B; 0x4EE5]%N ++ lit " rtsp:// "
  ++ [0x5F00; 0x5934]%N.
(* 'URL长度超过限制' *)
Definition urlTooLong : jsstring :=
  lit "URL" ++ [0x957F; 0x5EA6; 0x8D85; 0x8FC7; 0x9650; 0x5236]%N.
(* 'URL包含非法字符' *)
Definition urlIllegal : jsstring :=
  lit "URL" ++ [0x5305; 0x542B; 0x975E; 0x6CD5; 0x5B57; 0x7B26]%N.
(* '只支持 RTSP 和 RTSPS 协议' *)
Definition urlProtocol : jsstring :=
  [0x53EA; 0x652F; 0x6301]%N ++ lit " RTSP " ++ [0x548C]%N
  ++ lit " RTSPS " ++ [0x534F; 0x8BAE]%N.
(* 'URL缺少主机名' *)
Definition urlNoHost : jsstring :=
  lit "URL" ++ [0x7F3A; 0x5C11; 0x4E3B; 0x673A; 0x540D]%N.
(* '无效的URL格式' *)
Definition urlFormat : jsstring :=
  [0x65E0; 0x6548; 0x7684]%N ++ lit "URL" ++ [0x683C; 0x5F0F]%N.
(* '流不存在' *)
Definition noStream : jsstring := [0x6D41; 0x4E0D; 0x5B58; 0x5728]%N.
(* '启动转码失败' *)
Definition startFailed : jsstring :=
  [0x542F; 0x52A8; 0x8F6C; 0x7801; 0x5931; 0x8D25]%N.
(* '消息处理失败' *)
Definition handlingFailed : jsstring :=
  [0x6D88; 0x606F; 0x5904; 0x7406; 0x5931; 0x8D25]%N.
(* '未知消息类型' *)
Definition unknownType : jsstring :=
  [0x672A; 0x77E5; 0x6D88; 0x606F; 0x7C7B; 0x578B]%N.
(* '服务器连接数已满' *)
Definition serverFull : jsstring :=
  [0x670D; 0x52A1; 0x5668; 0x8FDE; 0x63A5; 0x6570; 0x5DF2; 0x6EE1]%N.
(* 'FFmpeg错误: ' *)
Definition ffmpegError : jsstring :=
  lit "FFmpeg" ++ [0x9519; 0x8BEF]%N ++ lit ": ".
(* '播放列表文件不存在' *)
Definition noPlaylist : jsstring :=
  [0x64AD; 0x653E; 0x5217; 0x8868; 0x6587; 0x4EF6; 0x4E0D; 0x5B58; 0x5728]%N.
(* '分片文件不存在' *)
Definition noSegment : jsstring :=
  [0x5206; 0x7247; 0x6587; 0x4EF6; 0x4E0D; 0x5B58; 0x5728]%N.
End Text.

(** ** URLs

    What the server reads of [new URL(url)]. *)
Record Url := {
  protocol : jsstring;
  hostname : jsstring
}.

(** The result of [validateRtspUrl]: [{ valid: true }] or
    [{ valid: false, error }]. *)
Inductive Validation :=
| Valid
| Invalid (error : jsstring).

Definition valid (v : Validation) : bool :=
  match v with Valid => true | Invalid _ => false end.

(** The outcome of a handler that may throw. *)
Inductive Completion := Returned | Thrown.

(** What a route handler answers. *)
Inductive Response :=
| NotFound (error : jsstring)
    (* [res.status(404).json({ error })] *)
| SendFile (contentType : jsstring) (filePath : path).
    (* [res.setHeader('Content-Type', contentType); res.sendFile(filePath)] *)

(** ** The class [RTSPStreamer] *)

Section RTSPStreamer.

(** The merged configuration, and the platform's URL parser:
    [URL url] is [None] when [new URL(url)] throws. *)
Variable config : Config.
Variable URL : jsstring -> option Url.

(** [`conn_${Date.now()}_${Math.random().toString(36).substr(2, 9)}`],
    with [rnd] the text drawn from [Math.random]. *)
Definition generateConnectionId (now : Z) (rnd : jsstring) : jsstring :=
  lit "conn_" ++ toString now ++ lit "_" ++ rnd.

(** The parameter [connectionId] is not used. *)
Definition generateStreamId (now : Z) (rnd : jsstring)
  (connectionId : jsstring) : jsstring :=
  lit "stream_" ++ toString now ++ lit "_" ++ rnd.

Definition sendError (connectionId : jsstring) (message : jsstring)
  : M unit :=
  st <- getState ;;
  match JsMap.get connectionId (wsConnections st) with
  | Some clientInfo =>
      when (isOpen (readyState clientInfo))
        (emit (Send connectionId (error message)))
  | None => ret tt
  end.

Definition sendMessage (connectionId : jsstring) (message : Message)
  : M unit :=
  st <- getState ;;
  match JsMap.get connectionId (wsConnections st) with
  | Some clientInfo =>
      when (isOpen (readyState clientInfo))
        (emit (Send connectionId message))
  | None => ret tt
  end.

(** The five [dangerousPatterns], each as its [test]. *)
Definition dangerousPatterns : list (jsstring -> bool) :=
  [ (* /[;&|`$()]/ *)
    existsb (fun c => existsb (N.eqb c) (lit ";&|`$()"));
    (* /\.\./ *)
    includes (lit "..");
    (* /file:\/\//i *)
    (fun url => includes (lit "file://") (map toLowerAscii url));
    (* /\/etc\// *)
    includes (lit "/etc/");
    (* /\\/i *)
    existsb (N.eqb 0x5C) ].

(** [url] is the argument as received: [None] for [undefined]. *)
Definition validateRtspUrl (url : option json) : Validation :=
  match url with
  | Some (JString url) =>
      if str_eqb url [] then Invalid Text.urlEmpty
      else
        let url := trim url in
        if negb (startsWith (lit "rtsp://") url)
        then Invalid Text.urlNotRtsp
        else if Z.of_nat (List.length url) >? 2048
        then Invalid Text.urlTooLong
        else if existsb (fun pattern => pattern url) dangerousPatterns
        then Invalid Text.urlIllegal
        else
          match URL url with
          | Some parsedUrl =>
              if negb (existsb (str_eqb (protocol parsedUrl))
                         [lit "rtsp:"; lit "rtsps:"])
              then Invalid Text.urlProtocol
              else if str_eqb (hostname parsedUrl) []
              then Invalid Text.urlNoHost
              else Valid
          | None => Invalid Text.urlFormat
          end
  | _ => Invalid Text.urlEmpty
  end.

(** The loop of [cleanupStream] over the directory listing; [Thrown]
    when an [unlinkSync] throws, which leaves the loop for the [catch]
    around it. *)
Fixpoint unlinkStartingWith (prefix : jsstring) (files : list jsstring)
  : M Completion :=
  match files with
  | [] => ret Returned
  | file :: files' =>
      if startsWith prefix file then
        ok <- unlinkSync (path_join (streams_directory config) file) ;;
        if ok : bool then unlinkStartingWith prefix files' else ret Thrown
      else unlinkStartingWith prefix files'
  end.

Definition setTimeoutId (t : option nat) (s : StreamInfo) : StreamInfo :=
  {| command := command s; connections := connections s;
     rtspUrl := rtspUrl s; startTime := startTime s; timeoutId := t |}.

Definition setConnections (cs : list jsstring) (s : StreamInfo)
  : StreamInfo :=
  {| command := command s; connections := cs;
     rtspUrl := rtspUrl s; startTime := startTime s;
     timeoutId := timeoutId s |}.

Definition setLastPing (now : Z) (c : ClientInfo) : ClientInfo :=
  {| id := id c; readyState := readyState c; ip := ip c;
     userAgent := userAgent c; connectTime := connectTime c;
     lastPing := now |}.

Definition setReadyState (r : ReadyState) (c : ClientInfo) : ClientInfo :=
  {| id := id c; readyState := r; ip := ip c;
     userAgent := userAgent c; connectTime := connectTime c;
     lastPing := lastPing c |}.

Definition cleanupStream (streamId : jsstring) : M unit :=
  st <- getState ;;
  match JsMap.get streamId (activeStreams st) with
  | Some streamInfo =>
      match timeoutId streamInfo with
      | Some t =>
          clearTimeout t ;;
          modify (with_activeStreams
                    (JsMap.set streamId (setTimeoutId None streamInfo)))
      | None => ret tt
      end
  | None => ret tt
  end ;;
  modify (with_activeStreams (JsMap.delete streamId)) ;;
  files <- readdirSync (streams_directory config) ;;
  _ <- unlinkStartingWith (streamId ++ lit ".") files ;;
  ret tt.

(** [activeStreams.get(k)] for a value [k] of any type, with the key
    found: the keys of the table are strings. *)
Definition getStream (k : option json) (m : JsMap.t StreamInfo)
  : option (jsstring * StreamInfo) :=
  match k with
  | Some (JString s) =>
      match JsMap.get s m with
      | Some streamInfo => Some (s, streamInfo)
      | None => None
      end
  | _ => None
  end.

(** [streamInfo] is the object the table holds, so an assignment to one
    of its properties is a write to the table.  [command.kill] signals
    the process and does not throw. *)
Definition stopRtspStream (streamId : option json) (connectionId : jsstring)
  : M unit :=
  st <- getState ;;
  match getStream streamId (activeStreams st) with
  | None => sendError connectionId Text.noStream
  | Some (streamId, streamInfo) =>
      let streamInfo :=
        setConnections
          (filter (fun id => negb (str_eqb id connectionId))
             (connections streamInfo)) streamInfo in
      modify (with_activeStreams (JsMap.set streamId streamInfo)) ;;
      (if Nat.eqb (List.length (connections streamInfo)) 0 then
         match command streamInfo with
         | Some cmd =>
             emit (Kill cmd SIGTERM) ;;
             t <- setTimeout streamId 5000 ;;
             modify (with_activeStreams
                       (JsMap.set streamId (setTimeoutId (Some t) streamInfo)))
         | None => ret tt
         end ;;
         cleanupStream streamId
       else
         modify (with_activeStreams (JsMap.set streamId streamInfo))) ;;
      sendMessage connectionId (streamStopped streamId)
  end.

(** The callback [stopRtspStream] hands to [setTimeout]. *)
Definition forcedKill (streamId : jsstring) : M unit :=
  st <- getState ;;
  when (JsMap.has streamId (activeStreams st))
    (match JsMap.get streamId (activeStreams st) with
     | Some info =>
         match command info with
         | Some cmd => emit (Kill cmd SIGKILL)
         | None => ret tt
         end
     | None => ret tt
     end ;;
     cleanupStream streamId).

(** [ffmpeg(rtspUrl)...save(outputPath)]: a new command, whose [error]
    and [end] handlers capture [streamId] and [connectionId]. *)
Definition save (input : jsstring) (output : path)
  (streamId connectionId : jsstring) : M nat :=
  fun st =>
    let cmd := List.length (handlers st) in
    (cmd,
     {| activeStreams := activeStreams st;
        wsConnections := wsConnections st;
        timers := timers st;
        nextTimer := nextTimer st;
        handlers := handlers st ++ [(streamId, connectionId)];
        disk := disk st |},
     [Save cmd input output]).

Definition stringOf (v : option json) : jsstring :=
  match v with Some (JString s) => s | _ => [] end.

(** [now] is the clock, [rnd] the random text of the stream id, and
    [throws] tells whether building the ffmpeg command throws. *)
Definition startRtspStream (now : Z) (rnd : jsstring) (throws : bool)
  (rtspUrl : option json) (connectionId : jsstring) : M unit :=
  match validateRtspUrl rtspUrl with
  | Invalid e => sendError connectionId e
  | Valid =>
      let streamId := generateStreamId now rnd connectionId in
      sendMessage connectionId (streamStarted streamId) ;;
      let outputPath :=
        path_join (streams_directory config) (streamId ++ lit ".m3u8") in
      emit (EnsureDir (streams_directory config)) ;;
      if throws then sendError connectionId Text.startFailed
      else
        cmd <- save (stringOf rtspUrl) outputPath streamId connectionId ;;
        modify (with_activeStreams
                  (JsMap.set streamId
                     {| command := Some cmd;
                        connections := [connectionId];
                        rtspUrl := stringOf rtspUrl;
                        startTime := now;
                        timeoutId := None |}))
  end.

(** The [start] handler of an ffmpeg command, which writes the command
    line to the log. *)
Definition onFfmpegStart (cmd : nat) (commandLine : jsstring) : M unit :=
  ret tt.

(** The [error] handler of an ffmpeg command. *)
Definition onFfmpegError (cmd : nat) (message : jsstring) : M unit :=
  st <- getState ;;
  match nth_error (handlers st) cmd with
  | Some (streamId, connectionId) =>
      sendError connectionId (Text.ffmpegError ++ message) ;;
      cleanupStream streamId
  | None => ret tt
  end.

(** The [end] handler of an ffmpeg command. *)
Definition onFfmpegEnd (cmd : nat) : M unit :=
  st <- getState ;;
  match nth_error (handlers st) cmd with
  | Some (streamId, connectionId) =>
      sendMessage connectionId (streamEnded streamId) ;;
      cleanupStream streamId
  | None => ret tt
  end.

(** The [switch] of [handleWebSocketMessage] on [data.type]. *)
Definition dispatch (now : Z) (rnd : jsstring) (throws : bool)
  (connectionId : jsstring) (data : json) : M unit :=
  match prop (lit "type") data with
  | Some (JString type) =>
      if str_eqb type (lit "startStream") then
        startRtspStream now rnd throws (prop (lit "rtspUrl") data)
          connectionId
      else if str_eqb type (lit "stopStream") then
        stopRtspStream (prop (lit "streamId") data) connectionId
      else if str_eqb type (lit "pong") then ret tt
      else sendError connectionId Text.unknownType
  | _ => sendError connectionId Text.unknownType
  end.

(** [parsed] is the outcome of [JSON.parse(message)]: [None] when it
    throws.  Reading [data.type] throws when [data] is [null]. *)
Definition handleWebSocketMessage (now : Z) (rnd : jsstring) (throws : bool)
  (connectionId : jsstring) (parsed : option json) : M Completion :=
  match parsed with
  | None => ret Thrown
  | Some JNull => ret Thrown
  | Some data =>
      st <- getState ;;
      match JsMap.get connectionId (wsConnections st) with
      | Some clientInfo =>
          modify (with_wsConnections
                    (JsMap.set connectionId (setLastPing now clientInfo)))
      | None => ret tt
      end ;;
      dispatch now rnd throws connectionId data ;;
      ret Returned
  end.

Definition handleWebSocketClose (connectionId : jsstring) : M unit :=
  modify (with_wsConnections (JsMap.delete connectionId)) ;;
  forEach activeStreams (fun streamInfo streamId =>
    when (existsb (str_eqb connectionId) (connections streamInfo))
      (stopRtspStream (Some (JString streamId)) connectionId)).

(** The handlers that [setupWebSocket] installs. *)

Definition onConnection (now : Z) (rnd : jsstring)
  (remoteAddress agent : jsstring) : M unit :=
  st <- getState ;;
  if Z.of_nat (JsMap.size (wsConnections st))
       >=? websocket_maxConnections config
  then emit (Reject 1008 Text.serverFull)
  else
    let connectionId := generateConnectionId now rnd in
    modify (with_wsConnections
              (JsMap.set connectionId
                 {| id := connectionId;
                    readyState := OPEN;
                    ip := remoteAddress;
                    userAgent := agent;
                    connectTime := now;
                    lastPing := now |})).

Definition onMessage (now : Z) (rnd : jsstring) (throws : bool)
  (connectionId : jsstring) (parsed : option json) : M unit :=
  c <- handleWebSocketMessage now rnd throws connectionId parsed ;;
  match c with
  | Returned => ret tt
  | Thrown => sendError connectionId Text.handlingFailed
  end.

Definition onClose (connectionId : jsstring) : M unit :=
  handleWebSocketClose connectionId.

Definition onError (connectionId : jsstring) : M unit :=
  modify (with_wsConnections (JsMap.delete connectionId)).

(** The callback of the [forEach] of [checkConnections]. *)
Definition checkConnection (now timeout : Z) (clientInfo : ClientInfo)
  (connectionId : jsstring) : M unit :=
  if now - lastPing clientInfo >? timeout then
    emit (Terminate connectionId) ;;
    modify (with_wsConnections (JsMap.delete connectionId))
  else
    sendMessage connectionId ping.

Definition checkConnections (now : Z) : M unit :=
  let timeout := websocket_heartbeatInterval config * 2 in
  forEach wsConnections (checkConnection now timeout).

(** The loop of [cleanupExpiredFiles]; [Thrown] when [statSync] or
    [unlinkSync] throws. *)
Fixpoint unlinkExpired (now : Z) (files : list jsstring) : M Completion :=
  match files with
  | [] => ret Returned
  | file :: files' =>
      let filePath := path_join (streams_directory config) file in
      stats <- statSync filePath ;;
      match stats with
      | Some mtime =>
          if now - mtime >? streams_maxAge config then
            ok <- unlinkSync filePath ;;
            if ok : bool then unlinkExpired now files' else ret Thrown
          else unlinkExpired now files'
      | None => ret Thrown
      end
  end.

Definition cleanupExpiredFiles (now : Z) : M unit :=
  files <- readdirSync (streams_directory config) ;;
  _ <- unlinkExpired now files ;;
  ret tt.

(** [GET /streams/:streamId.m3u8].  [fs.existsSync] is called twice,
    once for the log line and once for the test. *)
Definition serveHLSPlaylist (streamId : jsstring) : M Response :=
  st <- getState ;;
  match JsMap.get streamId (activeStreams st) with
  | None => ret (NotFound Text.noStream)
  | Some streamInfo =>
      let filePath :=
        path_join (streams_directory config) (streamId ++ lit ".m3u8") in
      _ <- existsSync filePath ;;
      found <- existsSync filePath ;;
      if found : bool
      then ret (SendFile (lit "application/vnd.apple.mpegurl") filePath)
      else ret (NotFound Text.noPlaylist)
  end.

(** [GET /streams/:streamId-:segment] *)
Definition serveHLSSegment (streamId segment : jsstring) : M Response :=
  st <- getState ;;
  match JsMap.get streamId (activeStreams st) with
  | None => ret (NotFound Text.noStream)
  | Some streamInfo =>
      let filePath :=
        path_join (streams_directory config)
          (streamId ++ lit "-" ++ segment) in
      found <- existsSync filePath ;;
      if found : bool
      then ret (SendFile (lit "video/MP2T") filePath)
      else ret (NotFound Text.noSegment)
  end.

(** ** The event loop

    One event is one callback run to completion.  The transport moving
    a socket to another [readyState] and a process writing a file are
    events of the environment. *)

Inductive Event :=
| Connection (rnd remoteAddress agent : jsstring)
| WsMessage (connectionId : jsstring) (parsed : option json)
    (rnd : jsstring) (throws : bool)
| WsClose (connectionId : jsstring)
| WsError (connectionId : jsstring)
| WsReadyState (connectionId : jsstring) (r : ReadyState)
| Heartbeat
| CleanupTask
| Timeout (timer : nat)
| FfmpegStart (cmd : nat) (commandLine : jsstring)
| FfmpegError (cmd : nat) (message : jsstring)
| FfmpegEnd (cmd : nat)
| FileWritten (f : File)
| GetPlaylist (streamId : jsstring)
| GetSegment (streamId segment : jsstring).

Definition transportMoves (connectionId : jsstring) (r : ReadyState)
  : M unit :=
  st <- getState ;;
  match JsMap.get connectionId (wsConnections st) with
  | Some clientInfo =>
      modify (with_wsConnections
                (JsMap.set connectionId (setReadyState r clientInfo)))
  | None => ret tt
  end.

(** A pending timer fires once: its callback runs and it is pending no
    more. *)
Definition fire (timer : nat) : M unit :=
  st <- getState ;;
  match find (fun p => Nat.eqb (fst p) timer) (timers st) with
  | Some (_, streamId) =>
      (fun st =>
         (tt,
          {| activeStreams := activeStreams st;
             wsConnections := wsConnections st;
             timers := filter (fun p => negb (Nat.eqb (fst p) timer))
                         (timers st);
             nextTimer := nextTimer st;
             handlers := handlers st;
             disk := disk st |}, [])) ;;
      forcedKill streamId
  | None => ret tt
  end.

Definition writeFile (f : File) : M unit :=
  modify (with_disk (fun files =>
    filter (fun g => negb (path_eqb (file_path f) (file_path g))) files
    ++ [f])).

(** The callback that event [e] runs, at clock reading [now]. *)
Definition handle (now : Z) (e : Event) : M unit :=
  match e with
  | Connection rnd remoteAddress agent =>
      onConnection now rnd remoteAddress agent
  | WsMessage connectionId parsed rnd throws =>
      onMessage now rnd throws connectionId parsed
  | WsClose connectionId => onClose connectionId
  | WsError connectionId => onError connectionId
  | WsReadyState connectionId r => transportMoves connectionId r
  | Heartbeat => checkConnections now
  | CleanupTask => cleanupExpiredFiles now
  | Timeout timer => fire timer
  | FfmpegStart cmd commandLine => onFfmpegStart cmd commandLine
  | FfmpegError cmd message => onFfmpegError cmd message
  | FfmpegEnd cmd => onFfmpegEnd cmd
  | FileWritten f => writeFile f
  | GetPlaylist streamId => _ <- serveHLSPlaylist streamId ;; ret tt
  | GetSegment streamId segment =>
      _ <- serveHLSSegment streamId segment ;; ret tt
  end.

(** A run: the events with the clock reading of each, oldest first. *)
Fixpoint run (events : list (Z * Event)) : M unit :=
  match events with
  | [] => ret tt
  | (now, e) :: events' => handle now e ;; run events'
  end.

(** The states the server can be in: those some run reaches from the
    state the constructor builds, whatever the disk holds. *)
Inductive reachable : State -> Prop :=
| reachable_initial files : reachable (initialState files)
| reachable_handle st now e :
    reachable st -> reachable (stateOf (handle now e st)).

End RTSPStreamer.

Arguments reachable_initial {config URL}.
Arguments reachable_handle {config URL}.

(** [sendError] and [sendMessage] put a frame on the wire exactly when
    the connection is in [wsConnections] with its socket [OPEN]. *)
Definition canReceive (st : State) (connectionId : jsstring) : bool :=
  match JsMap.get connectionId (wsConnections st) with
  | Some clientInfo => isOpen (readyState clientInfo)
  | None => false
  end.

(** ** Invariants of the event loop

    [safe I P c]: from a state where [I] holds, [c] ends in a state where
    [I] holds and performs only effects that satisfy [P]. *)
Definition safe {A} (I : State -> Prop) (P : Effect -> Prop) (c : M A)
  : Prop :=
  forall st, I st -> I (stateOf (c st)) /\ Forall P (effectsOf (c st)).

(** The connection table is within the configured ceiling. *)
Definition withinCeiling (config : Config) (st : State) : Prop :=
  Z.of_nat (JsMap.size (wsConnections st)) <= websocket_maxConnections config.

(** No forced-kill timer is pending. *)
Definition noPendingTimer (st : State) : Prop := timers st = [].

(** Any effect but [command.kill('SIGKILL')]. *)
Definition notForcedKill (e : Effect) : Prop :=
  match e with
  | Kill _ SIGKILL => False
  | _ => True
  end.

(** No stream lists [connectionId] among its viewers. *)
Definition detached (connectionId : jsstring) (st : State) : Prop :=
  forall streamId info,
    JsMap.get streamId (activeStreams st) = Some info ->
    ~ In connectionId (connections info).

(** ** Scenarios

    A server installed in [/srv] with the default configuration, one
    camera, and the clients and requests the examples below run. *)

Module Scenario.

Definition config : Config := defaultConfig [lit "srv"].

Definition streams : path := streams_directory config.

Definition camera : jsstring := lit "rtsp://cam.local/live".

(** What [new URL] answers for the camera's address; the examples
    parse no other. *)
Definition URL (url : jsstring) : option Url :=
  if str_eqb url camera
  then Some {| protocol := lit "rtsp:"; hostname := lit "cam.local" |}
  else None.

(** The first client connects at clock reading 1000. *)
Definition connects : Z * Event :=
  (1000, Connection (lit "k3x9a7b2q") (lit "10.0.0.7") (lit "Mozilla/5.0")).

Definition alice : jsstring := generateConnectionId 1000 (lit "k3x9a7b2q").

(** [{"type":"startStream","rtspUrl":url}] *)
Definition startStream (url : jsstring) : option json :=
  Some (JObject [(lit "type", JString (lit "startStream"));
                 (lit "rtspUrl", JString url)]).

(** [{"type":"stopStream","streamId":streamId}] *)
Definition stopStream (streamId : jsstring) : option json :=
  Some (JObject [(lit "type", JString (lit "stopStream"));
                 (lit "streamId", JString streamId)]).

(** Alice asks for the camera at 2000 and the command is created. *)
Definition starts : Z * Event :=
  (2000, WsMessage alice (startStream camera) (lit "p0o9i8u7y") false).

Definition stream : jsstring :=
  generateStreamId 2000 (lit "p0o9i8u7y") alice.

(** The same request when building the ffmpeg command throws. *)
Definition startsAndThrows : Z * Event :=
  (2000, WsMessage alice (startStream camera) (lit "p0o9i8u7y") true).

Definition artifact (name : jsstring) (mtime : Z) : File :=
  {| file_path := streams ++ [name]; mtimeMs := mtime; unlinkable := true |}.

(** The name of a file of the storage directory. *)
Definition stream_name (f : File) : jsstring :=
  match childOf streams (file_path f) with
  | Some name => name
  | None => []
  end.

(** The playlist of the stream, and a segment under the name the segment
    route serves and under the name ffmpeg derives from the playlist's
    when it is given no segment file name. *)
Definition playlist : File := artifact (stream ++ lit ".m3u8") 2500.
Definition segment : File := artifact (stream ++ lit "-0.ts") 2500.
Definition chunk : File := artifact (stream ++ lit "0.ts") 2500.

(** Alice stops the stream at 3000. *)
Definition stops : Z * Event :=
  (3000, WsMessage alice (stopStream stream) [] false).

(** A file of the installation that is not an artifact. *)
Definition secret : File :=
  {| file_path := [lit "srv"; lit "user.config.json"];
     mtimeMs := 0; unlinkable := true |}.

(** Alice is connected and watches the camera; playlist and segments
    are on disk. *)
Definition watching : State :=
  stateOf (run config URL
             [connects; starts; (2500, FileWritten playlist);
              (2500, FileWritten segment); (2500, FileWritten chunk)]
             (initialState [secret])).

(** The state after Alice stopped the stream. *)
Definition stopped : State :=
  stateOf (run config URL [stops] watching).

(** The same installation admitting a single connection. *)
Definition single : Config := {|
  streams_directory := streams_directory config;
  streams_maxAge := streams_maxAge config;
  websocket_heartbeatInterval := websocket_heartbeatInterval config;
  websocket_maxConnections := 1
|}.

(** Alice is connected to it. *)
Definition full : State :=
  stateOf (run single URL [connects] (initialState [])).

(** Alice is connected and has asked for nothing yet. *)
Definition connected : State :=
  stateOf (run config URL [connects] (initialState [secret])).

(** A segment token that climbs out of the storage directory. *)
Definition climbing : jsstring := lit "x/../../../user.config.json".

(** Alice's socket has begun to close and its [close] event has not
    been delivered yet. *)
Definition closing : State :=
  stateOf (run config URL [(2200, WsReadyState alice CLOSING)] watching).

(** Alice's entry of the connection table while she watches. *)
Definition viewer : ClientInfo := {|
  id := alice;
  readyState := OPEN;
  ip := lit "10.0.0.7";
  userAgent := lit "Mozilla/5.0";
  connectTime := 1000;
  lastPing := 2000
|}.

End Scenario.

(** * More of the server *)

(** ** The listing of [GET /api/streams] *)

Module StreamRow.

(** ['active'] or ['inactive'] *)
Inductive Status := active | inactive.

(** A row of the listing. *)
Record t := {
  id : jsstring;
  rtspUrl : jsstring;
  connections : nat;
  startTime : Z;
  duration : Z;
  status : Status
}.

End StreamRow.

(** [getActiveStreamsInfo()], at clock reading [now].  A command object
    always has a [kill] method. *)
Definition getActiveStreamsInfo (now : Z) (st : State) : list StreamRow.t :=
  map (fun entry : jsstring * StreamInfo =>
         let (id, info) := entry in
         {| StreamRow.id := id;
            StreamRow.rtspUrl := rtspUrl info;
            StreamRow.connections := List.length (connections info);
            StreamRow.startTime := startTime info;
            StreamRow.duration := now - startTime info;
            StreamRow.status := match command info with
                          | Some _ => StreamRow.active
                          | None => StreamRow.inactive
                          end |})
    (activeStreams st).

(** ** What the registry looks like between two events

    Every registered stream has one viewer, a command whose handlers
    were installed for that stream and that viewer, and no forced-kill
    timer. *)
Definition tidy (st : State) : Prop :=
  forall streamId info,
    JsMap.get streamId (activeStreams st) = Some info ->
    timeoutId info = None /\
    exists viewer cmd,
      connections info = [viewer] /\
      command info = Some cmd /\
      nth_error (handlers st) cmd = Some (streamId, viewer).

(** ** Files of the storage directory *)

(** A name a filesystem gives to a directory entry: not empty, not [.]
    or [..], without a separator. *)
Definition plainName (name : jsstring) : bool :=
  negb (existsb (N.eqb slash) name) && isNormalized [name].

Fixpoint distinctPaths (ps : list path) : bool :=
  match ps with
  | [] => true
  | p :: ps' => negb (existsb (path_eqb p) ps') && distinctPaths ps'
  end.

(** A disk on which no two files share a path and the entries of [dir]
    have plain names. *)
Definition soundDisk (dir : path) (files : list File) : bool :=
  distinctPaths (map file_path files) &&
  forallb (fun f => match childOf dir (file_path f) with
                    | Some name => plainName name
                    | None => true
                    end) files.

(** [f] is an entry of [dir]. *)
Definition inDirectory (dir : path) (f : File) : bool :=
  match childOf dir (file_path f) with
  | Some _ => true
  | None => false
  end.

(** [f] is an entry of [dir] whose name starts with [prefix]. *)
Definition namedWith (dir : path) (prefix : jsstring) (f : File) : bool :=
  match childOf dir (file_path f) with
  | Some name => startsWith prefix name
  | None => false
  end.

(** The test of [cleanupExpiredFiles] on the age of a file. *)
Definition expired (config : Config) (now : Z) (f : File) : bool :=
  now - mtimeMs f >? streams_maxAge config.

(** ** More scenarios *)

Module Cases.

(** A second client, Bob, connects while Alice watches. *)
Definition bobConnects : Z * Event :=
  (2600, Connection (lit "q1w2e3r4t") (lit "10.0.0.9") (lit "curl/8.5")).

Definition bob : jsstring := generateConnectionId 2600 (lit "q1w2e3r4t").

Definition both : State :=
  stateOf (run Scenario.config Scenario.URL [bobConnects] Scenario.watching).

(** Alice's stream is registered and ffmpeg has written nothing yet. *)
Definition early : State :=
  stateOf (run Scenario.config Scenario.URL
             [Scenario.connects; Scenario.starts]
             (initialState [Scenario.secret])).

(** An old recording that cannot be deleted, and an old one that can. *)
Definition locked : File :=
  {| file_path := Scenario.streams ++ [lit "old.ts"]; mtimeMs := 100;
     unlinkable := false |}.

Definition stale : File := Scenario.artifact (lit "stale.ts") 200.

Definition late : File := Scenario.artifact (lit "late.ts") 50.

(** The storage directory with the three old recordings beside the
    artifacts of Alice's stream. *)
Definition aged : State :=
  stateOf (run Scenario.config Scenario.URL
             [(2700, FileWritten stale); (2800, FileWritten locked);
              (2900, FileWritten late)]
             Scenario.watching).

End Cases.

(** * The configuration file ([config.js]) *)

(** [typeof v === 'object' && !Array.isArray(v)], which [null]
    passes. *)
Definition isPlainObject (v : json) : bool :=
  match v with
  | JNull | JObject _ => true
  | _ => false
  end.

(** The keys [0], [1], ... of the elements of an array or the code units
    of a string. *)
Fixpoint indexed {A} (f : A -> json) (i : nat) (l : list A)
  : list (jsstring * json) :=
  match l with
  | [] => []
  | x :: l' => (toString (Z.of_nat i), f x) :: indexed f (S i) l'
  end.

(** The own enumerable properties of a value, which is what [{...v}]
    copies: none for [null], a number or a boolean. *)
Definition ownProperties (v : json) : list (jsstring * json) :=
  match v with
  | JObject props => props
  | JArray items => indexed (fun x => x) 0 items
  | JString s => indexed (fun c => JString [c]) 0 s
  | _ => []
  end.

(** [mergeConfig(defaultConfig, userConfig)].  [merged] is the list of
    the own properties of the object under construction; [for (const key
    in userConfig)] walks the properties of an object, the indices of an
    array or of a string, and nothing for [null], a number or a boolean.
    [merged[key]] is read as an own property: of the properties an
    object inherits, all are functions but [__proto__], and assigning to
    [__proto__] replaces the prototype; a user configuration with such a
    key is outside this model (see [protoFree]). *)
Fixpoint mergeConfig (defaultConfig userConfig : json) {struct userConfig}
  : json :=
  JObject
    match userConfig with
    | JObject props =>
        (fix each (merged : list (jsstring * json))
             (props : list (jsstring * json)) :=
           match props with
           | [] => merged
           | (key, value) :: props' =>
               each
                 (JsMap.set key
                    match JsMap.get key merged with
                    | Some own =>
                        if isPlainObject value && isPlainObject own
                        then mergeConfig own value
                        else value
                    | None => value
                    end merged)
                 props'
           end) (ownProperties defaultConfig) props
    | JArray items =>
        (fix each (merged : list (jsstring * json)) (i : nat)
             (items : list json) :=
           match items with
           | [] => merged
           | value :: items' =>
               let key := toString (Z.of_nat i) in
               each
                 (JsMap.set key
                    match JsMap.get key merged with
                    | Some own =>
                        if isPlainObject value && isPlainObject own
                        then mergeConfig own value
                        else value
                    | None => value
                    end merged)
                 (S i) items'
           end) (ownProperties defaultConfig) 0%nat items
    | JString s =>
        fold_left (fun merged entry => JsMap.set (fst entry) (snd entry) merged)
          (indexed (fun c => JString [c]) 0 s) (ownProperties defaultConfig)
    | _ => ownProperties defaultConfig
    end.

(** No object inside [v] has a key [__proto__]. *)
Fixpoint protoFree (v : json) : bool :=
  match v with
  | JObject props =>
      (fix all (props : list (jsstring * json)) :=
         match props with
         | [] => true
         | (key, value) :: props' =>
             negb (str_eqb key (lit "__proto__")) && protoFree value
             && all props'
         end) props
  | JArray items =>
      (fix all (items : list json) :=
         match items with
         | [] => true
         | value :: items' => protoFree value && all items'
         end) items
  | _ => true
  end.

(** What the module exports.  [file] is [None] when [user.config.json]
    does not exist, [Some None] when reading or parsing it throws, and
    the parsed value otherwise. *)
Definition exportedConfig (defaultConfig : json) (file : option (option json))
  : json :=
  let userConfig :=
    match file with
    | Some (Some parsed) => parsed
    | _ => JObject []
    end in
  mergeConfig defaultConfig userConfig.

(** ** A sample configuration *)

Module Settings.

(** Two sections of [defaultConfig], for a server installed in [/srv]. *)
Definition defaults : json :=
  JObject
    [(lit "streams",
      JObject [(lit "directory", JString (lit "/srv/public/streams"));
               (lit "cleanupInterval", JNumber 60000);
               (lit "maxAge", JNumber 300000)]);
     (lit "websocket",
      JObject [(lit "heartbeatInterval", JNumber 30000);
               (lit "maxConnections", JNumber 100);
               (lit "noServer", JBool true)])].

(** [{"streams":{"maxAge":1000},"websocket":null,"motd":"hi"}] *)
Definition user : json :=
  JObject
    [(lit "streams", JObject [(lit "maxAge", JNumber 1000)]);
     (lit "websocket", JNull);
     (lit "motd", JString (lit "hi"))].

End Settings.

(** * The logger ([logger.js]) *)

Module Logger.

(** What reading a property of [this.levels] gives: a number, a value
    that is not a number (the object inherits functions, and its
    prototype under [__proto__]), or [undefined]. *)
Inductive Looked :=
| Number (n : Z)
| Inherited
| Undefined.

(** The names every object inherits from [Object.prototype]. *)
Definition inheritedNames : list jsstring :=
  [lit "constructor"; lit "__proto__"; lit "hasOwnProperty";
   lit "isPrototypeOf"; lit "propertyIsEnumerable"; lit "toLocaleString";
   lit "toString"; lit "valueOf"; lit "__defineGetter__";
   lit "__defineSetter__"; lit "__lookupGetter__"; lit "__lookupSetter__"].

(** [this.levels[key]] *)
Definition levels (key : jsstring) : Looked :=
  if str_eqb key (lit "error") then Number 0
  else if str_eqb key (lit "warn") then Number 1
  else if str_eqb key (lit "info") then Number 2
  else if str_eqb key (lit "debug") then Number 3
  else if existsb (str_eqb key) inheritedNames then Inherited
  else Undefined.

(** [this.levels[this.config.level] || 2], for the property key [level]
    that [config.level] converts to: [0] and [undefined] are falsy. *)
Definition currentLevel (level : jsstring) : Looked :=
  match levels level with
  | Number 0 => Number 2
  | Undefined => Number 2
  | found => found
  end.

(** [shouldLog(level)] of a logger built with [config.level]: [<=] is
    false as soon as one side is not a number. *)
Definition shouldLog (configured level : jsstring) : bool :=
  match levels level, currentLevel configured with
  | Number l, Number c => l <=? c
  | _, _ => false
  end.

(** [path.extname(name)] for a name without separator: from the last
    dot on, unless there is none, it is the first character, or the name
    is [..]. *)
Fixpoint fromLastDot (s : jsstring) : option jsstring :=
  match s with
  | [] => None
  | c :: s' =>
      match fromLastDot s' with
      | Some ext => Some ext
      | None => if N.eqb c 0x2E then Some s else None
      end
  end.

Definition extname (name : jsstring) : jsstring :=
  match name with
  | [] => []
  | _ :: rest =>
      match fromLastDot rest with
      | Some ext => if str_eqb name (lit "..") then [] else ext
      | None => []
      end
  end.

(** [s.endsWith(suffix)] *)
Definition endsWith (suffix s : jsstring) : bool :=
  startsWith (rev suffix) (rev s).

(** [path.basename(name, ext)] for a name without separator: the name
    without [ext] at its end; the empty string when the name is [ext]. *)
Definition basename (name ext : jsstring) : jsstring :=
  if str_eqb ext [] || negb (endsWith ext name) then name
  else firstn (List.length name - List.length ext) name.

(** The comparison of the default [Array.prototype.sort] on strings: by
    code units. *)
Fixpoint str_leb (a b : jsstring) : bool :=
  match a, b with
  | [], _ => true
  | _ :: _, [] => false
  | x :: a', y :: b' => N.ltb x y || (N.eqb x y && str_leb a' b')
  end.

Fixpoint insert (x : jsstring) (l : list jsstring) : list jsstring :=
  match l with
  | [] => [x]
  | y :: l' => if str_leb x y then x :: l else y :: insert x l'
  end.

Definition sort (l : list jsstring) : list jsstring :=
  fold_right insert [] l.

(** The filter of [cleanupOldLogs]. *)
Definition isOldLog (logFile file : jsstring) : bool :=
  let logName := basename logFile (extname logFile) in
  str_eqb (basename file (extname file)) logName
  && negb (str_eqb file logFile).

(** The [forEach] of [cleanupOldLogs]; [Thrown] when [unlinkSync]
    throws. *)
Fixpoint unlinkEach (logDir : path) (files : list jsstring) : M Completion :=
  match files with
  | [] => ret Returned
  | file :: files' =>
      ok <- unlinkSync (path_join logDir file) ;;
      if ok : bool then unlinkEach logDir files' else ret Thrown
  end.

(** [cleanupOldLogs()] of a logger whose [config.file] is [file] and
    whose [config.maxFiles] is [maxFiles].  The log directory exists:
    the constructor creates it.  The lines the logger writes about
    itself are not part of the model. *)
Definition cleanupOldLogs (file : path) (maxFiles : Z) : M unit :=
  let logDir := removelast file in
  let logFile := last file [] in
  files <- readdirSync logDir ;;
  let logFiles := filter (isOldLog logFile) files in
  let count := Z.of_nat (List.length logFiles) in
  if count >=? maxFiles then
    _ <- unlinkEach logDir
           (firstn (Z.to_nat (count - maxFiles + 1)) (sort logFiles)) ;;
    ret tt
  else ret tt.

End Logger.

(** * Properties *)

(** ** Strings and maps *)

Lemma str_eqb_refl (a : jsstring) : str_eqb a a = true.
Proof.
  induction a as [|x a IH]; simpl; [reflexivity|].
  now rewrite N.eqb_refl, IH.
Qed.

Lemma str_eqb_eq (a b : jsstring) : str_eqb a b = true <-> a = b.
Proof.
  split; [|intros ->; apply str_eqb_refl].
  revert b; induction a as [|x a IH]; intros [|y b]; simpl; try easy.
  rewrite andb_true_iff, N.eqb_eq. intros [-> H]. now rewrite (IH b H).
Qed.

Lemma str_eqb_neq (a b : jsstring) : str_eqb a b = false <-> a <> b.
Proof.
  rewrite <- str_eqb_eq. now destruct (str_eqb a b).
Qed.

Lemma path_eqb_refl (p : path) : path_eqb p p = true.
Proof.
  induction p as [|x p IH]; simpl; [reflexivity|].
  now rewrite str_eqb_refl, IH.
Qed.

Module JsMapFacts.
Section WithValue.
Context {V : Type}.
Implicit Types (m : JsMap.t V) (k : jsstring) (v : V).

Lemma get_set_eq m k v : JsMap.get k (JsMap.set k v m) = Some v.
Proof.
  induction m as [|[k' v'] m IH]; simpl.
  - now rewrite str_eqb_refl.
  - destruct (str_eqb k k') eqn:E; simpl.
    + now rewrite str_eqb_refl.
    + now rewrite E.
Qed.

Lemma get_set_ne m k k' v :
  k' <> k -> JsMap.get k' (JsMap.set k v m) = JsMap.get k' m.
Proof.
  intros Hne. apply str_eqb_neq in Hne.
  induction m as [|[k0 v0] m IH]; simpl.
  - now rewrite Hne.
  - destruct (str_eqb k k0) eqn:E; simpl.
    + apply str_eqb_eq in E; subst k0. now rewrite Hne.
    + now rewrite IH.
Qed.

Lemma get_delete_eq m k : JsMap.get k (JsMap.delete k m) = None.
Proof.
  induction m as [|[k' v'] m IH]; simpl; [reflexivity|].
  destruct (str_eqb k k') eqn:E; simpl; [assumption|now rewrite E].
Qed.

Lemma get_delete_ne m k k' :
  k' <> k -> JsMap.get k' (JsMap.delete k m) = JsMap.get k' m.
Proof.
  intros Hne. apply str_eqb_neq in Hne.
  induction m as [|[k0 v0] m IH]; simpl; [reflexivity|].
  destruct (str_eqb k k0) eqn:E; simpl.
  - apply str_eqb_eq in E; subst k0. now rewrite Hne.
  - now rewrite IH.
Qed.

Lemma size_set_le m k v :
  (JsMap.size (JsMap.set k v m) <= S (JsMap.size m))%nat.
Proof.
  unfold JsMap.size.
  induction m as [|[k' v'] m IH]; simpl; [lia|].
  destruct (str_eqb k k'); simpl; lia.
Qed.

Lemma size_set_present m k v v' :
  JsMap.get k m = Some v' -> JsMap.size (JsMap.set k v m) = JsMap.size m.
Proof.
  unfold JsMap.size.
  induction m as [|[k0 v0] m IH]; simpl; [discriminate|].
  destruct (str_eqb k k0); simpl; [reflexivity|].
  intros H. now rewrite IH.
Qed.

Lemma size_delete_le m k : (JsMap.size (JsMap.delete k m) <= JsMap.size m)%nat.
Proof.
  unfold JsMap.size.
  induction m as [|[k' v'] m IH]; simpl; [lia|].
  destruct (str_eqb k k'); simpl; lia.
Qed.

Lemma get_Some_key m k v : JsMap.get k m = Some v -> In k (JsMap.keys m).
Proof.
  induction m as [|[k' v'] m IH]; simpl; [discriminate|].
  destruct (str_eqb k k') eqn:E.
  - apply str_eqb_eq in E. now left.
  - intros H. right. now apply IH.
Qed.
End WithValue.
End JsMapFacts.

(** ** Frames *)

Lemma sendError_spec connectionId message st :
  sendError connectionId message st =
  (tt, st, if canReceive st connectionId
           then [Send connectionId (error message)] else []).
Proof.
  unfold sendError, canReceive, bind, getState, when, emit, ret; simpl.
  destruct (JsMap.get connectionId (wsConnections st)) as [c|]; simpl;
    [destruct (isOpen (readyState c))|]; reflexivity.
Qed.

Lemma sendMessage_spec connectionId message st :
  sendMessage connectionId message st =
  (tt, st, if canReceive st connectionId
           then [Send connectionId message] else []).
Proof.
  unfold sendMessage, canReceive, bind, getState, when, emit, ret; simpl.
  destruct (JsMap.get connectionId (wsConnections st)) as [c|]; simpl;
    [destruct (isOpen (readyState c))|]; reflexivity.
Qed.

(** ** Equations of the handler monad *)

Lemma bind_getState {B} (k : State -> M B) (st : State) :
  bind getState k st = k st st.
Proof.
  unfold bind, getState. now destruct (k st st) as [[b st2] fx2].
Qed.

Lemma bind_ret {A B} (a : A) (k : A -> M B) (st : State) :
  bind (ret a) k st = k a st.
Proof.
  unfold bind, ret. now destruct (k a st) as [[b st2] fx2].
Qed.

Lemma bind_modify {B} (f : State -> State) (k : unit -> M B) (st : State) :
  bind (modify f) k st = k tt (f st).
Proof.
  unfold bind, modify. now destruct (k tt (f st)) as [[b st2] fx2].
Qed.

Lemma bind_assoc {A B C} (c : M A) (k : A -> M B) (h : B -> M C) st :
  bind (bind c k) h st = bind c (fun a => bind (k a) h) st.
Proof.
  unfold bind. destruct (c st) as [[a st1] fx1].
  destruct (k a st1) as [[b st2] fx2].
  destruct (h b st2) as [[x st3] fx3]. now rewrite app_assoc.
Qed.

Lemma stateOf_bind {A B} (c : M A) (k : A -> M B) (st : State) :
  stateOf (bind c k st) = stateOf (k (valueOf (c st)) (stateOf (c st))).
Proof.
  unfold bind, stateOf, valueOf. destruct (c st) as [[a st1] fx1]; simpl.
  now destruct (k a st1) as [[b st2] fx2].
Qed.

(** ** Runs *)

Lemma run_cons config URL now e events st :
  run config URL ((now, e) :: events) st =
  let '(_, st1, fx1) := handle config URL now e st in
  let '(_, st2, fx2) := run config URL events st1 in
  (tt, st2, fx1 ++ fx2).
Proof.
  simpl. unfold bind.
  destruct (handle config URL now e st) as [[[] st1] fx1].
  destruct (run config URL events st1) as [[[] st2] fx2]. reflexivity.
Qed.

Lemma reachable_run config URL events st :
  reachable config URL st ->
  reachable config URL (stateOf (run config URL events st)).
Proof.
  revert st. induction events as [|[now e] events IH]; intros st Hst.
  - exact Hst.
  - rewrite run_cons.
    pose proof (reachable_handle st now e Hst) as Hstep.
    destruct (handle config URL now e st) as [[u st1] fx1].
    specialize (IH st1 Hstep).
    destruct (run config URL events st1) as [[u2 st2] fx2]. exact IH.
Qed.

(** ** Requests that are refused change nothing *)

(** C9. A [stopStream] whose [streamId] is not a key of [activeStreams]
    changes nothing: the state after, with both tables, the timers, the
    command handlers and the disk, is the state before.  The requester,
    a connection of the table whose socket is open, is sent the error
    frame "stream does not exist", and nothing else is done in any
    case. *)
Theorem stopRtspStream_unknown_stream
  (config : Config) (st : State) (streamId : option json)
  (connectionId : jsstring) :
  (forall s, streamId = Some (JString s) ->
             JsMap.get s (activeStreams st) = None) ->
  let r := stopRtspStream config streamId connectionId st in
  stateOf r = st /\
  (canReceive st connectionId = true ->
   effectsOf r = [Send connectionId (error Text.noStream)]) /\
  Forall (fun e => e = Send connectionId (error Text.noStream)) (effectsOf r).
Proof.
  intros Habsent r.
  assert (Hr : r = sendError connectionId Text.noStream st).
  { unfold r, stopRtspStream. rewrite bind_getState.
    assert (getStream streamId (activeStreams st) = None) as ->;
      [|reflexivity].
    unfold getStream. destruct streamId as [[ | | |s| | ]|]; try reflexivity.
    now rewrite (Habsent s eq_refl). }
  rewrite Hr, sendError_spec. split; [reflexivity|].
  unfold effectsOf; simpl. split.
  - now intros ->.
  - destruct (canReceive st connectionId); repeat constructor.
Qed.

Lemma stopRtspStream_unknown_stream_witness :
  let st := Scenario.watching in
  let gone := Some (JString (lit "stream_1_gone")) in
  canReceive st Scenario.alice = true /\
  stateOf (stopRtspStream Scenario.config gone Scenario.alice st) = st /\
  effectsOf (stopRtspStream Scenario.config gone Scenario.alice st)
  = [Send Scenario.alice (error Text.noStream)].
Proof.
  assert (Habsent : forall s,
            Some (JString (lit "stream_1_gone")) = Some (JString s) ->
            JsMap.get s (activeStreams Scenario.watching) = None)
    by (intros s [= <-]; reflexivity).
  destruct (stopRtspStream_unknown_stream Scenario.config Scenario.watching
              (Some (JString (lit "stream_1_gone"))) Scenario.alice Habsent)
    as [Hstate [Hframe _]].
  split; [reflexivity|]. split; [exact Hstate|]. now apply Hframe.
Defined.

(** C7. A start request whose address fails [validateRtspUrl] changes
    nothing: no entry is added to [activeStreams], no ffmpeg command is
    created, and the state after is the state before.  The requester, a
    connection of the table whose socket is open, is sent an error frame
    carrying the reason the validation gave, and nothing else is done in
    any case. *)
Theorem startRtspStream_invalid_address
  (config : Config) (URL : jsstring -> option Url) (st : State)
  (now : Z) (rnd : jsstring) (throws : bool)
  (rtspUrl : option json) (connectionId : jsstring) :
  valid (validateRtspUrl URL rtspUrl) = false ->
  let r := startRtspStream config URL now rnd throws rtspUrl connectionId st in
  exists reason,
    validateRtspUrl URL rtspUrl = Invalid reason /\
    stateOf r = st /\
    (canReceive st connectionId = true ->
     effectsOf r = [Send connectionId (error reason)]) /\
    Forall (fun e => e = Send connectionId (error reason)) (effectsOf r).
Proof.
  intros Hinvalid r. unfold r, startRtspStream.
  destruct (validateRtspUrl URL rtspUrl) as [|reason]; [discriminate|].
  exists reason. split; [reflexivity|].
  rewrite sendError_spec. split; [reflexivity|].
  unfold effectsOf; simpl. split.
  - now intros ->.
  - destruct (canReceive st connectionId); repeat constructor.
Qed.

Lemma startRtspStream_invalid_address_witness :
  let st := Scenario.watching in
  let evil := Some (JString (lit "http://evil/x")) in
  let r := startRtspStream Scenario.config Scenario.URL 4000 (lit "z") false
             evil Scenario.alice st in
  valid (validateRtspUrl Scenario.URL evil) = false /\
  canReceive st Scenario.alice = true /\
  stateOf r = st /\
  effectsOf r = [Send Scenario.alice (error Text.urlNotRtsp)].
Proof.
  destruct (startRtspStream_invalid_address Scenario.config Scenario.URL
              Scenario.watching 4000 (lit "z") false
              (Some (JString (lit "http://evil/x"))) Scenario.alice eq_refl)
    as [reason [Hreason [Hstate [Hframe _]]]].
  split; [reflexivity|]. split; [reflexivity|]. split; [exact Hstate|].
  injection Hreason as <-. now apply Hframe.
Defined.

(** The reason [validateRtspUrl] gives for each kind of bad address: a
    value that is not a non-empty string; a scheme other than [rtsp://];
    more than 2048 code units; a character or sequence of
    [dangerousPatterns]; an address the platform cannot parse; a missing
    host name. *)
Lemma validateRtspUrl_reasons (URL : jsstring -> option Url) :
  (forall v, (forall s, v = Some (JString s) -> s = []) ->
     validateRtspUrl URL v = Invalid Text.urlEmpty) /\
  (forall s, s <> [] -> startsWith (lit "rtsp://") (trim s) = false ->
     validateRtspUrl URL (Some (JString s)) = Invalid Text.urlNotRtsp) /\
  (forall s, s <> [] -> startsWith (lit "rtsp://") (trim s) = true ->
     2048 < Z.of_nat (List.length (trim s)) ->
     validateRtspUrl URL (Some (JString s)) = Invalid Text.urlTooLong) /\
  (forall s, s <> [] -> startsWith (lit "rtsp://") (trim s) = true ->
     Z.of_nat (List.length (trim s)) <= 2048 ->
     existsb (fun pattern => pattern (trim s)) dangerousPatterns = true ->
     validateRtspUrl URL (Some (JString s)) = Invalid Text.urlIllegal) /\
  (forall s, s <> [] -> startsWith (lit "rtsp://") (trim s) = true ->
     Z.of_nat (List.length (trim s)) <= 2048 ->
     existsb (fun pattern => pattern (trim s)) dangerousPatterns = false ->
     (URL (trim s) = None ->
      validateRtspUrl URL (Some (JString s)) = Invalid Text.urlFormat) /\
     (forall u, URL (trim s) = Some u ->
        existsb (str_eqb (protocol u)) [lit "rtsp:"; lit "rtsps:"] = true ->
        hostname u = [] ->
        validateRtspUrl URL (Some (JString s)) = Invalid Text.urlNoHost)).
Proof.
  assert (Hne : forall s, s <> [] -> str_eqb s [] = false)
    by (intros s H; now apply str_eqb_neq).
  split; [|split; [|split; [|split]]].
  - intros v Hv. destruct v as [[ | | |s| | ]|]; try reflexivity.
    now rewrite (Hv s eq_refl).
  - intros s Hs Hscheme. unfold validateRtspUrl.
    now rewrite (Hne s Hs), Hscheme.
  - intros s Hs Hscheme Hlen. unfold validateRtspUrl.
    rewrite (Hne s Hs), Hscheme; cbn [negb].
    apply Z.gtb_lt in Hlen. now rewrite Hlen.
  - intros s Hs Hscheme Hlen Hbad. unfold validateRtspUrl.
    rewrite (Hne s Hs), Hscheme; cbn [negb].
    destruct (Z.gtb_spec (Z.of_nat (List.length (trim s))) 2048); [lia|].
    now rewrite Hbad.
  - intros s Hs Hscheme Hlen Hclean. unfold validateRtspUrl.
    rewrite (Hne s Hs), Hscheme; cbn [negb].
    destruct (Z.gtb_spec (Z.of_nat (List.length (trim s))) 2048); [lia|].
    rewrite Hclean. split.
    + now intros ->.
    + intros u -> Hproto Hhost. now rewrite Hproto, Hhost.
Qed.

(** ** Artifacts of sessions that are not registered *)

(** C4. A playlist or segment request whose [streamId] is not a key of
    [activeStreams] is answered not-found without a single filesystem
    call (no effect at all is performed), whatever the disk holds. *)
Theorem serve_unregistered_stream
  (config : Config) (st : State) (streamId : jsstring) :
  JsMap.get streamId (activeStreams st) = None ->
  serveHLSPlaylist config streamId st = (NotFound Text.noStream, st, []) /\
  forall segment,
    serveHLSSegment config streamId segment st =
    (NotFound Text.noStream, st, []).
Proof.
  intros Habsent. split; [|intros segment];
    unfold serveHLSPlaylist, serveHLSSegment, bind, getState; simpl;
    now rewrite Habsent.
Qed.

Lemma serve_unregistered_stream_witness :
  let st := Scenario.stopped in
  JsMap.get Scenario.stream (activeStreams st) = None /\
  existsb (fun f => path_eqb (file_path Scenario.segment) (file_path f))
    (disk st) = true /\
  serveHLSPlaylist Scenario.config Scenario.stream st =
    (NotFound Text.noStream, st, []) /\
  serveHLSSegment Scenario.config Scenario.stream (lit "0.ts") st =
    (NotFound Text.noStream, st, []).
Proof.
  split; [reflexivity|]. split; [reflexivity|].
  destruct (serve_unregistered_stream Scenario.config Scenario.stopped
              Scenario.stream eq_refl) as [Hplaylist Hsegment].
  split; [exact Hplaylist|apply Hsegment].
Defined.

(** ** A program logic for the handlers *)

Section Safety.

Variable config : Config.
Variable URL : jsstring -> option Url.
Variable I : State -> Prop.
Variable P : Effect -> Prop.

(** What the invariant must tolerate, and what the effects may be. *)
Hypothesis I_streams : forall f st, I st -> I (with_activeStreams f st).
Hypothesis I_disk : forall f st, I st -> I (with_disk f st).
Hypothesis I_delete :
  forall k st, I st -> I (with_wsConnections (JsMap.delete k) st).
Hypothesis I_update :
  forall k v v0 st,
    JsMap.get k (wsConnections st) = Some v0 ->
    I st -> I (with_wsConnections (JsMap.set k v) st).
Hypothesis I_clear : forall t st, I st -> I (stateOf (clearTimeout t st)).
Hypothesis I_save :
  forall i o s c st, I st -> I (stateOf (save i o s c st)).
Hypothesis P_gentle : forall e, notForcedKill e -> P e.

Local Abbreviation ok := (safe I P).

Lemma safe_ret {A} (a : A) : ok (ret a).
Proof. intros st HI. split; [exact HI|constructor]. Qed.

Lemma safe_bind {A B} (c : M A) (k : A -> M B) :
  ok c -> (forall a, ok (k a)) -> ok (bind c k).
Proof.
  intros Hc Hk st HI. unfold bind.
  specialize (Hc st HI). destruct (c st) as [[a st1] fx1].
  destruct Hc as [HI1 HP1]. specialize (Hk a st1 HI1).
  destruct (k a st1) as [[b st2] fx2]. destruct Hk as [HI2 HP2].
  split; [exact HI2|]. apply Forall_app. split; assumption.
Qed.

(** Reading the state keeps the link between the value read and the
    state the rest runs in. *)
Lemma safe_getState {B} (k : State -> M B) :
  (forall st, I st ->
     I (stateOf (k st st)) /\ Forall P (effectsOf (k st st))) ->
  ok (bind getState k).
Proof.
  intros Hk st HI. unfold bind, getState.
  specialize (Hk st HI). destruct (k st st) as [[b st2] fx2].
  exact Hk.
Qed.

Lemma safe_get : ok getState.
Proof. intros st HI. split; [exact HI|constructor]. Qed.

Lemma safe_emit (e : Effect) : notForcedKill e -> ok (emit e).
Proof.
  intros He st HI. split; [exact HI|].
  constructor; [now apply P_gentle|constructor].
Qed.

Lemma safe_when (b : bool) (c : M unit) : ok c -> ok (when b c).
Proof. destruct b; [easy|intros _; apply safe_ret]. Qed.

Lemma safe_modify_streams f : ok (modify (with_activeStreams f)).
Proof. intros st HI. split; [now apply I_streams|constructor]. Qed.

Lemma safe_modify_disk f : ok (modify (with_disk f)).
Proof. intros st HI. split; [now apply I_disk|constructor]. Qed.

Lemma safe_modify_delete k :
  ok (modify (with_wsConnections (JsMap.delete k))).
Proof. intros st HI. split; [now apply I_delete|constructor]. Qed.

Lemma safe_forEachKey {V} (table : State -> JsMap.t V) ks f :
  (forall v k, ok (f v k)) -> ok (forEachKey table ks f).
Proof.
  intros Hf. induction ks as [|k ks IH]; simpl; [apply safe_ret|].
  apply safe_bind; [apply safe_get|]. intros st.
  apply safe_bind; [|intros _; exact IH].
  destruct (JsMap.get k (table st)); [apply Hf|apply safe_ret].
Qed.

Lemma safe_forEach {V} (table : State -> JsMap.t V) f :
  (forall v k, ok (f v k)) -> ok (forEach table f).
Proof.
  intros Hf. unfold forEach. apply safe_bind; [apply safe_get|].
  intros st. now apply safe_forEachKey.
Qed.

Lemma safe_sendError c m : ok (sendError c m).
Proof.
  intros st HI. rewrite sendError_spec. split; [exact HI|].
  destruct (canReceive st c); repeat constructor. now apply P_gentle.
Qed.

Lemma safe_sendMessage c m : ok (sendMessage c m).
Proof.
  intros st HI. rewrite sendMessage_spec. split; [exact HI|].
  destruct (canReceive st c); repeat constructor. now apply P_gentle.
Qed.

Lemma safe_existsSync p : ok (existsSync p).
Proof.
  intros st HI. split; [exact HI|].
  repeat constructor. now apply P_gentle.
Qed.

Lemma safe_readdirSync p : ok (readdirSync p).
Proof.
  intros st HI. split; [exact HI|].
  repeat constructor. now apply P_gentle.
Qed.

Lemma safe_statSync p : ok (statSync p).
Proof.
  intros st HI. split; [exact HI|].
  repeat constructor. now apply P_gentle.
Qed.

Lemma safe_unlinkSync p : ok (unlinkSync p).
Proof.
  intros st HI. unfold unlinkSync.
  destruct (find _ (disk st)) as [f|]; [destruct (unlinkable f)|];
    (split; [try exact HI; now apply I_disk|]);
    repeat constructor; now apply P_gentle.
Qed.

Lemma safe_clearTimeout t : ok (clearTimeout t).
Proof.
  intros st HI. split; [now apply I_clear|].
  repeat constructor. now apply P_gentle.
Qed.

Lemma safe_unlinkStartingWith prefix files :
  ok (unlinkStartingWith config prefix files).
Proof.
  induction files as [|file files IH]; simpl; [apply safe_ret|].
  destruct (startsWith prefix file); [|exact IH].
  apply safe_bind; [apply safe_unlinkSync|].
  intros [|]; [exact IH|apply safe_ret].
Qed.

Lemma safe_cleanupStream streamId : ok (cleanupStream config streamId).
Proof.
  unfold cleanupStream.
  apply safe_bind; [apply safe_get|]. intros st.
  apply safe_bind.
  - destruct (JsMap.get streamId (activeStreams st)) as [info|];
      [|apply safe_ret].
    destruct (timeoutId info); [|apply safe_ret].
    apply safe_bind; [apply safe_clearTimeout|].
    intros _. apply safe_modify_streams.
  - intros _. apply safe_bind; [apply safe_modify_streams|].
    intros _. apply safe_bind; [apply safe_readdirSync|].
    intros files. apply safe_bind; [apply safe_unlinkStartingWith|].
    intros _. apply safe_ret.
Qed.

Lemma safe_bind_at {A B} (st : State) (c : M A) (k : A -> M B) :
  I (stateOf (c st)) /\ Forall P (effectsOf (c st)) ->
  (forall a, ok (k a)) ->
  I (stateOf (bind c k st)) /\ Forall P (effectsOf (bind c k st)).
Proof.
  intros Hc Hk. unfold bind.
  destruct (c st) as [[a st1] fx1]. destruct Hc as [HI1 HP1].
  specialize (Hk a st1 HI1).
  destruct (k a st1) as [[b st2] fx2]. destruct Hk as [HI2 HP2].
  split; [exact HI2|]. apply Forall_app. split; assumption.
Qed.

Lemma safe_save i o s c : ok (save i o s c).
Proof.
  intros st HI. split; [now apply I_save|].
  repeat constructor. now apply P_gentle.
Qed.

Lemma safe_startRtspStream now rnd throws rtspUrl connectionId :
  ok (startRtspStream config URL now rnd throws rtspUrl connectionId).
Proof.
  unfold startRtspStream.
  destruct (validateRtspUrl URL rtspUrl); [|apply safe_sendError].
  apply safe_bind; [apply safe_sendMessage|]. intros _.
  apply safe_bind; [now apply safe_emit|]. intros _.
  destruct throws; [apply safe_sendError|].
  apply safe_bind; [apply safe_save|]. intros cmd.
  apply safe_modify_streams.
Qed.

Lemma safe_onFfmpegError cmd message : ok (onFfmpegError config cmd message).
Proof.
  unfold onFfmpegError. apply safe_bind; [apply safe_get|]. intros st.
  destruct (nth_error (handlers st) cmd) as [[streamId connectionId]|];
    [|apply safe_ret].
  apply safe_bind; [apply safe_sendError|]. intros _.
  apply safe_cleanupStream.
Qed.

Lemma safe_onFfmpegEnd cmd : ok (onFfmpegEnd config cmd).
Proof.
  unfold onFfmpegEnd. apply safe_bind; [apply safe_get|]. intros st.
  destruct (nth_error (handlers st) cmd) as [[streamId connectionId]|];
    [|apply safe_ret].
  apply safe_bind; [apply safe_sendMessage|]. intros _.
  apply safe_cleanupStream.
Qed.

Lemma safe_unlinkExpired now files : ok (unlinkExpired config now files).
Proof.
  induction files as [|file files IH]; simpl; [apply safe_ret|].
  apply safe_bind; [apply safe_statSync|]. intros [mtime|];
    [|apply safe_ret].
  destruct (now - mtime >? streams_maxAge config); [|exact IH].
  apply safe_bind; [apply safe_unlinkSync|].
  intros [|]; [exact IH|apply safe_ret].
Qed.

Lemma safe_cleanupExpiredFiles now : ok (cleanupExpiredFiles config now).
Proof.
  unfold cleanupExpiredFiles.
  apply safe_bind; [apply safe_readdirSync|]. intros files.
  apply safe_bind; [apply safe_unlinkExpired|]. intros _. apply safe_ret.
Qed.

Lemma safe_serveHLSPlaylist streamId : ok (serveHLSPlaylist config streamId).
Proof.
  unfold serveHLSPlaylist. apply safe_bind; [apply safe_get|]. intros st.
  destruct (JsMap.get streamId (activeStreams st)); [|apply safe_ret].
  apply safe_bind; [apply safe_existsSync|]. intros _.
  apply safe_bind; [apply safe_existsSync|].
  intros [|]; apply safe_ret.
Qed.

Lemma safe_serveHLSSegment streamId segment :
  ok (serveHLSSegment config streamId segment).
Proof.
  unfold serveHLSSegment. apply safe_bind; [apply safe_get|]. intros st.
  destruct (JsMap.get streamId (activeStreams st)); [|apply safe_ret].
  apply safe_bind; [apply safe_existsSync|].
  intros [|]; apply safe_ret.
Qed.

(** Writing to an entry that [wsConnections] holds. *)
Lemma safe_update_at st k (f : ClientInfo -> ClientInfo) :
  I st ->
  let c := match JsMap.get k (wsConnections st) with
           | Some clientInfo =>
               modify (with_wsConnections (JsMap.set k (f clientInfo)))
           | None => ret tt
           end in
  I (stateOf (c st)) /\ Forall P (effectsOf (c st)).
Proof.
  intros HI. simpl.
  destruct (JsMap.get k (wsConnections st)) as [clientInfo|] eqn:E.
  - split; [|constructor]. now apply (I_update k _ clientInfo).
  - split; [exact HI|constructor].
Qed.

Lemma safe_transportMoves connectionId r :
  ok (transportMoves connectionId r).
Proof.
  unfold transportMoves. apply safe_getState. intros st HI.
  now apply (safe_update_at st connectionId (setReadyState r)).
Qed.

Lemma safe_writeFile f : ok (writeFile f).
Proof. apply safe_modify_disk. Qed.

Lemma safe_onError connectionId : ok (onError connectionId).
Proof. apply safe_modify_delete. Qed.

Lemma safe_checkConnections now : ok (checkConnections config now).
Proof.
  unfold checkConnections. apply safe_forEach. intros clientInfo k.
  unfold checkConnection.
  destruct (now - lastPing clientInfo >? _); [|apply safe_sendMessage].
  apply safe_bind; [now apply safe_emit|]. intros _.
  apply safe_modify_delete.
Qed.

(** *** Arming and firing the forced-kill timer, for an invariant that
    tolerates pending timers *)

Section Arming.

Hypothesis I_setTimeout :
  forall s ms st, I st -> I (stateOf (setTimeout s ms st)).

Lemma safe_setTimeout s ms : ok (setTimeout s ms).
Proof.
  intros st HI. split; [now apply I_setTimeout|].
  repeat constructor. now apply P_gentle.
Qed.

Lemma safe_stopRtspStream streamId connectionId :
  ok (stopRtspStream config streamId connectionId).
Proof.
  unfold stopRtspStream. apply safe_bind; [apply safe_get|]. intros st.
  destruct (getStream streamId (activeStreams st)) as [[s info]|];
    [|apply safe_sendError].
  apply safe_bind; [apply safe_modify_streams|]. intros _.
  apply safe_bind; [|intros _; apply safe_sendMessage].
  destruct (Nat.eqb _ 0); [|apply safe_modify_streams].
  apply safe_bind; [|intros _; apply safe_cleanupStream].
  destruct (command _) as [cmd|]; [|apply safe_ret].
  apply safe_bind; [now apply safe_emit|]. intros _.
  apply safe_bind; [apply safe_setTimeout|]. intros t.
  apply safe_modify_streams.
Qed.

Hypothesis P_forced : forall cmd, P (Kill cmd SIGKILL).

Lemma safe_forcedKill streamId : ok (forcedKill config streamId).
Proof.
  unfold forcedKill. apply safe_bind; [apply safe_get|]. intros st.
  apply safe_when.
  apply safe_bind; [|intros _; apply safe_cleanupStream].
  destruct (JsMap.get streamId (activeStreams st)) as [info|];
    [|apply safe_ret].
  destruct (command info) as [cmd|]; [|apply safe_ret].
  intros st' HI. split; [exact HI|]. repeat constructor. apply P_forced.
Qed.

Lemma safe_fire timer : ok (fire config timer).
Proof.
  unfold fire. apply safe_bind; [apply safe_get|]. intros st.
  destruct (find _ (timers st)) as [[t streamId]|]; [|apply safe_ret].
  apply safe_bind; [|intros _; apply safe_forcedKill].
  intros st' HI. split; [|constructor].
  exact (I_clear timer st' HI).
Qed.

End Arming.

(** *** Handlers that stop streams *)

Section Stopping.

Hypothesis stop_ok :
  forall streamId connectionId,
    ok (stopRtspStream config streamId connectionId).

Lemma safe_dispatch now rnd throws connectionId data :
  ok (dispatch config URL now rnd throws connectionId data).
Proof.
  unfold dispatch.
  destruct (prop (lit "type") data) as [[ | | |type| | ]|];
    try apply safe_sendError.
  destruct (str_eqb type (lit "startStream"));
    [apply safe_startRtspStream|].
  destruct (str_eqb type (lit "stopStream")); [apply stop_ok|].
  destruct (str_eqb type (lit "pong"));
    [apply safe_ret|apply safe_sendError].
Qed.

Lemma safe_handleWebSocketMessage now rnd throws connectionId parsed :
  ok (handleWebSocketMessage config URL now rnd throws connectionId
        parsed).
Proof.
  unfold handleWebSocketMessage.
  destruct parsed as [data|]; [|apply safe_ret].
  destruct data; try apply safe_ret;
    (apply safe_getState; intros st HI;
     apply safe_bind_at;
       [now apply (safe_update_at st connectionId (setLastPing now))|];
     intros _; apply safe_bind; [apply safe_dispatch|];
     intros _; apply safe_ret).
Qed.

Lemma safe_onMessage now rnd throws connectionId parsed :
  ok (onMessage config URL now rnd throws connectionId parsed).
Proof.
  unfold onMessage.
  apply safe_bind; [apply safe_handleWebSocketMessage|].
  intros [|]; [apply safe_ret|apply safe_sendError].
Qed.

Lemma safe_handleWebSocketClose connectionId :
  ok (handleWebSocketClose config connectionId).
Proof.
  unfold handleWebSocketClose.
  apply safe_bind; [apply safe_modify_delete|]. intros _.
  apply safe_forEach. intros streamInfo streamId.
  apply safe_when, stop_ok.
Qed.

Hypothesis connection_ok :
  forall now rnd remoteAddress agent,
    ok (onConnection config now rnd remoteAddress agent).
Hypothesis fire_ok : forall timer, ok (fire config timer).

Lemma safe_handle now e : ok (handle config URL now e).
Proof.
  destruct e; simpl.
  - apply connection_ok.
  - apply safe_onMessage.
  - apply safe_handleWebSocketClose.
  - apply safe_onError.
  - apply safe_transportMoves.
  - apply safe_checkConnections.
  - apply safe_cleanupExpiredFiles.
  - apply fire_ok.
  - apply safe_ret.
  - apply safe_onFfmpegError.
  - apply safe_onFfmpegEnd.
  - apply safe_writeFile.
  - apply safe_bind; [apply safe_serveHLSPlaylist|].
    intros _; apply safe_ret.
  - apply safe_bind; [apply safe_serveHLSSegment|].
    intros _; apply safe_ret.
Qed.

End Stopping.

End Safety.

(** An invariant of the initial state that every handler keeps holds in
    every reachable state. *)
Lemma reachable_invariant config URL (I : State -> Prop) (P : Effect -> Prop) :
  (forall files, I (initialState files)) ->
  (forall now e, safe I P (handle config URL now e)) ->
  forall st, reachable config URL st -> I st.
Proof.
  intros Hinit Hhandle st Hreach.
  induction Hreach as [files|st now e _ IH]; [apply Hinit|].
  now apply Hhandle.
Qed.

(** ** The connection ceiling *)

Lemma withinCeiling_onConnection config now rnd remoteAddress agent :
  safe (withinCeiling config) (fun _ => True)
    (onConnection config now rnd remoteAddress agent).
Proof.
  intros st HI. unfold onConnection, bind, getState; simpl.
  destruct (Z.geb_spec (Z.of_nat (JsMap.size (wsConnections st)))
              (websocket_maxConnections config)) as [Hfull|Hroom]; simpl.
  - split; [exact HI|repeat constructor].
  - split; [|constructor]. unfold withinCeiling; simpl.
    pose proof (JsMapFacts.size_set_le (wsConnections st)
                  (generateConnectionId now rnd)
                  {| id := generateConnectionId now rnd;
                     readyState := OPEN; ip := remoteAddress;
                     userAgent := agent; connectTime := now;
                     lastPing := now |}).
    lia.
Qed.

Lemma withinCeiling_handle config URL now e :
  safe (withinCeiling config) (fun _ => True) (handle config URL now e).
Proof.
  assert (Hstreams : forall f st,
            withinCeiling config st ->
            withinCeiling config (with_activeStreams f st)) by easy.
  assert (Hdisk : forall f st,
            withinCeiling config st -> withinCeiling config (with_disk f st))
    by easy.
  assert (Hclear : forall t st,
            withinCeiling config st ->
            withinCeiling config (stateOf (clearTimeout t st))) by easy.
  apply safe_handle; try easy.
  - intros k st HI. unfold withinCeiling in *; simpl.
    pose proof (JsMapFacts.size_delete_le (wsConnections st) k). lia.
  - intros k v v0 st Hget HI. unfold withinCeiling in *; simpl.
    now rewrite (JsMapFacts.size_set_present _ _ v v0 Hget).
  - intros. now apply safe_stopRtspStream.
  - apply withinCeiling_onConnection.
  - intros. now apply safe_fire.
Qed.

(** C8. With a ceiling that is not negative, in every reachable state
    the number of entries of [wsConnections] is at most
    [websocket.maxConnections]; and a connection that arrives when the
    table holds that many entries (or more) is closed at once with status
    1008 (policy violation) and nothing else happens: it is not
    registered and nothing is kept of it. *)
Theorem connections_within_ceiling
  (config : Config) (URL : jsstring -> option Url) :
  0 <= websocket_maxConnections config ->
  (forall st, reachable config URL st -> withinCeiling config st) /\
  (forall st now rnd remoteAddress agent,
     websocket_maxConnections config
       <= Z.of_nat (JsMap.size (wsConnections st)) ->
     onConnection config now rnd remoteAddress agent st =
     (tt, st, [Reject 1008 Text.serverFull])).
Proof.
  intros Hceiling. split.
  - apply (reachable_invariant config URL _ (fun _ => True)).
    + intros files. exact Hceiling.
    + intros now e. apply withinCeiling_handle.
  - intros st now rnd remoteAddress agent Hfull.
    unfold onConnection, bind, getState; simpl.
    destruct (Z.geb_spec (Z.of_nat (JsMap.size (wsConnections st)))
                (websocket_maxConnections config)); [reflexivity|lia].
Qed.

Lemma connections_within_ceiling_witness :
  0 <= websocket_maxConnections Scenario.single /\
  withinCeiling Scenario.single Scenario.full /\
  onConnection Scenario.single 1500 (lit "m4n5b6v7c") (lit "10.0.0.8")
    (lit "curl/8.5") Scenario.full =
  (tt, Scenario.full, [Reject 1008 Text.serverFull]).
Proof.
  assert (Hceiling : 0 <= websocket_maxConnections Scenario.single)
    by (simpl; lia).
  destruct (connections_within_ceiling Scenario.single Scenario.URL Hceiling)
    as [Hbound Hreject].
  split; [exact Hceiling|]. split.
  - apply Hbound.
    exact (reachable_run Scenario.single Scenario.URL [Scenario.connects]
             (initialState []) (reachable_initial [])).
  - apply Hreject. simpl. lia.
Defined.

(** ** The forced kill *)

Section ForcedKill.

Variable config : Config.
Variable URL : jsstring -> option Url.

Local Abbreviation quiet := (safe noPendingTimer notForcedKill).

Lemma noPendingTimer_streams f st :
  noPendingTimer st -> noPendingTimer (with_activeStreams f st).
Proof. easy. Qed.

Lemma noPendingTimer_disk f st :
  noPendingTimer st -> noPendingTimer (with_disk f st).
Proof. easy. Qed.

Lemma noPendingTimer_clear t st :
  noPendingTimer st -> noPendingTimer (stateOf (clearTimeout t st)).
Proof. unfold noPendingTimer; simpl. now intros ->. Qed.

Lemma quiet_cleanupStream streamId : quiet (cleanupStream config streamId).
Proof.
  apply safe_cleanupStream;
    auto using noPendingTimer_streams, noPendingTimer_disk,
      noPendingTimer_clear.
Qed.

(** [cleanupStream] on a stream whose timer is the only one pending
    clears it. *)
Lemma cleanupStream_clears_timer st streamId info t :
  JsMap.get streamId (activeStreams st) = Some info ->
  timeoutId info = Some t ->
  timers st = [(t, streamId)] ->
  noPendingTimer (stateOf (cleanupStream config streamId st)) /\
  Forall notForcedKill (effectsOf (cleanupStream config streamId st)).
Proof.
  intros Hget Htimer Hpending.
  unfold cleanupStream. rewrite bind_getState, Hget, Htimer.
  apply (safe_bind_at noPendingTimer notForcedKill).
  - unfold bind, clearTimeout, modify, noPendingTimer; simpl.
    rewrite Hpending; simpl. rewrite Nat.eqb_refl; simpl.
    split; [reflexivity|repeat constructor].
  - intros _.
    apply safe_bind; [now apply safe_modify_streams|]. intros _.
    apply safe_bind; [now apply safe_readdirSync|]. intros files.
    apply safe_bind; [|intros _; apply safe_ret].
    apply safe_unlinkStartingWith; auto using noPendingTimer_disk.
Qed.

(** Arming the timer of a stream and cleaning the stream up, as
    [stopRtspStream] does for the last viewer. *)
Lemma arm_then_cleanup cmd streamId info :
  quiet (bind (bind (emit (Kill cmd SIGTERM)) (fun _ =>
                 bind (setTimeout streamId 5000) (fun t =>
                   modify (with_activeStreams
                             (JsMap.set streamId
                                (setTimeoutId (Some t) info))))))
           (fun _ => cleanupStream config streamId)).
Proof.
  intros st HI. unfold bind, emit, setTimeout, modify; simpl.
  match goal with
  | |- context [cleanupStream config streamId ?st3] =>
      pose proof (cleanupStream_clears_timer st3 streamId
                    (setTimeoutId (Some (nextTimer st)) info)
                    (nextTimer st)) as Hclean;
      destruct (cleanupStream config streamId st3) as [[u st4] fx4]
  end.
  destruct Hclean as [HI3 HP3].
  - apply JsMapFacts.get_set_eq.
  - reflexivity.
  - simpl. now rewrite HI.
  - split; [exact HI3|]. repeat constructor. exact HP3.
Qed.

(** The timer that [stopRtspStream] arms is cleared before it
    returns. *)
Lemma quiet_stopRtspStream streamId connectionId :
  quiet (stopRtspStream config streamId connectionId).
Proof.
  unfold stopRtspStream. apply safe_bind; [apply safe_get|]. intros st.
  destruct (getStream streamId (activeStreams st)) as [[s info]|];
    [|now apply safe_sendError].
  apply safe_bind; [now apply safe_modify_streams|]. intros _.
  apply safe_bind; [|intros _; now apply safe_sendMessage].
  destruct (Nat.eqb _ 0); [|now apply safe_modify_streams].
  destruct (command _) as [cmd|].
  - apply arm_then_cleanup.
  - apply safe_bind; [apply safe_ret|].
    intros _. apply quiet_cleanupStream.
Qed.

Lemma quiet_onConnection now rnd remoteAddress agent :
  quiet (onConnection config now rnd remoteAddress agent).
Proof.
  intros st HI. unfold onConnection, bind, getState; simpl.
  destruct (_ >=? _); simpl; (split; [exact HI|repeat constructor]).
Qed.

(** With no timer pending, a timer event finds no callback to run. *)
Lemma quiet_fire timer : quiet (fire config timer).
Proof.
  intros st HI. unfold fire, bind, getState; simpl.
  rewrite HI; simpl. split; [exact HI|constructor].
Qed.

Lemma quiet_handle now e : quiet (handle config URL now e).
Proof.
  apply safe_handle;
    auto using noPendingTimer_streams, noPendingTimer_disk,
      noPendingTimer_clear, quiet_stopRtspStream, quiet_onConnection,
      quiet_fire.
Qed.

(** No reachable state has a forced-kill timer pending. *)
Lemma reachable_noPendingTimer st :
  reachable config URL st -> noPendingTimer st.
Proof.
  apply (reachable_invariant config URL _ notForcedKill).
  - reflexivity.
  - apply quiet_handle.
Qed.

(** No run of the server ever sends [SIGKILL]. *)
Lemma run_never_forces events st :
  reachable config URL st ->
  Forall notForcedKill (effectsOf (run config URL events st)).
Proof.
  revert st. induction events as [|[now e] events IH]; intros st Hst.
  - constructor.
  - rewrite run_cons.
    pose proof (reachable_handle st now e Hst) as Hstep.
    pose proof (quiet_handle now e st (reachable_noPendingTimer st Hst))
      as [_ Hfx].
    destruct (handle config URL now e st) as [[u st1] fx1].
    specialize (IH st1 Hstep).
    destruct (run config URL events st1) as [[u2 st2] fx2].
    apply Forall_app. split; assumption.
Qed.

End ForcedKill.

(** C1. The claim fails on the code: Alice, the only viewer, stops her
    stream and the process never confirms its exit.  [stopRtspStream]
    sends [SIGTERM] and arms the five-second timer, and the
    [cleanupStream] call that follows at once clears that timer and
    removes the stream, so that nothing is pending afterwards; when the
    five seconds have passed no callback runs and no [SIGKILL] is
    sent. *)
Theorem last_viewer_stop_sends_no_SIGKILL :
  let afterStop := run Scenario.config Scenario.URL [Scenario.stops]
                     Scenario.watching in
  let later := run Scenario.config Scenario.URL [(8000, Timeout 0)]
                 (stateOf afterStop) in
  JsMap.get Scenario.stream (activeStreams Scenario.watching)
  = Some {| command := Some 0%nat; connections := [Scenario.alice];
            rtspUrl := Scenario.camera; startTime := 2000;
            timeoutId := None |} /\
  effectsOf afterStop =
    [Kill 0 SIGTERM; SetTimeout 0 5000; ClearTimeout 0;
     Readdir Scenario.streams; Unlink (file_path Scenario.playlist);
     Send Scenario.alice (streamStopped Scenario.stream)] /\
  timers (stateOf afterStop) = [] /\
  effectsOf later = [] /\
  stateOf later = stateOf afterStop.
Proof. vm_compute. repeat split; reflexivity. Qed.

(** ** Purging the artifacts of a stream *)

(** C2. The claim fails on the code: with the playlist and two segments
    of the stream on disk, all deletable, [cleanupStream] deletes the
    playlist only.  It looks for names that start with the stream id
    followed by a dot; the segments, one named [<streamId>-0.ts] as the
    segment route names it and one named [<streamId>0.ts] as ffmpeg
    names it, start with the stream id and stay on disk. *)
Theorem cleanupStream_leaves_segment :
  let r := cleanupStream Scenario.config Scenario.stream Scenario.watching in
  disk Scenario.watching
  = [Scenario.secret; Scenario.playlist; Scenario.segment; Scenario.chunk] /\
  startsWith Scenario.stream (Scenario.stream_name Scenario.playlist) = true /\
  startsWith Scenario.stream (Scenario.stream_name Scenario.segment) = true /\
  startsWith Scenario.stream (Scenario.stream_name Scenario.chunk) = true /\
  effectsOf r
  = [Readdir Scenario.streams; Unlink (file_path Scenario.playlist)] /\
  activeStreams (stateOf r) = [] /\
  disk (stateOf r) = [Scenario.secret; Scenario.segment; Scenario.chunk].
Proof. vm_compute. repeat split; reflexivity. Qed.

(** ** Connections that go away *)

(** C5. The claim fails on the code for two of the three causes.  Alice
    watches her stream.  When her socket reports an error, the [error]
    handler removes her from [wsConnections] and leaves her id in the
    viewer list of the stream; when she has been silent for more than
    two heartbeat intervals, [checkConnections] terminates her socket,
    removes her from [wsConnections] and leaves her id in the viewer
    list as well.  Only the [close] handler detaches her, which here
    stops the stream. *)
Theorem error_and_timeout_leave_viewer :
  let watched :=
    [(Scenario.stream,
      {| command := Some 0%nat; connections := [Scenario.alice];
         rtspUrl := Scenario.camera; startTime := 2000;
         timeoutId := None |})] in
  let afterError := run Scenario.config Scenario.URL
                      [(2600, WsError Scenario.alice)] Scenario.watching in
  let afterSweep := run Scenario.config Scenario.URL
                      [(70000, Heartbeat)] Scenario.watching in
  let afterClose := run Scenario.config Scenario.URL
                      [(2600, WsClose Scenario.alice)] Scenario.watching in
  activeStreams Scenario.watching = watched /\
  (wsConnections (stateOf afterError) = [] /\
   activeStreams (stateOf afterError) = watched /\
   effectsOf afterError = []) /\
  (wsConnections (stateOf afterSweep) = [] /\
   activeStreams (stateOf afterSweep) = watched /\
   effectsOf afterSweep = [Terminate Scenario.alice]) /\
  (wsConnections (stateOf afterClose) = [] /\
   activeStreams (stateOf afterClose) = [] /\
   In (Kill 0 SIGTERM) (effectsOf afterClose)).
Proof. vm_compute. repeat split; try reflexivity. now left. Qed.

(** ** Starting a stream *)

(** C6, the claim as stated fails: building the ffmpeg command throws
    for Alice's valid request, and she has already been sent
    [streamStarted] when the error frame follows; no stream is
    registered and no command exists.  The same holds when the command is
    built and the process then fails to start: the [error] event finds
    her notified already. *)
Lemma started_is_sent_before_spawn_failure :
  let thrown := run Scenario.config Scenario.URL [Scenario.startsAndThrows]
                  Scenario.connected in
  let failed := run Scenario.config Scenario.URL
                  [Scenario.starts;
                   (2100, FfmpegError 0 (lit "spawn ffmpeg ENOENT"))]
                  Scenario.connected in
  validateRtspUrl Scenario.URL (Some (JString Scenario.camera)) = Valid /\
  (effectsOf thrown = [Send Scenario.alice (streamStarted Scenario.stream);
                       EnsureDir Scenario.streams;
                       Send Scenario.alice (error Text.startFailed)] /\
   activeStreams (stateOf thrown) = [] /\
   handlers (stateOf thrown) = []) /\
  (effectsOf failed = [Send Scenario.alice (streamStarted Scenario.stream);
                       EnsureDir Scenario.streams;
                       Save 0 Scenario.camera (file_path Scenario.playlist);
                       Send Scenario.alice
                         (error (Text.ffmpegError
                                 ++ lit "spawn ffmpeg ENOENT"));
                       Readdir Scenario.streams] /\
   activeStreams (stateOf failed) = []).
Proof. vm_compute. repeat split; reflexivity. Qed.

(** The [start] event of a command, its acknowledgment that the process
    runs, is logged and has no other consequence. *)
Lemma start_event_is_silent config URL now cmd commandLine st :
  handle config URL now (FfmpegStart cmd commandLine) st = (tt, st, []).
Proof. reflexivity. Qed.

(** C6, amended. For a start request whose address is valid,
    [streamStarted] is sent to the requester (when its socket is open)
    as soon as the address has passed validation, before the ffmpeg
    command is created.  If creating the command throws, the state is
    unchanged, so that no stream is registered, and the error frame
    "start of transcoding failed" follows.  Otherwise the command is
    created next and the stream is registered with the requester as its
    only viewer. *)
Theorem startRtspStream_valid_address
  (config : Config) (URL : jsstring -> option Url) (st : State)
  (now : Z) (rnd : jsstring) (throws : bool)
  (rtspUrl : option json) (connectionId : jsstring) :
  validateRtspUrl URL rtspUrl = Valid ->
  let streamId := generateStreamId now rnd connectionId in
  let started := (if canReceive st connectionId
                  then [Send connectionId (streamStarted streamId)] else [])
                 ++ [EnsureDir (streams_directory config)] in
  let r := startRtspStream config URL now rnd throws rtspUrl connectionId st in
  if throws then
    stateOf r = st /\
    effectsOf r =
      started ++ (if canReceive st connectionId
                  then [Send connectionId (error Text.startFailed)] else [])
  else
    let cmd := List.length (handlers st) in
    effectsOf r =
      started ++ [Save cmd (stringOf rtspUrl)
                    (path_join (streams_directory config)
                       (streamId ++ lit ".m3u8"))] /\
    activeStreams (stateOf r) =
      JsMap.set streamId
        {| command := Some cmd; connections := [connectionId];
           rtspUrl := stringOf rtspUrl; startTime := now;
           timeoutId := None |} (activeStreams st) /\
    handlers (stateOf r) = handlers st ++ [(streamId, connectionId)] /\
    wsConnections (stateOf r) = wsConnections st /\
    timers (stateOf r) = timers st /\
    disk (stateOf r) = disk st.
Proof.
  intros Hvalid. unfold startRtspStream. rewrite Hvalid.
  unfold bind, emit, save, modify. rewrite sendMessage_spec.
  destruct throws; [rewrite sendError_spec|];
    destruct (canReceive st connectionId); simpl; repeat split; reflexivity.
Qed.

Lemma startRtspStream_valid_address_witness :
  let request := Some (JString Scenario.camera) in
  validateRtspUrl Scenario.URL request = Valid /\
  stateOf (startRtspStream Scenario.config Scenario.URL 2000
             (lit "p0o9i8u7y") true request Scenario.alice
             Scenario.connected) = Scenario.connected /\
  effectsOf (startRtspStream Scenario.config Scenario.URL 2000
               (lit "p0o9i8u7y") true request Scenario.alice
               Scenario.connected) =
  ((if canReceive Scenario.connected Scenario.alice
    then [Send Scenario.alice (streamStarted Scenario.stream)] else [])
   ++ [EnsureDir Scenario.streams])
  ++ (if canReceive Scenario.connected Scenario.alice
      then [Send Scenario.alice (error Text.startFailed)] else []).
Proof.
  split; [reflexivity|].
  exact (startRtspStream_valid_address Scenario.config Scenario.URL
           Scenario.connected 2000 (lit "p0o9i8u7y") true
           (Some (JString Scenario.camera)) Scenario.alice eq_refl).
Defined.

(** ** The segment route *)

Lemma splitOn_plain (sep : N) (s : jsstring) :
  existsb (N.eqb sep) s = false -> splitOn sep s = [s].
Proof.
  induction s as [|c s IH]; simpl; [reflexivity|].
  rewrite orb_false_iff. intros [Hc Hs].
  rewrite N.eqb_sym, Hc, (IH Hs). reflexivity.
Qed.

Lemma normalizeOnto_normalized (acc parts : list jsstring) :
  isNormalized parts = true -> normalizeOnto acc parts = rev acc ++ parts.
Proof.
  revert acc. induction parts as [|p parts IH]; intros acc; simpl.
  - intros _. now rewrite app_nil_r.
  - rewrite andb_true_iff, negb_true_iff, !orb_false_iff.
    intros [[[Hempty Hdot] Hdots] Hparts].
    rewrite Hempty, Hdot, Hdots; simpl.
    rewrite (IH (p :: acc) Hparts); simpl. now rewrite <- app_assoc.
Qed.

Lemma isNormalized_app (p q : path) :
  isNormalized (p ++ q) = isNormalized p && isNormalized q.
Proof. apply forallb_app. Qed.

(** A name with a hyphen in it is neither empty, [.] nor [..]. *)
Lemma hyphenated_is_normal (a b : jsstring) :
  isNormalized [a ++ lit "-" ++ b] = true.
Proof.
  assert (Hin : In 0x2D%N (a ++ lit "-" ++ b))
    by (apply in_or_app; right; now left).
  unfold isNormalized. cbn [forallb].
  rewrite andb_true_r, negb_true_iff, !orb_false_iff.
  repeat split; apply str_eqb_neq; intros Heq; rewrite Heq in Hin;
    simpl in Hin; intuition discriminate.
Qed.

Lemma isBelow_child (dir : path) (name : jsstring) :
  isBelow dir (dir ++ [name]) = true.
Proof.
  induction dir as [|d dir IH]; simpl; [reflexivity|].
  now rewrite str_eqb_refl.
Qed.




(** ** Liveness *)

Section Sweep.

Variable now timeout : Z.

Local Abbreviation sweep ks :=
  (forEachKey wsConnections ks (checkConnection now timeout)).

Local Ltac destruct_rest ks :=
  match goal with
  | |- context [forEachKey wsConnections ks _ ?s] =>
      destruct (forEachKey wsConnections ks (checkConnection now timeout) s)
        as [[?u ?st2] ?fx2]
  end.

Lemma sweep_cons k0 ks st :
  sweep (k0 :: ks) st =
  match JsMap.get k0 (wsConnections st) with
  | Some c0 =>
      if now - lastPing c0 >? timeout then
        let '(u, st2, fx2) :=
          sweep ks (with_wsConnections (JsMap.delete k0) st) in
        (u, st2, Terminate k0 :: fx2)
      else
        let '(u, st2, fx2) := sweep ks st in
        (u, st2,
         (if isOpen (readyState c0) then [Send k0 ping] else []) ++ fx2)
  | None => sweep ks st
  end.
Proof.
  cbn [forEachKey]. rewrite bind_getState.
  destruct (JsMap.get k0 (wsConnections st)) as [c0|] eqn:Hget.
  - unfold checkConnection.
    destruct (now - lastPing c0 >? timeout).
    + unfold bind, emit, modify. now destruct_rest ks.
    + unfold bind. rewrite sendMessage_spec.
      unfold canReceive. rewrite Hget.
      now destruct (sweep ks st) as [[u st2] fx2].
  - now rewrite bind_ret.
Qed.

(** The sweep removes no entry that is not overdue and adds none. *)
Lemma sweep_frame ks st k :
  match JsMap.get k (wsConnections st) with
  | Some c =>
      now - lastPing c <= timeout ->
      JsMap.get k (wsConnections (stateOf (sweep ks st))) = Some c
  | None => JsMap.get k (wsConnections (stateOf (sweep ks st))) = None
  end.
Proof.
  revert st. induction ks as [|k0 ks IH]; intros st.
  - unfold stateOf; simpl.
    destruct (JsMap.get k (wsConnections st)); auto.
  - rewrite sweep_cons.
    destruct (JsMap.get k0 (wsConnections st)) as [c0|] eqn:Hget0;
      [|apply IH].
    destruct (Z.gtb_spec (now - lastPing c0) timeout) as [Hlate|Hfresh].
    + specialize (IH (with_wsConnections (JsMap.delete k0) st)).
      destruct_rest ks. simpl in IH |- *.
      destruct (str_eqb k k0) eqn:Hk.
      * apply str_eqb_eq in Hk; subst k0.
        rewrite JsMapFacts.get_delete_eq in IH. rewrite Hget0. lia.
      * apply str_eqb_neq in Hk.
        now rewrite (JsMapFacts.get_delete_ne _ _ _ Hk) in IH.
    + specialize (IH st). now destruct (sweep ks st) as [[u st2] fx2].
Qed.

(** What the sweep does to an entry on its list. *)
Lemma sweep_entry ks st k c :
  In k ks ->
  JsMap.get k (wsConnections st) = Some c ->
  (timeout < now - lastPing c ->
     JsMap.get k (wsConnections (stateOf (sweep ks st))) = None /\
     In (Terminate k) (effectsOf (sweep ks st))) /\
  (now - lastPing c <= timeout ->
     JsMap.get k (wsConnections (stateOf (sweep ks st))) = Some c /\
     (isOpen (readyState c) = true ->
      In (Send k ping) (effectsOf (sweep ks st)))).
Proof.
  revert st. induction ks as [|k0 ks IH]; intros st Hin Hget; [easy|].
  pose proof (sweep_frame (k0 :: ks) st k) as Hframe.
  rewrite Hget in Hframe.
  rewrite sweep_cons in *.
  destruct (str_eqb k k0) eqn:Hk.
  - apply str_eqb_eq in Hk; subst k0. rewrite Hget in *.
    destruct (Z.gtb_spec (now - lastPing c) timeout) as [Hlate|Hfresh].
    + pose proof (sweep_frame ks
                    (with_wsConnections (JsMap.delete k) st) k) as Hgone.
      simpl in Hgone. rewrite JsMapFacts.get_delete_eq in Hgone.
      destruct_rest ks.
      split; [intros _|lia]. split; [exact Hgone|now left].
    + destruct (sweep ks st) as [[u st2] fx2].
      split; [lia|intros _]. split; [now apply Hframe|].
      intros Hopen. rewrite Hopen. now left.
  - apply str_eqb_neq in Hk.
    destruct Hin as [Heq|Hin]; [congruence|].
    destruct (JsMap.get k0 (wsConnections st)) as [c0|]; [|now apply IH].
    destruct (now - lastPing c0 >? timeout).
    + specialize (IH (with_wsConnections (JsMap.delete k0) st) Hin).
      simpl in IH. rewrite (JsMapFacts.get_delete_ne _ _ _ Hk) in IH.
      specialize (IH Hget).
      destruct_rest ks.
      destruct IH as [IHlate IHfresh].
      split; intros Hc; [destruct (IHlate Hc)|destruct (IHfresh Hc)];
        split; auto; simpl; auto.
    + specialize (IH st Hin Hget).
      destruct (sweep ks st) as [[u st2] fx2].
      destruct IH as [IHlate IHfresh].
      split; intros Hc; [destruct (IHlate Hc)|destruct (IHfresh Hc)];
        split; auto; simpl; intros; apply in_or_app; right; auto.
Qed.

End Sweep.

(** Handling a request leaves the connection table alone. *)
Lemma dispatch_wsConnections config URL now rnd throws connectionId data st :
  wsConnections
    (stateOf (dispatch config URL now rnd throws connectionId data st))
  = wsConnections st.
Proof.
  set (I := fun s => wsConnections s = wsConnections st).
  assert (Hstreams : forall f s, I s -> I (with_activeStreams f s)) by easy.
  assert (Hdisk : forall f s, I s -> I (with_disk f s)) by easy.
  assert (Hclear : forall t s, I s -> I (stateOf (clearTimeout t s))) by easy.
  assert (Hsave : forall i o x c s, I s -> I (stateOf (save i o x c s)))
    by easy.
  assert (Hset : forall x ms s, I s -> I (stateOf (setTimeout x ms s)))
    by easy.
  assert (Hany : forall e, notForcedKill e -> (fun _ : Effect => True) e)
    by easy.
  assert (Hsafe : safe I (fun _ => True)
                    (dispatch config URL now rnd throws connectionId data)).
  { apply safe_dispatch; auto.
    intros. apply safe_stopRtspStream; auto. }
  exact (proj1 (Hsafe st eq_refl)).
Qed.

(** A message that parses to a value other than [null] stamps the
    sender's entry with the time of arrival, whatever it asks for. *)
Lemma handleWebSocketMessage_refreshes
  config URL now rnd throws connectionId data clientInfo st :
  data <> JNull ->
  JsMap.get connectionId (wsConnections st) = Some clientInfo ->
  let r := handleWebSocketMessage config URL now rnd throws connectionId
             (Some data) st in
  valueOf r = Returned /\
  wsConnections (stateOf r) =
  JsMap.set connectionId (setLastPing now clientInfo) (wsConnections st).
Proof.
  intros Hdata Hget.
  assert (Hgeneric :
    let r := bind getState (fun st =>
               bind (match JsMap.get connectionId (wsConnections st) with
                     | Some clientInfo =>
                         modify (with_wsConnections
                                   (JsMap.set connectionId
                                      (setLastPing now clientInfo)))
                     | None => ret tt
                     end)
                 (fun _ =>
                    bind (dispatch config URL now rnd throws connectionId data)
                      (fun _ => ret Returned))) st in
    valueOf r = Returned /\
    wsConnections (stateOf r) =
    JsMap.set connectionId (setLastPing now clientInfo) (wsConnections st)).
  { rewrite bind_getState, Hget, bind_modify. unfold bind.
    pose proof (dispatch_wsConnections config URL now rnd throws connectionId
                  data
                  (with_wsConnections
                     (JsMap.set connectionId (setLastPing now clientInfo)) st))
      as Hkeep.
    destruct (dispatch _ _ _ _ _ _ _ _) as [[u st1] fx1].
    split; [reflexivity|exact Hkeep]. }
  destruct data; try exact Hgeneric. congruence.
Qed.

(** C10, the claim as stated fails.  Alice's socket has begun to close:
    at the sweep she is not overdue, and she is neither closed nor sent a
    probe, for [sendMessage] writes to open sockets only.  And a message
    of hers that [JSON.parse] rejects is answered with an error frame and
    leaves her activity timestamp where it was. *)
Lemma sweep_skips_closing_socket_and_bad_payload_keeps_timestamp :
  let idle := {| id := Scenario.alice; readyState := CLOSING;
                 ip := lit "10.0.0.7"; userAgent := lit "Mozilla/5.0";
                 connectTime := 1000; lastPing := 2000 |} in
  let busy := {| id := Scenario.alice; readyState := OPEN;
                 ip := lit "10.0.0.7"; userAgent := lit "Mozilla/5.0";
                 connectTime := 1000; lastPing := 2000 |} in
  (wsConnections Scenario.closing = [(Scenario.alice, idle)] /\
   2500 - lastPing idle <= websocket_heartbeatInterval Scenario.config * 2 /\
   checkConnections Scenario.config 2500 Scenario.closing
   = (tt, Scenario.closing, [])) /\
  (wsConnections Scenario.watching = [(Scenario.alice, busy)] /\
   onMessage Scenario.config Scenario.URL 9000 [] false Scenario.alice None
     Scenario.watching
   = (tt, Scenario.watching,
      [Send Scenario.alice (error Text.handlingFailed)])).
Proof.
  vm_compute. repeat split; try reflexivity. discriminate.
Qed.

(** C10, amended. On a liveness sweep, every connection of the table
    whose last activity lies more than twice the heartbeat interval back
    has its socket terminated and is removed from the table; every other
    connection stays as it was and, if its socket is open, is sent a
    [ping].  And every inbound message whose payload parses to a value
    other than [null], whatever its kind (a [pong], a request, an unknown
    type), sets the sender's activity timestamp to the time of
    arrival. *)
Theorem liveness_sweep_and_refresh
  (config : Config) (URL : jsstring -> option Url) (st : State) (now : Z)
  (connectionId : jsstring) (clientInfo : ClientInfo) :
  JsMap.get connectionId (wsConnections st) = Some clientInfo ->
  let swept := checkConnections config now st in
  (websocket_heartbeatInterval config * 2 < now - lastPing clientInfo ->
     In (Terminate connectionId) (effectsOf swept) /\
     JsMap.get connectionId (wsConnections (stateOf swept)) = None) /\
  (now - lastPing clientInfo <= websocket_heartbeatInterval config * 2 ->
     JsMap.get connectionId (wsConnections (stateOf swept)) = Some clientInfo /\
     (readyState clientInfo = OPEN ->
      In (Send connectionId ping) (effectsOf swept))) /\
  (forall rnd throws data,
     data <> JNull ->
     let r := handleWebSocketMessage config URL now rnd throws connectionId
                (Some data) st in
     valueOf r = Returned /\
     option_map lastPing
       (JsMap.get connectionId (wsConnections (stateOf r))) = Some now).
Proof.
  intros Hget swept.
  assert (Hswept : swept =
            forEachKey wsConnections (JsMap.keys (wsConnections st))
              (checkConnection now (websocket_heartbeatInterval config * 2))
              st).
  { unfold swept, checkConnections, forEach. now rewrite bind_getState. }
  destruct (sweep_entry now (websocket_heartbeatInterval config * 2)
              (JsMap.keys (wsConnections st)) st connectionId clientInfo
              (JsMapFacts.get_Some_key _ _ _ Hget) Hget) as [Hlate Hfresh].
  rewrite <- Hswept in Hlate, Hfresh.
  split; [|split].
  - intros Hc. destruct (Hlate Hc). now split.
  - intros Hc. destruct (Hfresh Hc) as [Hkept Hprobe].
    split; [exact Hkept|]. intros Hopen. apply Hprobe. now rewrite Hopen.
  - intros rnd throws data Hdata r.
    destruct (handleWebSocketMessage_refreshes config URL now rnd throws
                connectionId data clientInfo st Hdata Hget) as [Hret Hws].
    fold r in Hret, Hws. split; [exact Hret|].
    rewrite Hws, JsMapFacts.get_set_eq. reflexivity.
Qed.

Lemma liveness_sweep_and_refresh_witness :
  let swept := checkConnections Scenario.config 70000 Scenario.watching in
  JsMap.get Scenario.alice (wsConnections Scenario.watching)
  = Some Scenario.viewer /\
  websocket_heartbeatInterval Scenario.config * 2
  < 70000 - lastPing Scenario.viewer /\
  In (Terminate Scenario.alice) (effectsOf swept) /\
  JsMap.get Scenario.alice (wsConnections (stateOf swept)) = None.
Proof.
  split; [reflexivity|]. split; [reflexivity|].
  exact (proj1 (liveness_sweep_and_refresh Scenario.config Scenario.URL
                  Scenario.watching 70000 Scenario.alice Scenario.viewer
                  eq_refl) eq_refl).
Defined.

(** ** The [close] handler detaches the viewer *)

Section Detaching.

Variable config : Config.

(** The part of [cleanupStream] that deletes files leaves the stream
    table alone. *)
Lemma purge_activeStreams prefix st :
  activeStreams
    (stateOf (bind (readdirSync (streams_directory config)) (fun files =>
                bind (unlinkStartingWith config prefix files)
                  (fun _ => ret tt)) st))
  = activeStreams st.
Proof.
  set (I := fun s => activeStreams s = activeStreams st).
  assert (Hdisk : forall f s, I s -> I (with_disk f s)) by easy.
  assert (Hsafe : safe I (fun _ => True)
            (bind (readdirSync (streams_directory config)) (fun files =>
               bind (unlinkStartingWith config prefix files)
                 (fun _ => ret tt)))).
  { apply safe_bind; [now apply safe_readdirSync|]. intros files.
    apply safe_bind; [now apply safe_unlinkStartingWith|].
    intros _. apply safe_ret. }
  exact (proj1 (Hsafe st eq_refl)).
Qed.

Lemma cleanupStream_activeStreams streamId st k :
  JsMap.get k (activeStreams (stateOf (cleanupStream config streamId st)))
  = if str_eqb k streamId then None else JsMap.get k (activeStreams st).
Proof.
  unfold cleanupStream. rewrite bind_getState.
  assert (Hdeleted : forall m : JsMap.t StreamInfo,
            (forall k', k' <> streamId ->
                        JsMap.get k' m = JsMap.get k' (activeStreams st)) ->
            JsMap.get k (JsMap.delete streamId m)
            = if str_eqb k streamId then None
              else JsMap.get k (activeStreams st)).
  { intros m Hm. destruct (str_eqb k streamId) eqn:Hk.
    - apply str_eqb_eq in Hk; subst k. apply JsMapFacts.get_delete_eq.
    - apply str_eqb_neq in Hk.
      now rewrite (JsMapFacts.get_delete_ne _ _ _ Hk), (Hm k Hk). }
  destruct (JsMap.get streamId (activeStreams st)) as [info|].
  - destruct (timeoutId info) as [t|].
    + rewrite bind_assoc. unfold bind at 1. unfold clearTimeout.
      rewrite bind_modify, bind_modify.
      match goal with
      | |- context [bind (readdirSync _) _ ?s] =>
          pose proof (purge_activeStreams (streamId ++ lit ".") s) as Hp
      end.
      match type of Hp with
      | activeStreams (stateOf ?r) = _ => destruct r as [[u st2] fx2]
      end.
      unfold stateOf in *. simpl in Hp |- *. rewrite Hp. apply Hdeleted.
      intros k' Hk'. now apply JsMapFacts.get_set_ne.
    + rewrite bind_ret, bind_modify, purge_activeStreams. simpl.
      now apply Hdeleted.
  - rewrite bind_ret, bind_modify, purge_activeStreams. simpl.
    now apply Hdeleted.
Qed.

Lemma stopRtspStream_activeStreams streamId connectionId st k :
  JsMap.get k
    (activeStreams
       (stateOf (stopRtspStream config (Some (JString streamId))
                   connectionId st)))
  = if str_eqb k streamId then
      match JsMap.get streamId (activeStreams st) with
      | Some info =>
          let viewers := filter (fun id => negb (str_eqb id connectionId))
                           (connections info) in
          if Nat.eqb (List.length viewers) 0 then None
          else Some (setConnections viewers info)
      | None => None
      end
    else JsMap.get k (activeStreams st).
Proof.
  unfold stopRtspStream. rewrite bind_getState. unfold getStream.
  destruct (JsMap.get streamId (activeStreams st)) as [info|] eqn:Hget.
  - rewrite bind_modify, stateOf_bind, sendMessage_spec.
    unfold stateOf at 1; simpl fst; simpl snd.
    set (info' := setConnections _ info).
    change (connections info')
      with (filter (fun id => negb (str_eqb id connectionId))
              (connections info)).
    destruct (Nat.eqb _ 0).
    + rewrite stateOf_bind, cleanupStream_activeStreams.
      destruct (str_eqb k streamId) eqn:Hk; [reflexivity|].
      apply str_eqb_neq in Hk.
      change (command info') with (command info).
      destruct (command info) as [cmd|].
      * unfold bind, emit, setTimeout, modify, stateOf; simpl.
        now rewrite !(JsMapFacts.get_set_ne _ _ _ _ Hk).
      * unfold ret, stateOf; simpl.
        now rewrite (JsMapFacts.get_set_ne _ _ _ _ Hk).
    + unfold modify, stateOf; simpl.
      destruct (str_eqb k streamId) eqn:Hk.
      * apply str_eqb_eq in Hk; subst k. apply JsMapFacts.get_set_eq.
      * apply str_eqb_neq in Hk.
        now rewrite !(JsMapFacts.get_set_ne _ _ _ _ Hk).
  - rewrite sendError_spec. unfold stateOf; simpl.
    destruct (str_eqb k streamId) eqn:Hk; [|reflexivity].
    apply str_eqb_eq in Hk. now subst k.
Qed.

Variable connectionId : jsstring.

(** The callback of the [forEach] of [handleWebSocketClose]. *)
Local Abbreviation detach :=
  (fun (streamInfo : StreamInfo) (streamId : jsstring) =>
     when (existsb (str_eqb connectionId) (connections streamInfo))
       (stopRtspStream config (Some (JString streamId)) connectionId)).

Local Abbreviation freeOf st k :=
  (match JsMap.get k (activeStreams st) with
   | Some info => ~ In connectionId (connections info)
   | None => True
   end).

Lemma not_In_filtered (l : list jsstring) :
  ~ In connectionId (filter (fun id => negb (str_eqb id connectionId)) l).
Proof.
  rewrite filter_In, str_eqb_refl. now intros [_ H].
Qed.

Lemma detach_one st k0 v :
  JsMap.get k0 (activeStreams st) = Some v ->
  freeOf (stateOf (detach v k0 st)) k0 /\
  forall k, k <> k0 ->
    JsMap.get k (activeStreams (stateOf (detach v k0 st)))
    = JsMap.get k (activeStreams st).
Proof.
  intros Hget.
  cbv beta. unfold when.
  destruct (existsb (str_eqb connectionId) (connections v)) eqn:Hviewer.
  - split.
    + rewrite stopRtspStream_activeStreams, str_eqb_refl, Hget. cbv zeta.
      destruct (Nat.eqb _ 0); [exact I|]. simpl. apply not_In_filtered.
    + intros k Hk. rewrite stopRtspStream_activeStreams.
      apply str_eqb_neq in Hk. now rewrite Hk.
  - unfold ret, stateOf; simpl. rewrite Hget. split; [|reflexivity].
    intros Hin.
    assert (existsb (str_eqb connectionId) (connections v) = true);
      [|congruence].
    apply existsb_exists. exists connectionId.
    split; [exact Hin|apply str_eqb_refl].
Qed.

Lemma detach_loop ks st :
  let st' := stateOf (forEachKey activeStreams ks detach st) in
  (forall k, In k ks -> freeOf st' k) /\
  (forall k, freeOf st k -> freeOf st' k) /\
  (forall k, JsMap.get k (activeStreams st) = None ->
             JsMap.get k (activeStreams st') = None).
Proof.
  revert st. induction ks as [|k0 ks IH]; intros st.
  - unfold stateOf; simpl. repeat split; auto. intros k [].
  - cbn [forEachKey]. rewrite bind_getState, stateOf_bind. cbv zeta.
    set (s1 := stateOf (match JsMap.get k0 (activeStreams st) with
                        | Some v => detach v k0
                        | None => ret tt
                        end st)).
    destruct (IH s1) as [IHvisited [IHfree IHabsent]].
    assert (Hstep : freeOf s1 k0 /\
              forall k, k <> k0 ->
                JsMap.get k (activeStreams s1)
                = JsMap.get k (activeStreams st)).
    { unfold s1.
      destruct (JsMap.get k0 (activeStreams st)) as [v|] eqn:Hget0.
      - now apply detach_one.
      - unfold ret, stateOf; simpl. rewrite Hget0. now split. }
    destruct Hstep as [Hfree0 Hother].
    assert (Hkeep : forall k, freeOf st k -> freeOf s1 k).
    { intros k Hk. destruct (str_eqb k k0) eqn:E.
      - apply str_eqb_eq in E. now subst k.
      - apply str_eqb_neq in E. now rewrite (Hother k E). }
    assert (Hnone : forall k, JsMap.get k (activeStreams st) = None ->
                              JsMap.get k (activeStreams s1) = None).
    { intros k Hk. destruct (str_eqb k k0) eqn:E.
      - apply str_eqb_eq in E; subst k. unfold s1. rewrite Hk.
        unfold ret, stateOf; simpl. exact Hk.
      - apply str_eqb_neq in E. now rewrite (Hother k E). }
    split; [|split].
    + intros k [->|Hin]; [now apply IHfree|now apply IHvisited].
    + intros k Hk. now apply IHfree, Hkeep.
    + intros k Hk. now apply IHabsent, Hnone.
Qed.

(** When the [close] handler returns, the connection is in no table:
    it has no entry in [wsConnections] and no stream lists it as a
    viewer. *)
Lemma handleWebSocketClose_detaches st :
  let st' := stateOf (handleWebSocketClose config connectionId st) in
  JsMap.get connectionId (wsConnections st') = None /\
  detached connectionId st'.
Proof.
  unfold handleWebSocketClose. rewrite bind_modify.
  set (s0 := with_wsConnections (JsMap.delete connectionId) st).
  unfold forEach. rewrite bind_getState. split.
  - set (I := fun s => JsMap.get connectionId (wsConnections s) = None).
    assert (Hsafe : safe I (fun _ => True)
              (forEachKey activeStreams (JsMap.keys (activeStreams s0))
                 detach)).
    { apply safe_forEachKey. intros v k. apply safe_when.
      apply safe_stopRtspStream; easy. }
    apply (proj1 (Hsafe s0 (JsMapFacts.get_delete_eq _ _))).
  - intros streamId info Hget.
    destruct (detach_loop (JsMap.keys (activeStreams s0)) s0)
      as [Hvisited [_ Habsent]].
    destruct (JsMap.get streamId (activeStreams s0)) as [info0|] eqn:Hget0.
    + specialize (Hvisited streamId (JsMapFacts.get_Some_key _ _ _ Hget0)).
      now rewrite Hget in Hvisited.
    + specialize (Habsent streamId Hget0). congruence.
Qed.

End Detaching.

(** * More properties *)

(** ** Stopping a stream *)

Lemma set_same {V} (m : JsMap.t V) k v :
  JsMap.get k m = Some v -> JsMap.set k v m = m.
Proof.
  induction m as [|[k' v'] m IH]; simpl; [discriminate|].
  destruct (str_eqb k k') eqn:E.
  - apply str_eqb_eq in E. intros [= ->]. now subst k'.
  - intros H. now rewrite (IH H).
Qed.

Lemma get_None_keys {V} (m : JsMap.t V) k :
  JsMap.get k m = None -> ~ In k (JsMap.keys m).
Proof.
  induction m as [|[k' v'] m IH]; simpl; [tauto|].
  destruct (str_eqb k k') eqn:E; [discriminate|].
  apply str_eqb_neq in E. intros H [Heq|Hin]; [congruence|]. now apply IH.
Qed.

Lemma setConnections_same info :
  setConnections (connections info) info = info.
Proof. now destruct info. Qed.

Lemma filter_absent (c : jsstring) (l : list jsstring) :
  ~ In c l -> filter (fun id => negb (str_eqb id c)) l = l.
Proof.
  induction l as [|x l IH]; simpl; [reflexivity|].
  intros H. destruct (str_eqb x c) eqn:E.
  - apply str_eqb_eq in E. subst x. exfalso. apply H. now left.
  - simpl. rewrite IH; [reflexivity|]. intros Hin. apply H. now right.
Qed.

(** X1. A stop request from a connection that is not among the viewers
    of a registered stream changes nothing, sends no signal, and is
    acknowledged with [streamStopped] all the same. *)
Theorem stop_by_stranger_is_acknowledged
  (config : Config) (st : State) (streamId connectionId : jsstring)
  (info : StreamInfo) :
  JsMap.get streamId (activeStreams st) = Some info ->
  connections info <> [] ->
  ~ In connectionId (connections info) ->
  stopRtspStream config (Some (JString streamId)) connectionId st =
  (tt, st, if canReceive st connectionId
           then [Send connectionId (streamStopped streamId)] else []).
Proof.
  intros Hget Hviewers Hstranger.
  unfold stopRtspStream. rewrite bind_getState. unfold getStream.
  rewrite Hget, (filter_absent _ _ Hstranger), setConnections_same.
  rewrite bind_modify.
  assert (Hsame : with_activeStreams (JsMap.set streamId info) st = st).
  { destruct st as [streams ws ts nt hs d]. unfold with_activeStreams; simpl.
    simpl in Hget. now rewrite (set_same _ _ _ Hget). }
  rewrite Hsame.
  destruct (connections info) as [|v vs] eqn:Hvs; [congruence|].
  simpl Nat.eqb. cbv iota.
  unfold bind at 1. unfold modify. rewrite Hsame, sendMessage_spec.
  reflexivity.
Qed.

Lemma stop_by_stranger_is_acknowledged_witness :
  exists info,
    JsMap.get Scenario.stream (activeStreams Cases.both) = Some info /\
    connections info = [Scenario.alice] /\
    stopRtspStream Scenario.config (Some (JString Scenario.stream)) Cases.bob
      Cases.both =
    (tt, Cases.both, [Send Cases.bob (streamStopped Scenario.stream)]).
Proof.
  eexists. split; [reflexivity|]. split; [reflexivity|].
  apply (stop_by_stranger_is_acknowledged Scenario.config Cases.both
           Scenario.stream Cases.bob _ eq_refl).
  - discriminate.
  - simpl. intros [H|[]]. vm_compute in H. discriminate.
Defined.

Lemma effectsOf_bind {A B} (c : M A) (k : A -> M B) (st : State) :
  effectsOf (bind c k st) =
  effectsOf (c st) ++ effectsOf (k (valueOf (c st)) (stateOf (c st))).
Proof.
  unfold bind, effectsOf, stateOf, valueOf.
  destruct (c st) as [[a st1] fx1]; simpl.
  now destruct (k a st1) as [[b st2] fx2].
Qed.

Lemma stopRtspStream_wsConnections config streamId connectionId st :
  wsConnections (stateOf (stopRtspStream config streamId connectionId st))
  = wsConnections st.
Proof.
  set (I := fun s => wsConnections s = wsConnections st).
  assert (Hsafe : safe I (fun _ => True)
                    (stopRtspStream config streamId connectionId))
    by (apply safe_stopRtspStream; easy).
  exact (proj1 (Hsafe st eq_refl)).
Qed.

Lemma filter_all_gone (c : jsstring) (l : list jsstring) :
  (forall v, In v l -> v = c) ->
  filter (fun id => negb (str_eqb id c)) l = [].
Proof.
  induction l as [|x l IH]; simpl; [reflexivity|].
  intros H. rewrite (H x (or_introl eq_refl)), str_eqb_refl. simpl.
  apply IH. intros v Hv. apply H. now right.
Qed.

(** X2. When a connection stops a stream of which it is the only viewer,
    the command is sent [SIGTERM] first of all, the stream leaves the
    registry and the listing while the other streams stay as they are,
    the connection table is untouched, and the last thing done is the
    [streamStopped] frame to the requester, if its socket is open. *)
Theorem stop_by_last_viewer_unregisters
  (config : Config) (st : State) (streamId connectionId : jsstring)
  (info : StreamInfo) (cmd : nat) (now : Z) :
  JsMap.get streamId (activeStreams st) = Some info ->
  (forall v, In v (connections info) -> v = connectionId) ->
  command info = Some cmd ->
  let r := stopRtspStream config (Some (JString streamId)) connectionId st in
  JsMap.get streamId (activeStreams (stateOf r)) = None /\
  (forall k, k <> streamId ->
     JsMap.get k (activeStreams (stateOf r)) = JsMap.get k (activeStreams st)) /\
  ~ In streamId (map StreamRow.id (getActiveStreamsInfo now (stateOf r))) /\
  wsConnections (stateOf r) = wsConnections st /\
  hd_error (effectsOf r) = Some (Kill cmd SIGTERM) /\
  (canReceive st connectionId = true ->
   exists before,
     effectsOf r = before ++ [Send connectionId (streamStopped streamId)]).
Proof.
  intros Hget Hsole Hcmd r.
  assert (Hgone : JsMap.get streamId (activeStreams (stateOf r)) = None).
  { unfold r. rewrite stopRtspStream_activeStreams, str_eqb_refl, Hget.
    cbv zeta. now rewrite (filter_all_gone _ _ Hsole). }
  split; [exact Hgone|]. split; [|split; [|split; [|split]]].
  - intros k Hk. unfold r. rewrite stopRtspStream_activeStreams.
    apply str_eqb_neq in Hk. now rewrite Hk.
  - unfold getActiveStreamsInfo. rewrite map_map.
    apply get_None_keys in Hgone. unfold JsMap.keys in Hgone.
    intros Hin. apply Hgone. clear - Hin.
    induction (activeStreams (stateOf r)) as [|[k v] m IH];
      simpl in *; [exact Hin|].
    destruct Hin as [H|H]; [now left|right; now apply IH].
  - apply stopRtspStream_wsConnections.
  - unfold r, stopRtspStream. rewrite bind_getState. unfold getStream.
    rewrite Hget, bind_modify, (filter_all_gone _ _ Hsole).
    cbn [setConnections connections command List.length Nat.eqb].
    rewrite Hcmd. rewrite !effectsOf_bind. reflexivity.
  - intros Hopen. unfold r, stopRtspStream.
    rewrite bind_getState. unfold getStream.
    rewrite Hget, bind_modify, effectsOf_bind.
    eexists. f_equal. rewrite sendMessage_spec.
    match goal with
    | |- context [canReceive ?s connectionId] =>
        assert (Hsame : canReceive s connectionId = true)
    end; [|now rewrite Hsame].
    unfold canReceive in *.
    match goal with
    | |- context [wsConnections (stateOf ?x)] =>
        assert (Hws : wsConnections (stateOf x) = wsConnections st)
    end; [|now rewrite Hws].
    pose proof (stopRtspStream_wsConnections config
                  (Some (JString streamId)) connectionId st) as Hkeep.
    unfold stopRtspStream in Hkeep.
    rewrite bind_getState in Hkeep. unfold getStream in Hkeep.
    rewrite Hget, bind_modify, stateOf_bind, sendMessage_spec in Hkeep.
    exact Hkeep.
Qed.

Lemma stop_by_last_viewer_unregisters_witness :
  let r := stopRtspStream Scenario.config (Some (JString Scenario.stream))
             Scenario.alice Scenario.watching in
  JsMap.get Scenario.stream (activeStreams Scenario.watching)
  = Some {| command := Some 0%nat; connections := [Scenario.alice];
            rtspUrl := Scenario.camera; startTime := 2000;
            timeoutId := None |} /\
  JsMap.get Scenario.stream (activeStreams (stateOf r)) = None /\
  hd_error (effectsOf r) = Some (Kill 0 SIGTERM).
Proof.
  assert (Hsole : forall v, In v [Scenario.alice] -> v = Scenario.alice)
    by (intros v [<-|[]]; reflexivity).
  destruct (stop_by_last_viewer_unregisters Scenario.config Scenario.watching
              Scenario.stream Scenario.alice _ 0%nat 0 eq_refl Hsole eq_refl)
    as [Hgone [_ [_ [_ [Hfirst _]]]]].
  split; [reflexivity|]. split; [exact Hgone|exact Hfirst].
Defined.

(** ** The registry between two events *)

(** An invariant that reads the streams and the handlers only holds after
    every event as soon as the three functions that write to
    [activeStreams] keep it. *)
Section Registry.

Variable config : Config.
Variable URL : jsstring -> option Url.
Variable I : State -> Prop.

Hypothesis I_same :
  forall st st',
    activeStreams st' = activeStreams st -> handlers st' = handlers st ->
    I st -> I st'.
Hypothesis cleanup_ok :
  forall streamId, safe I (fun _ => True) (cleanupStream config streamId).
Hypothesis stop_ok :
  forall streamId connectionId,
    safe I (fun _ => True) (stopRtspStream config streamId connectionId).
Hypothesis start_ok :
  forall now rnd throws rtspUrl connectionId,
    safe I (fun _ => True)
      (startRtspStream config URL now rnd throws rtspUrl connectionId).

Local Abbreviation kept := (safe I (fun _ => True)).

Lemma kept_same {A} (c : M A) :
  (forall st, activeStreams (stateOf (c st)) = activeStreams st) ->
  (forall st, handlers (stateOf (c st)) = handlers st) ->
  kept c.
Proof.
  intros Hs Hh st HI. split; [|now apply Forall_forall].
  exact (I_same st _ (Hs st) (Hh st) HI).
Qed.

Lemma kept_forcedKill streamId : kept (forcedKill config streamId).
Proof.
  unfold forcedKill. apply safe_bind; [apply safe_get|]. intros st.
  apply safe_when. apply safe_bind; [|intros _; apply cleanup_ok].
  apply kept_same; intros st'.
  - now destruct (JsMap.get streamId (activeStreams st)) as [[[c|] ? ? ? ?]|].
  - now destruct (JsMap.get streamId (activeStreams st)) as [[[c|] ? ? ? ?]|].
Qed.

Lemma kept_fire timer : kept (fire config timer).
Proof.
  unfold fire. apply safe_bind; [apply safe_get|]. intros st.
  destruct (find _ (timers st)) as [[t streamId]|]; [|apply safe_ret].
  apply safe_bind; [|intros _; apply kept_forcedKill].
  now apply kept_same.
Qed.

Lemma kept_onFfmpegError cmd message : kept (onFfmpegError config cmd message).
Proof.
  unfold onFfmpegError. apply safe_bind; [apply safe_get|]. intros st.
  destruct (nth_error (handlers st) cmd) as [[streamId connectionId]|];
    [|apply safe_ret].
  apply safe_bind; [now apply safe_sendError|]. intros _.
  apply cleanup_ok.
Qed.

Lemma kept_onFfmpegEnd cmd : kept (onFfmpegEnd config cmd).
Proof.
  unfold onFfmpegEnd. apply safe_bind; [apply safe_get|]. intros st.
  destruct (nth_error (handlers st) cmd) as [[streamId connectionId]|];
    [|apply safe_ret].
  apply safe_bind; [now apply safe_sendMessage|]. intros _.
  apply cleanup_ok.
Qed.

Lemma kept_onMessage now rnd throws connectionId parsed :
  kept (onMessage config URL now rnd throws connectionId parsed).
Proof.
  assert (Hdispatch : forall data,
            kept (dispatch config URL now rnd throws connectionId data)).
  { intros data. unfold dispatch.
    destruct (prop (lit "type") data) as [[ | | |type| | ]|];
      try (now apply safe_sendError).
    destruct (str_eqb type (lit "startStream")); [apply start_ok|].
    destruct (str_eqb type (lit "stopStream")); [apply stop_ok|].
    destruct (str_eqb type (lit "pong"));
      [apply safe_ret|now apply safe_sendError]. }
  unfold onMessage. apply safe_bind;
    [|intros [|]; [apply safe_ret|now apply safe_sendError]].
  unfold handleWebSocketMessage.
  destruct parsed as [data|]; [|apply safe_ret].
  destruct data; try apply safe_ret;
    (apply safe_bind; [apply safe_get|]; intros st;
     apply safe_bind;
       [apply kept_same; intros st';
        now destruct (JsMap.get connectionId (wsConnections st))|];
     intros _; apply safe_bind; [apply Hdispatch|];
     intros _; apply safe_ret).
Qed.

Lemma kept_handle now e : kept (handle config URL now e).
Proof.
  assert (Hdisk : forall f st, I st -> I (with_disk f st))
    by (intros f st; now apply I_same).
  destruct e; simpl.
  - unfold onConnection. apply kept_same; intros st;
      unfold bind, getState; simpl; now destruct (_ >=? _).
  - apply kept_onMessage.
  - unfold onClose, handleWebSocketClose.
    apply safe_bind; [now apply kept_same|]. intros _.
    apply safe_forEach. intros info s. apply safe_when.
    apply stop_ok.
  - now apply kept_same.
  - unfold transportMoves. apply kept_same; intros st;
      rewrite bind_getState;
      now destruct (JsMap.get connectionId (wsConnections st)).
  - apply safe_checkConnections; [|easy].
    intros k st; now apply I_same.
  - now apply safe_cleanupExpiredFiles.
  - apply kept_fire.
  - apply safe_ret.
  - apply kept_onFfmpegError.
  - apply kept_onFfmpegEnd.
  - now apply kept_same.
  - apply safe_bind; [now apply safe_serveHLSPlaylist|].
    intros _; apply safe_ret.
  - apply safe_bind; [now apply safe_serveHLSSegment|].
    intros _; apply safe_ret.
Qed.

End Registry.

(** *** Every registered stream has its one viewer and its command *)

Section Tidy.

Variable config : Config.
Variable URL : jsstring -> option Url.

Local Abbreviation neat := (safe tidy (fun _ => True)).

Lemma tidy_same st st' :
  activeStreams st' = activeStreams st ->
  handlers st' = handlers st ->
  tidy st -> tidy st'.
Proof.
  intros Hs Hh Ht streamId info. rewrite Hs, Hh. apply Ht.
Qed.

Lemma cleanupStream_handlers streamId st :
  handlers (stateOf (cleanupStream config streamId st)) = handlers st.
Proof.
  set (I := fun s => handlers s = handlers st).
  assert (Hsafe : safe I (fun _ => True) (cleanupStream config streamId))
    by (apply safe_cleanupStream; easy).
  exact (proj1 (Hsafe st eq_refl)).
Qed.

Lemma stopRtspStream_handlers streamId connectionId st :
  handlers (stateOf (stopRtspStream config streamId connectionId st))
  = handlers st.
Proof.
  set (I := fun s => handlers s = handlers st).
  assert (Hsafe : safe I (fun _ => True)
                    (stopRtspStream config streamId connectionId))
    by (apply safe_stopRtspStream; easy).
  exact (proj1 (Hsafe st eq_refl)).
Qed.

Lemma neat_cleanupStream streamId : neat (cleanupStream config streamId).
Proof.
  intros st Ht. split; [|now apply Forall_forall].
  intros k info. rewrite cleanupStream_activeStreams, cleanupStream_handlers.
  destruct (str_eqb k streamId); [discriminate|apply Ht].
Qed.

Lemma filter_singleton (c v : jsstring) (l : list jsstring) :
  l = [v] ->
  filter (fun id => negb (str_eqb id c)) l <> [] ->
  filter (fun id => negb (str_eqb id c)) l = [v].
Proof.
  intros ->. simpl. now destruct (str_eqb v c).
Qed.

Lemma neat_stopRtspStream streamId connectionId :
  neat (stopRtspStream config streamId connectionId).
Proof.
  intros st Ht. split; [|now apply Forall_forall].
  destruct streamId as [[ | | |s| | ]|];
    try (unfold stopRtspStream; rewrite bind_getState; cbn [getStream];
         rewrite sendError_spec; exact Ht).
  intros k info'.
  rewrite stopRtspStream_activeStreams, stopRtspStream_handlers.
  destruct (str_eqb k s) eqn:Hk; [|apply Ht].
  apply str_eqb_eq in Hk; subst k.
  destruct (JsMap.get s (activeStreams st)) as [info|] eqn:Hget;
    [|discriminate].
  cbv zeta.
  destruct (Nat.eqb _ 0) eqn:Hempty; [discriminate|].
  intros [= <-]. destruct (Ht s info Hget) as [Htimer [v [cmd [Hv [Hc Hh]]]]].
  split; [exact Htimer|]. exists v, cmd. split; [|now split].
  simpl. apply filter_singleton; [exact Hv|].
  intros Hnil. rewrite Hnil in Hempty. discriminate.
Qed.

Lemma neat_startRtspStream now rnd throws rtspUrl connectionId :
  neat (startRtspStream config URL now rnd throws rtspUrl connectionId).
Proof.
  intros st Ht. split; [|now apply Forall_forall].
  unfold startRtspStream.
  destruct (validateRtspUrl URL rtspUrl);
    [|rewrite sendError_spec; exact Ht].
  cbv zeta. unfold bind at 1. rewrite sendMessage_spec.
  unfold bind at 1, emit.
  destruct throws; [rewrite sendError_spec; exact Ht|].
  unfold bind, save, modify, stateOf; simpl.
  intros k info. unfold with_activeStreams; cbn [activeStreams handlers].
  destruct (str_eqb k (generateStreamId now rnd connectionId)) eqn:Hk.
  - apply str_eqb_eq in Hk; subst k.
    rewrite JsMapFacts.get_set_eq. intros [= <-]. split; [reflexivity|].
    exists connectionId, (List.length (handlers st)).
    split; [reflexivity|]. split; [reflexivity|].
    rewrite nth_error_app2, Nat.sub_diag; [reflexivity|lia].
  - apply str_eqb_neq in Hk. rewrite (JsMapFacts.get_set_ne _ _ _ _ Hk).
    intros Hget. destruct (Ht k info Hget) as [Htimer [v [cmd [Hv [Hc Hh]]]]].
    split; [exact Htimer|]. exists v, cmd. split; [exact Hv|].
    split; [exact Hc|].
    rewrite nth_error_app1; [exact Hh|].
    apply nth_error_Some. now rewrite Hh.
Qed.

Lemma reachable_tidy st : reachable config URL st -> tidy st.
Proof.
  apply (reachable_invariant config URL tidy (fun _ => True)).
  - intros files streamId info. discriminate.
  - intros now e. apply kept_handle.
    + exact tidy_same.
    + exact neat_cleanupStream.
    + exact neat_stopRtspStream.
    + exact neat_startRtspStream.
Qed.

End Tidy.

(** *** The keys of the registry are distinct *)

Section Keyed.

Variable config : Config.
Variable URL : jsstring -> option Url.
Variable I : State -> Prop.

Hypothesis I_ext :
  forall st st', activeStreams st' = activeStreams st -> I st -> I st'.
Hypothesis I_set :
  forall k v st, I st -> I (with_activeStreams (JsMap.set k v) st).
Hypothesis I_delete :
  forall k st, I st -> I (with_activeStreams (JsMap.delete k) st).

Local Abbreviation keyed := (safe I (fun _ => True)).

Lemma keyed_set k v : keyed (modify (with_activeStreams (JsMap.set k v))).
Proof. intros st HI. split; [now apply I_set|constructor]. Qed.

Lemma keyed_delete k : keyed (modify (with_activeStreams (JsMap.delete k))).
Proof. intros st HI. split; [now apply I_delete|constructor]. Qed.

Lemma keyed_disk f st : I st -> I (with_disk f st).
Proof. now apply I_ext. Qed.

Lemma keyed_cleanupStream streamId : keyed (cleanupStream config streamId).
Proof.
  unfold cleanupStream.
  apply safe_bind; [apply safe_get|]. intros st.
  apply safe_bind.
  - destruct (JsMap.get streamId (activeStreams st)) as [info|];
      [|apply safe_ret].
    destruct (timeoutId info); [|apply safe_ret].
    apply safe_bind; [|intros _; apply keyed_set].
    apply safe_clearTimeout; [|easy]. intros t st'. now apply I_ext.
  - intros _. apply safe_bind; [apply keyed_delete|].
    intros _. apply safe_bind; [now apply safe_readdirSync|].
    intros files. apply safe_bind;
      [apply safe_unlinkStartingWith; [exact keyed_disk|easy]|].
    intros _. apply safe_ret.
Qed.

Lemma keyed_stopRtspStream streamId connectionId :
  keyed (stopRtspStream config streamId connectionId).
Proof.
  unfold stopRtspStream. apply safe_bind; [apply safe_get|]. intros st.
  destruct (getStream streamId (activeStreams st)) as [[s info]|];
    [|now apply safe_sendError].
  apply safe_bind; [apply keyed_set|]. intros _.
  apply safe_bind; [|intros _; now apply safe_sendMessage].
  destruct (Nat.eqb _ 0); [|apply keyed_set].
  apply safe_bind; [|intros _; apply keyed_cleanupStream].
  destruct (command _) as [cmd|]; [|apply safe_ret].
  apply safe_bind; [now apply safe_emit|]. intros _.
  apply safe_bind; [|intros t; apply keyed_set].
  apply safe_setTimeout; [easy|]. intros s' ms st'. now apply I_ext.
Qed.

Lemma keyed_startRtspStream now rnd throws rtspUrl connectionId :
  keyed (startRtspStream config URL now rnd throws rtspUrl connectionId).
Proof.
  unfold startRtspStream.
  destruct (validateRtspUrl URL rtspUrl); [|now apply safe_sendError].
  cbv zeta. apply safe_bind; [now apply safe_sendMessage|]. intros _.
  apply safe_bind; [now apply safe_emit|]. intros _.
  destruct throws; [now apply safe_sendError|].
  apply safe_bind; [|intros cmd; apply keyed_set].
  intros st HI. split; [|now apply Forall_forall].
  now apply (I_ext st).
Qed.

Lemma keyed_handle now e : keyed (handle config URL now e).
Proof.
  apply kept_handle.
  - intros st st' Hs _. now apply I_ext.
  - exact keyed_cleanupStream.
  - exact keyed_stopRtspStream.
  - exact keyed_startRtspStream.
Qed.

End Keyed.

Lemma keys_set_In {V} (k x : jsstring) (v : V) (m : JsMap.t V) :
  In x (JsMap.keys (JsMap.set k v m)) -> x = k \/ In x (JsMap.keys m).
Proof.
  induction m as [|[k' v'] m IH]; simpl.
  - intros [<-|[]]. now left.
  - destruct (str_eqb k k') eqn:Hk; simpl.
    + intros [<-|Hin]; [now left|right; now right].
    + intros [<-|Hin]; [right; now left|].
      destruct (IH Hin) as [->|Hm]; [now left|right; now right].
Qed.

Lemma keys_set_NoDup {V} (k : jsstring) (v : V) (m : JsMap.t V) :
  NoDup (JsMap.keys m) -> NoDup (JsMap.keys (JsMap.set k v m)).
Proof.
  induction m as [|[k' v'] m IH]; simpl; intros Hm.
  - repeat constructor. easy.
  - inversion Hm as [|? ? Hnotin Hrest]; subst.
    destruct (str_eqb k k') eqn:Hk; simpl.
    + apply str_eqb_eq in Hk; subst k'. now constructor.
    + constructor; [|now apply IH].
      intros Hin. apply keys_set_In in Hin. destruct Hin as [->|Hin].
      * now rewrite str_eqb_refl in Hk.
      * contradiction.
Qed.

Lemma keys_delete_In {V} (k x : jsstring) (m : JsMap.t V) :
  In x (JsMap.keys (JsMap.delete k m)) -> In x (JsMap.keys m).
Proof.
  induction m as [|[k' v'] m IH]; simpl; [easy|].
  destruct (str_eqb k k'); simpl.
  - intros Hin. right. now apply IH.
  - intros [<-|Hin]; [now left|right; now apply IH].
Qed.

Lemma keys_delete_NoDup {V} (k : jsstring) (m : JsMap.t V) :
  NoDup (JsMap.keys m) -> NoDup (JsMap.keys (JsMap.delete k m)).
Proof.
  induction m as [|[k' v'] m IH]; simpl; intros Hm; [constructor|].
  inversion Hm as [|? ? Hnotin Hrest]; subst.
  destruct (str_eqb k k'); simpl; [now apply IH|].
  constructor; [|now apply IH].
  intros Hin. now apply keys_delete_In in Hin.
Qed.

Lemma reachable_distinct_keys config URL st :
  reachable config URL st -> NoDup (JsMap.keys (activeStreams st)).
Proof.
  apply (reachable_invariant config URL
           (fun s => NoDup (JsMap.keys (activeStreams s))) (fun _ => True)).
  - intros files. constructor.
  - intros now e. apply keyed_handle.
    + intros s s' Hs. now rewrite Hs.
    + intros k v s. apply keys_set_NoDup.
    + intros k s. apply keys_delete_NoDup.
Qed.

Lemma get_of_entry {V} (k : jsstring) (v : V) (m : JsMap.t V) :
  NoDup (JsMap.keys m) -> In (k, v) m -> JsMap.get k m = Some v.
Proof.
  induction m as [|[k' v'] m IH]; simpl; [easy|].
  intros Hm. inversion Hm as [|? ? Hnotin Hrest]; subst.
  intros [[= -> ->]|Hin].
  - now rewrite str_eqb_refl.
  - destruct (str_eqb k k') eqn:Hk; [|now apply IH].
    apply str_eqb_eq in Hk; subst k'. exfalso. apply Hnotin.
    apply (in_map fst) in Hin. exact Hin.
Qed.

(** X3. After any sequence of events, every row of the listing of active
    streams has a distinct id, counts exactly one connection and has
    status [active]; the one viewer of each registered stream is the
    connection for which the stream's ffmpeg command was built, and no
    registered stream carries a timer id. *)
Theorem listing_rows_have_one_viewer
  (config : Config) (URL : jsstring -> option Url) (st : State) (now : Z) :
  reachable config URL st ->
  NoDup (map StreamRow.id (getActiveStreamsInfo now st)) /\
  Forall (fun row => StreamRow.connections row = 1%nat /\
                     StreamRow.status row = StreamRow.active)
    (getActiveStreamsInfo now st) /\
  (forall streamId info,
      JsMap.get streamId (activeStreams st) = Some info ->
      timeoutId info = None /\
      exists viewer cmd,
        connections info = [viewer] /\ command info = Some cmd /\
        nth_error (handlers st) cmd = Some (streamId, viewer)).
Proof.
  intros Hreach.
  pose proof (reachable_distinct_keys config URL st Hreach) as Hkeys.
  pose proof (reachable_tidy config URL st Hreach) as Htidy.
  split; [|split; [|exact Htidy]].
  - unfold getActiveStreamsInfo. rewrite map_map.
    erewrite map_ext; [exact Hkeys|]. now intros [id info].
  - unfold getActiveStreamsInfo. apply Forall_forall. intros row Hrow.
    apply in_map_iff in Hrow. destruct Hrow as [[id info] [<- Hin]].
    destruct (Htidy id info (get_of_entry id info _ Hkeys Hin))
      as [_ [v [cmd [Hv [Hc _]]]]].
    simpl. now rewrite Hv, Hc.
Qed.

Lemma listing_rows_have_one_viewer_witness :
  reachable Scenario.config Scenario.URL Cases.both /\
  map StreamRow.connections (getActiveStreamsInfo 3000 Cases.both) = [1%nat] /\
  Forall (fun row => StreamRow.connections row = 1%nat /\
                     StreamRow.status row = StreamRow.active)
    (getActiveStreamsInfo 3000 Cases.both).
Proof.
  assert (Hreach : reachable Scenario.config Scenario.URL Cases.both).
  { unfold Cases.both. apply reachable_run.
    unfold Scenario.watching. apply reachable_run. apply reachable_initial. }
  split; [exact Hreach|]. split; [reflexivity|].
  exact (proj1 (proj2 (listing_rows_have_one_viewer Scenario.config
                         Scenario.URL Cases.both 3000 Hreach))).
Defined.

(** ** The storage directory *)

Lemma path_eqb_eq (p q : path) : path_eqb p q = true <-> p = q.
Proof.
  revert q. induction p as [|x p IH]; intros [|y q]; simpl;
    try (split; [discriminate|discriminate]); [easy|].
  rewrite andb_true_iff, IH. split.
  - intros [Hx ->]. apply str_eqb_eq in Hx. now subst.
  - intros [= -> ->]. split; [apply str_eqb_refl|reflexivity].
Qed.

Lemma childOf_spec (dir p : path) (name : jsstring) :
  childOf dir p = Some name -> p = dir ++ [name].
Proof.
  revert p. induction dir as [|d dir IH]; intros [|x p]; simpl;
    try discriminate.
  - destruct p; [|discriminate]. now intros [= ->].
  - destruct (str_eqb d x) eqn:Hd; [|discriminate].
    apply str_eqb_eq in Hd; subst x. intros H. now rewrite (IH p H).
Qed.

Lemma path_join_plain (dir : path) (name : jsstring) :
  isNormalized dir = true -> plainName name = true ->
  path_join dir name = dir ++ [name].
Proof.
  unfold plainName. rewrite andb_true_iff, negb_true_iff.
  intros Hdir [Hslash Hname].
  unfold path_join. rewrite (splitOn_plain _ _ Hslash).
  apply normalizeOnto_normalized. now rewrite isNormalized_app, Hdir, Hname.
Qed.

Lemma distinctPaths_NoDup (ps : list path) :
  distinctPaths ps = true -> NoDup ps.
Proof.
  induction ps as [|p ps IH]; simpl; [constructor|].
  rewrite andb_true_iff, negb_true_iff. intros [Hp Hps].
  constructor; [|now apply IH].
  intros Hin. apply not_true_iff_false in Hp. apply Hp.
  apply existsb_exists. exists p. split; [exact Hin|apply path_eqb_refl].
Qed.

Lemma find_by_path (p : path) (before after : list File) (f : File) :
  file_path f = p ->
  NoDup (map file_path (before ++ f :: after)) ->
  find (fun g => path_eqb p (file_path g)) (before ++ f :: after) = Some f.
Proof.
  intros <-. induction before as [|g before IH]; simpl; intros Hnodup.
  - now rewrite path_eqb_refl.
  - inversion Hnodup as [|? ? Hnotin Hrest]; subst.
    destruct (path_eqb (file_path f) (file_path g)) eqn:Hg; [|now apply IH].
    apply path_eqb_eq in Hg. exfalso. apply Hnotin. rewrite <- Hg.
    rewrite map_app. apply in_or_app. right. now left.
Qed.

Lemma filter_by_path (p : path) (before after : list File) (f : File) :
  file_path f = p ->
  NoDup (map file_path (before ++ f :: after)) ->
  filter (fun g => negb (path_eqb p (file_path g))) (before ++ f :: after)
  = before ++ after.
Proof.
  intros <- Hnodup. rewrite filter_app. simpl. rewrite path_eqb_refl. simpl.
  rewrite map_app in Hnodup. simpl in Hnodup.
  pose proof (NoDup_remove_2 _ _ _ Hnodup) as Hnotin.
  assert (Hkeep : forall l, (forall g, In g l ->
                               In (file_path g) (map file_path before
                                                 ++ map file_path after)) ->
            filter (fun g => negb (path_eqb (file_path f) (file_path g))) l
            = l).
  { induction l as [|g l IH]; simpl; [reflexivity|]. intros Hl.
    destruct (path_eqb (file_path f) (file_path g)) eqn:Hg.
    - apply path_eqb_eq in Hg. exfalso. apply Hnotin. rewrite Hg.
      apply Hl. now left.
    - simpl. f_equal. apply IH. intros g' Hg'. apply Hl. now right. }
  rewrite !Hkeep; [reflexivity| |].
  - intros g Hg. apply in_or_app. right. now apply in_map.
  - intros g Hg. apply in_or_app. left. now apply in_map.
Qed.

Lemma with_disk_as (files : list File) (f : list File -> list File)
  (st : State) :
  f (disk st) = files -> with_disk f st = with_disk (fun _ => files) st.
Proof. intros <-. reflexivity. Qed.

Lemma with_disk_id (st : State) : with_disk (fun _ => disk st) st = st.
Proof. now destruct st. Qed.

Section Storage.

Variable config : Config.

Local Abbreviation dir := (streams_directory config).

Hypothesis dir_normalized : isNormalized dir = true.

Lemma soundDisk_entry (before after : list File) (f : File)
  (name : jsstring) :
  soundDisk dir (before ++ f :: after) = true ->
  childOf dir (file_path f) = Some name ->
  path_join dir name = file_path f /\
  NoDup (map file_path (before ++ f :: after)).
Proof.
  unfold soundDisk. rewrite andb_true_iff, forallb_app. simpl.
  rewrite !andb_true_iff. intros [Hdistinct [_ [Hf _]]] Hchild.
  rewrite Hchild in Hf. split; [|now apply distinctPaths_NoDup].
  rewrite (childOf_spec _ _ _ Hchild). now apply path_join_plain.
Qed.

(** Deleting an entry of the storage directory of a sound disk. *)
Lemma unlinkSync_entry (before after : list File) (f : File)
  (name : jsstring) (st : State) :
  disk st = before ++ f :: after ->
  soundDisk dir (disk st) = true ->
  childOf dir (file_path f) = Some name ->
  unlinkSync (path_join dir name) st
  = if unlinkable f
    then (true, with_disk (fun _ => before ++ after) st,
          [Unlink (file_path f)])
    else (false, st, [Unlink (file_path f)]).
Proof.
  intros Hdisk Hsound Hchild. rewrite Hdisk in Hsound.
  destruct (soundDisk_entry _ _ _ _ Hsound Hchild) as [-> Hnodup].
  unfold unlinkSync. rewrite Hdisk.
  rewrite (find_by_path _ _ _ _ eq_refl Hnodup).
  destruct (unlinkable f); [|reflexivity].
  f_equal. f_equal. apply with_disk_as. rewrite Hdisk.
  now apply filter_by_path.
Qed.

Lemma statSync_entry (before after : list File) (f : File)
  (name : jsstring) (st : State) :
  disk st = before ++ f :: after ->
  soundDisk dir (disk st) = true ->
  childOf dir (file_path f) = Some name ->
  statSync (path_join dir name) st
  = (Some (mtimeMs f), st, [Stat (file_path f)]).
Proof.
  intros Hdisk Hsound Hchild. rewrite Hdisk in Hsound.
  destruct (soundDisk_entry _ _ _ _ Hsound Hchild) as [-> Hnodup].
  unfold statSync. rewrite Hdisk.
  now rewrite (find_by_path _ _ _ _ eq_refl Hnodup).
Qed.

Lemma soundDisk_remove (before after : list File) (f : File) :
  soundDisk dir (before ++ f :: after) = true ->
  soundDisk dir (before ++ after) = true.
Proof.
  unfold soundDisk. rewrite !andb_true_iff, !forallb_app. simpl.
  rewrite !andb_true_iff. intros [Hdistinct [Hb [_ Ha]]].
  split; [|now split].
  clear Hb Ha. rewrite !map_app in *. simpl in Hdistinct.
  induction (map file_path before) as [|p ps IH]; simpl in *.
  - now apply andb_true_iff in Hdistinct.
  - rewrite andb_true_iff, negb_true_iff in *.
    destruct Hdistinct as [Hp Hps]. split; [|now apply IH].
    rewrite existsb_app in *. simpl in Hp.
    rewrite !orb_false_iff in *. tauto.
Qed.

End Storage.

(** *** The periodic deletion of old files *)

Section Janitor.

Variable config : Config.
Variable now : Z.

Local Abbreviation dir := (streams_directory config).
Local Abbreviation listing :=
  (flat_map (fun f => match childOf dir (file_path f) with
                      | Some name => [name]
                      | None => []
                      end)).
Local Abbreviation fresh :=
  (fun f => negb (inDirectory dir f && expired config now f)).

Hypothesis dir_normalized : isNormalized dir = true.

Lemma unlinkExpired_stuck (post : list File) (P : list File) (st : State) :
  disk st = P ++ post ->
  soundDisk dir (disk st) = true ->
  (post = [] \/
   exists f post', post = f :: post' /\ inDirectory dir f = true /\
                   expired config now f = true /\ unlinkable f = false) ->
  stateOf (unlinkExpired config now (listing post) st) = st.
Proof.
  intros Hdisk Hsound [->|(f & post' & -> & Hin & Hexp & Hlock)];
    [reflexivity|].
  unfold inDirectory in Hin. cbn [flat_map].
  destruct (childOf dir (file_path f)) as [name|] eqn:Hchild;
    [|discriminate].
  cbn [app unlinkExpired]. unfold bind.
  rewrite (statSync_entry config dir_normalized P post' f name st
             Hdisk Hsound Hchild).
  unfold expired in Hexp. rewrite Hexp.
  rewrite (unlinkSync_entry config dir_normalized P post' f name st
             Hdisk Hsound Hchild), Hlock.
  reflexivity.
Qed.

Lemma unlinkExpired_sweep (post pre : list File) :
  (post = [] \/
   exists f post', post = f :: post' /\ inDirectory dir f = true /\
                   expired config now f = true /\ unlinkable f = false) ->
  forall (P : list File) (st : State),
    disk st = P ++ pre ++ post ->
    soundDisk dir (disk st) = true ->
    (forall f, In f pre -> inDirectory dir f = true ->
               expired config now f = true -> unlinkable f = true) ->
    stateOf (unlinkExpired config now (listing (pre ++ post)) st)
    = with_disk (fun _ => P ++ filter fresh pre ++ post) st.
Proof.
  intros Hpost. induction pre as [|f pre IH]; intros P st Hdisk Hsound Hpre.
  - cbn [app filter]. rewrite (unlinkExpired_stuck post P st Hdisk Hsound Hpost).
    cbn [app] in Hdisk. rewrite <- Hdisk. symmetry. apply with_disk_id.
  - assert (Hrest : forall g, In g pre -> inDirectory dir g = true ->
                              expired config now g = true ->
                              unlinkable g = true)
      by (intros g Hg; apply Hpre; now right).
    assert (Hskip : stateOf (unlinkExpired config now
                               (listing (pre ++ post)) st)
                    = with_disk (fun _ => (P ++ [f]) ++ filter fresh pre ++ post)
                        st).
    { apply IH; [|exact Hsound|exact Hrest].
      rewrite Hdisk, <- app_assoc. reflexivity. }
    cbn [app flat_map filter]. unfold inDirectory at 1.
    destruct (childOf dir (file_path f)) as [name|] eqn:Hchild.
    + cbn [app unlinkExpired]. rewrite stateOf_bind.
      rewrite (statSync_entry config dir_normalized P (pre ++ post) f name st
                 Hdisk Hsound Hchild).
      unfold valueOf at 1, stateOf at 2. cbn [fst snd].
      unfold expired at 1.
      destruct (now - mtimeMs f >? streams_maxAge config) eqn:Hexp.
      * rewrite stateOf_bind.
        rewrite (unlinkSync_entry config dir_normalized P (pre ++ post) f
                   name st Hdisk Hsound Hchild).
        rewrite (Hpre f (or_introl eq_refl));
          [|unfold inDirectory; now rewrite Hchild|exact Hexp].
        unfold valueOf at 1, stateOf at 2. cbn [fst snd negb andb].
        rewrite (IH P (with_disk (fun _ => P ++ pre ++ post) st));
          [reflexivity|reflexivity| |exact Hrest].
        cbn [disk with_disk]. rewrite Hdisk in Hsound.
        exact (soundDisk_remove config P (pre ++ post) f Hsound).
      * cbn [negb andb]. rewrite Hskip, <- app_assoc. reflexivity.
    + cbn [app negb andb]. rewrite Hskip, <- app_assoc. reflexivity.
Qed.

End Janitor.



(** *** The artifacts of a stream that is cleaned up *)

Section Purge.

Variable config : Config.
Variable prefix : jsstring.

Local Abbreviation dir := (streams_directory config).
Local Abbreviation listing :=
  (flat_map (fun f => match childOf dir (file_path f) with
                      | Some name => [name]
                      | None => []
                      end)).
Local Abbreviation foreign := (fun f => negb (namedWith dir prefix f)).

Hypothesis dir_normalized : isNormalized dir = true.

Lemma unlinkStartingWith_stuck (post : list File) (P : list File)
  (st : State) :
  disk st = P ++ post ->
  soundDisk dir (disk st) = true ->
  (post = [] \/
   exists f post', post = f :: post' /\ namedWith dir prefix f = true /\
                   unlinkable f = false) ->
  stateOf (unlinkStartingWith config prefix (listing post) st) = st.
Proof.
  intros Hdisk Hsound [->|(f & post' & -> & Hin & Hlock)];
    [reflexivity|].
  unfold namedWith in Hin. cbn [flat_map].
  destruct (childOf dir (file_path f)) as [name|] eqn:Hchild;
    [|discriminate].
  cbn [app unlinkStartingWith]. rewrite Hin, stateOf_bind.
  rewrite (unlinkSync_entry config dir_normalized P post' f name st
             Hdisk Hsound Hchild), Hlock.
  reflexivity.
Qed.

Lemma unlinkStartingWith_sweep (post pre : list File) :
  (post = [] \/
   exists f post', post = f :: post' /\ namedWith dir prefix f = true /\
                   unlinkable f = false) ->
  forall (P : list File) (st : State),
    disk st = P ++ pre ++ post ->
    soundDisk dir (disk st) = true ->
    (forall f, In f pre -> namedWith dir prefix f = true ->
               unlinkable f = true) ->
    stateOf (unlinkStartingWith config prefix (listing (pre ++ post)) st)
    = with_disk (fun _ => P ++ filter foreign pre ++ post) st.
Proof.
  intros Hpost. induction pre as [|f pre IH]; intros P st Hdisk Hsound Hpre.
  - cbn [app filter].
    rewrite (unlinkStartingWith_stuck post P st Hdisk Hsound Hpost).
    cbn [app] in Hdisk. rewrite <- Hdisk. symmetry. apply with_disk_id.
  - assert (Hrest : forall g, In g pre -> namedWith dir prefix g = true ->
                              unlinkable g = true)
      by (intros g Hg; apply Hpre; now right).
    assert (Hskip : stateOf (unlinkStartingWith config prefix
                               (listing (pre ++ post)) st)
                    = with_disk
                        (fun _ => (P ++ [f]) ++ filter foreign pre ++ post)
                        st).
    { apply IH; [|exact Hsound|exact Hrest].
      rewrite Hdisk, <- app_assoc. reflexivity. }
    pose proof (Hpre f (or_introl eq_refl)) as Hf.
    cbn [app flat_map filter]. unfold namedWith at 1. unfold namedWith in Hf.
    destruct (childOf dir (file_path f)) as [name|] eqn:Hchild.
    + cbn [app unlinkStartingWith].
      destruct (startsWith prefix name) eqn:Hname.
      * rewrite stateOf_bind.
        rewrite (unlinkSync_entry config dir_normalized P (pre ++ post) f
                   name st Hdisk Hsound Hchild).
        rewrite (Hf eq_refl).
        unfold valueOf at 1, stateOf at 2. cbn [fst snd negb].
        rewrite (IH P (with_disk (fun _ => P ++ pre ++ post) st));
          [reflexivity|reflexivity| |exact Hrest].
        cbn [disk with_disk]. rewrite Hdisk in Hsound.
        exact (soundDisk_remove config P (pre ++ post) f Hsound).
      * cbn [negb]. rewrite Hskip, <- app_assoc. reflexivity.
    + cbn [app negb]. rewrite Hskip, <- app_assoc. reflexivity.
Qed.

End Purge.

Lemma cleanupStream_disk_before_purge {B} streamId st (k : unit -> M B) :
  let before :=
    bind (match JsMap.get streamId (activeStreams st) with
          | Some streamInfo =>
              match timeoutId streamInfo with
              | Some t =>
                  bind (clearTimeout t) (fun _ =>
                    modify (with_activeStreams
                              (JsMap.set streamId
                                 (setTimeoutId None streamInfo))))
              | None => ret tt
              end
          | None => ret tt
          end)
      (fun _ => modify (with_activeStreams (JsMap.delete streamId))) in
  disk (stateOf (bind before k st))
  = disk (stateOf (k tt (stateOf (before st)))) /\
  disk (stateOf (before st)) = disk st.
Proof.
  intros before. split.
  - rewrite stateOf_bind. now destruct (valueOf (before st)).
  - unfold before.
    destruct (JsMap.get streamId (activeStreams st)) as [info|];
      [destruct (timeoutId info)|]; reflexivity.
Qed.



(** ** The handlers of an ffmpeg command *)

(** The closures installed on a command stay: no event removes or
    replaces them. *)
Lemma handlers_stay config URL events st cmd closure :
  nth_error (handlers st) cmd = Some closure ->
  nth_error (handlers (stateOf (run config URL events st))) cmd
  = Some closure.
Proof.
  set (I := fun s => nth_error (handlers s) cmd = Some closure).
  assert (Hhandle : forall now e,
            safe I (fun _ => True) (handle config URL now e)).
  { apply kept_handle.
    - intros s s' _ Hh. unfold I. now rewrite Hh.
    - intros streamId s. unfold I.
      rewrite cleanupStream_handlers. intros Hs.
      split; [exact Hs|now apply Forall_forall].
    - intros streamId connectionId s. unfold I.
      rewrite stopRtspStream_handlers. intros Hs.
      split; [exact Hs|now apply Forall_forall].
    - apply safe_startRtspStream; [easy| |easy].
      intros i o s c s0. unfold I, save, stateOf; simpl. intros Hs.
      rewrite nth_error_app1; [exact Hs|].
      apply nth_error_Some. now rewrite Hs. }
  revert st. induction events as [|[now e] events IH]; intros st Hst;
    [exact Hst|].
  rewrite run_cons.
  pose proof (proj1 (Hhandle now e st Hst)) as Hstep.
  destruct (handle config URL now e st) as [[u st1] fx1].
  specialize (IH st1 Hstep).
  now destruct (run config URL events st1) as [[u2 st2] fx2].
Qed.

(** X6. The [error] and [end] handlers of an ffmpeg command do not look
    the stream up: once a command was built for a stream and a
    connection, whatever happens afterwards (the stream may have been
    stopped and unregistered), an [error] event of the command sends the
    connection an error frame and an [end] event sends it [streamEnded],
    as the first effect, provided the connection is in the table with an
    open socket; and the stream is not registered afterwards. *)
Theorem ffmpeg_handlers_outlive_stream
  (config : Config) (URL : jsstring -> option Url)
  (events : list (Z * Event)) (st : State) (cmd : nat)
  (streamId connectionId message : jsstring) :
  nth_error (handlers st) cmd = Some (streamId, connectionId) ->
  let later := stateOf (run config URL events st) in
  canReceive later connectionId = true ->
  let failed := onFfmpegError config cmd message later in
  let ended := onFfmpegEnd config cmd later in
  hd_error (effectsOf failed)
  = Some (Send connectionId (error (Text.ffmpegError ++ message))) /\
  hd_error (effectsOf ended)
  = Some (Send connectionId (streamEnded streamId)) /\
  JsMap.get streamId (activeStreams (stateOf failed)) = None /\
  JsMap.get streamId (activeStreams (stateOf ended)) = None.
Proof.
  intros Hcmd later Hopen failed ended.
  pose proof (handlers_stay config URL events st cmd _ Hcmd) as Hlater.
  fold later in Hlater.
  unfold failed, ended, onFfmpegError, onFfmpegEnd.
  rewrite !bind_getState, Hlater.
  rewrite !effectsOf_bind, !stateOf_bind, sendError_spec, sendMessage_spec.
  rewrite Hopen. unfold stateOf at 2 4, valueOf. cbn [fst snd].
  repeat split; try reflexivity;
    rewrite cleanupStream_activeStreams; now rewrite str_eqb_refl.
Qed.

Lemma ffmpeg_handlers_outlive_stream_witness :
  let later := stateOf (run Scenario.config Scenario.URL [Scenario.stops]
                          Scenario.watching) in
  nth_error (handlers Scenario.watching) 0
  = Some (Scenario.stream, Scenario.alice) /\
  JsMap.get Scenario.stream (activeStreams later) = None /\
  hd_error (effectsOf (onFfmpegError Scenario.config 0 (lit "SIGTERM") later))
  = Some (Send Scenario.alice
            (error (Text.ffmpegError ++ lit "SIGTERM"))).
Proof.
  split; [reflexivity|]. split; [reflexivity|].
  exact (proj1 (ffmpeg_handlers_outlive_stream Scenario.config Scenario.URL
                  [Scenario.stops] Scenario.watching 0 Scenario.stream
                  Scenario.alice (lit "SIGTERM") eq_refl eq_refl)).
Defined.

(** ** Addresses that pass validation *)

Lemma none_of (chars s : jsstring) :
  existsb (fun c => existsb (N.eqb c) chars) s = false <->
  forall c, In c s -> ~ In c chars.
Proof.
  split.
  - intros Hnone c Hc Hbad.
    apply not_true_iff_false in Hnone. apply Hnone.
    apply existsb_exists. exists c. split; [exact Hc|].
    apply existsb_exists. exists c. split; [exact Hbad|apply N.eqb_refl].
  - intros Hnone. apply not_true_iff_false. intros Hsome.
    apply existsb_exists in Hsome. destruct Hsome as [c [Hc Hbad]].
    apply existsb_exists in Hbad. destruct Hbad as [c' [Hc' Heq]].
    apply N.eqb_eq in Heq. subst c'. exact (Hnone c Hc Hc').
Qed.

(** X7. The addresses [validateRtspUrl] accepts are exactly the strings
    that, once trimmed, start with [rtsp://], have at most 2048 code
    units, contain none of the characters [;&|`$()] and no backslash,
    contain neither [..], [/etc/] nor (in any letter case) [file://],
    and that the platform parses to a URL whose protocol is [rtsp:] or
    [rtsps:] and whose host name is not empty. *)
Theorem validateRtspUrl_accepts
  (URL : jsstring -> option Url) (v : option json) :
  validateRtspUrl URL v = Valid <->
  exists s u,
    v = Some (JString s) /\
    startsWith (lit "rtsp://") (trim s) = true /\
    Z.of_nat (List.length (trim s)) <= 2048 /\
    (forall c, In c (trim s) -> ~ In c (lit ";&|`$()")) /\
    ~ In 0x5C%N (trim s) /\
    includes (lit "..") (trim s) = false /\
    includes (lit "file://") (map toLowerAscii (trim s)) = false /\
    includes (lit "/etc/") (trim s) = false /\
    URL (trim s) = Some u /\
    (protocol u = lit "rtsp:" \/ protocol u = lit "rtsps:") /\
    hostname u <> [].
Proof.
  assert (Hbackslash : forall s, existsb (N.eqb 0x5C) s = false <->
                                 ~ In 0x5C%N s).
  { intros s. rewrite <- not_true_iff_false, existsb_exists. split.
    - intros Hnone Hin. apply Hnone. exists 0x5C%N. now split.
    - intros Hnone [c [Hc Heq]]. apply N.eqb_eq in Heq. now subst c. }
  split.
  - destruct v as [[ | | |s| | ]|]; try discriminate.
    unfold validateRtspUrl.
    destruct (str_eqb s []); [discriminate|].
    destruct (startsWith (lit "rtsp://") (trim s)) eqn:Hscheme;
      [|discriminate]. cbn [negb].
    destruct (Z.gtb_spec (Z.of_nat (List.length (trim s))) 2048) as [|Hlen];
      [discriminate|].
    destruct (existsb _ dangerousPatterns) eqn:Hclean; [discriminate|].
    destruct (URL (trim s)) as [u|] eqn:Hu; [|discriminate].
    destruct (existsb _ [lit "rtsp:"; lit "rtsps:"]) eqn:Hproto;
      [|discriminate]. cbn [negb].
    destruct (str_eqb (hostname u) []) eqn:Hhost; [discriminate|].
    intros _. exists s, u.
    unfold dangerousPatterns in Hclean. cbn [existsb] in Hclean.
    rewrite !orb_false_iff in Hclean.
    destruct Hclean as (Hshell & Hdots & Hfile & Hetc & Hback & _).
    cbn [existsb] in Hproto. rewrite orb_false_r in Hproto.
    apply orb_true_iff in Hproto.
    repeat split; try assumption.
    + now apply none_of.
    + now apply Hbackslash.
    + destruct Hproto as [H|H]; apply str_eqb_eq in H; auto.
    + now apply str_eqb_neq.
  - intros (s & u & -> & Hscheme & Hlen & Hshell & Hback & Hdots & Hfile
            & Hetc & Hu & Hproto & Hhost).
    unfold validateRtspUrl.
    destruct (str_eqb s []) eqn:Hs.
    { apply str_eqb_eq in Hs. subst s. discriminate. }
    rewrite Hscheme. cbn [negb].
    destruct (Z.gtb_spec (Z.of_nat (List.length (trim s))) 2048); [lia|].
    assert (Hclean : existsb (fun pattern => pattern (trim s))
                       dangerousPatterns = false).
    { unfold dangerousPatterns. cbn [existsb].
      apply none_of in Hshell. apply Hbackslash in Hback.
      now rewrite Hshell, Hdots, Hfile, Hetc, Hback. }
    rewrite Hclean, Hu.
    assert (Hknown : existsb (str_eqb (protocol u))
                       [lit "rtsp:"; lit "rtsps:"] = true).
    { cbn [existsb]. destruct Hproto as [-> | ->]; reflexivity. }
    rewrite Hknown. cbn [negb].
    apply str_eqb_neq in Hhost. now rewrite Hhost.
Qed.

(** X8. An address that starts with [rtsps://] is never accepted: the
    test on the prefix [rtsp://] comes first and answers that the
    address does not start with [rtsp://], so that the entry [rtsps:] of
    the protocol list is never reached with such an address. *)
Theorem validateRtspUrl_rejects_rtsps
  (URL : jsstring -> option Url) (s : jsstring) :
  startsWith (lit "rtsps://") (trim s) = true ->
  validateRtspUrl URL (Some (JString s)) = Invalid Text.urlNotRtsp.
Proof.
  intros Hsecure. unfold validateRtspUrl.
  destruct (str_eqb s []) eqn:Hs.
  { apply str_eqb_eq in Hs. subst s. discriminate. }
  assert (Hplain : startsWith (lit "rtsp://") (trim s) = false).
  { revert Hsecure.
    let secure := eval vm_compute in (lit "rtsps://") in
    change (lit "rtsps://") with secure.
    destruct (trim s) as [|c0 [|c1 [|c2 [|c3 [|c4 rest]]]]];
      cbn [startsWith]; rewrite ?andb_true_iff, ?andb_false_r;
      try (intuition discriminate).
    intros (H0 & H1 & H2 & H3 & H4 & _).
    apply N.eqb_eq in H0, H1, H2, H3, H4. subst. reflexivity. }
  now rewrite Hplain.
Qed.

Lemma validateRtspUrl_rejects_rtsps_witness :
  startsWith (lit "rtsps://") (trim (lit " rtsps://cam.local/live")) = true /\
  validateRtspUrl Scenario.URL (Some (JString (lit " rtsps://cam.local/live")))
  = Invalid Text.urlNotRtsp.
Proof.
  split; [reflexivity|].
  exact (validateRtspUrl_rejects_rtsps Scenario.URL
           (lit " rtsps://cam.local/live") eq_refl).
Defined.

(** ** Closing a connection *)

Section Closing.

Variable config : Config.
Variable connectionId : jsstring.
Variable st0 : State.

Hypothesis st0_tidy : tidy st0.

Local Abbreviation detach :=
  (fun (streamInfo : StreamInfo) (streamId : jsstring) =>
     when (existsb (str_eqb connectionId) (connections streamInfo))
       (stopRtspStream config (Some (JString streamId)) connectionId)).

Local Abbreviation watches info :=
  (existsb (str_eqb connectionId) (connections info)).

Lemma watches_alone info :
  (exists viewer, connections info = [viewer]) ->
  watches info = true ->
  forall v, In v (connections info) -> v = connectionId.
Proof.
  intros [viewer Hv]. rewrite Hv. cbn [existsb]. rewrite orb_false_r.
  intros Heq v [<-|[]]. apply str_eqb_eq in Heq. now symmetry.
Qed.

(** One turn of the loop, on a stream that is as it was in [st0]. *)
Lemma detach_turn st k info :
  JsMap.get k (activeStreams st) = Some info ->
  JsMap.get k (activeStreams st0) = Some info ->
  let r := detach info k st in
  (forall k', k' <> k ->
     JsMap.get k' (activeStreams (stateOf r))
     = JsMap.get k' (activeStreams st)) /\
  if watches info
  then JsMap.get k (activeStreams (stateOf r)) = None /\
       exists cmd, command info = Some cmd /\
                   In (Kill cmd SIGTERM) (effectsOf r)
  else JsMap.get k (activeStreams (stateOf r)) = Some info.
Proof.
  intros Hget Hget0. cbv zeta beta. unfold when.
  destruct (st0_tidy k info Hget0) as [_ [viewer [cmd [Hv [Hcmd _]]]]].
  destruct (watches info) eqn:Hwatch.
  - pose proof (watches_alone info (ex_intro _ viewer Hv) Hwatch) as Hsole.
    split; [|split].
    + intros k' Hk'. rewrite stopRtspStream_activeStreams.
      apply str_eqb_neq in Hk'. now rewrite Hk'.
    + rewrite stopRtspStream_activeStreams, str_eqb_refl, Hget. cbv zeta.
      now rewrite (filter_all_gone _ _ Hsole).
    + exists cmd. split; [exact Hcmd|].
      unfold stopRtspStream. rewrite bind_getState. unfold getStream.
      rewrite Hget, bind_modify, (filter_all_gone _ _ Hsole).
      cbn [setConnections connections command List.length Nat.eqb].
      rewrite Hcmd. rewrite !effectsOf_bind. now left.
  - split; [reflexivity|exact Hget].
Qed.

Lemma close_loop ks :
  NoDup ks ->
  forall st,
    (forall k, In k ks ->
       JsMap.get k (activeStreams st) = JsMap.get k (activeStreams st0)) ->
    let r := forEachKey activeStreams ks detach st in
    (forall k, ~ In k ks ->
       JsMap.get k (activeStreams (stateOf r))
       = JsMap.get k (activeStreams st)) /\
    (forall k info,
       In k ks -> JsMap.get k (activeStreams st0) = Some info ->
       if watches info
       then JsMap.get k (activeStreams (stateOf r)) = None /\
            exists cmd, command info = Some cmd /\
                        In (Kill cmd SIGTERM) (effectsOf r)
       else JsMap.get k (activeStreams (stateOf r)) = Some info).
Proof.
  induction 1 as [|k0 ks Hfirst Hnodup IH]; intros st Hpending.
  - split; [reflexivity|]. intros k info [].
  - cbn [forEachKey]. rewrite bind_getState, stateOf_bind, effectsOf_bind.
    cbv zeta.
    set (turn := match JsMap.get k0 (activeStreams st) with
                 | Some v => detach v k0
                 | None => ret tt
                 end st).
    assert (Hturn :
      (forall k, k <> k0 ->
         JsMap.get k (activeStreams (stateOf turn))
         = JsMap.get k (activeStreams st)) /\
      (forall info, JsMap.get k0 (activeStreams st0) = Some info ->
         if watches info
         then JsMap.get k0 (activeStreams (stateOf turn)) = None /\
              exists cmd, command info = Some cmd /\
                          In (Kill cmd SIGTERM) (effectsOf turn)
         else JsMap.get k0 (activeStreams (stateOf turn)) = Some info)).
    { pose proof (Hpending k0 (or_introl eq_refl)) as Hsame. unfold turn.
      destruct (JsMap.get k0 (activeStreams st)) as [v|] eqn:Hget.
      - destruct (detach_turn st k0 v Hget (eq_sym Hsame)) as [Hother Hk0].
        split; [exact Hother|].
        intros info Hinfo. rewrite Hinfo in Hsame.
        injection Hsame as ->. exact Hk0.
      - split; [reflexivity|]. intros info Hinfo. congruence. }
    destruct Hturn as [Hother Hk0].
    assert (Hrest : forall k, In k ks ->
              JsMap.get k (activeStreams (stateOf turn))
              = JsMap.get k (activeStreams st0)).
    { intros k Hk. rewrite Hother; [apply Hpending; now right|].
      intros ->. contradiction. }
    destruct (IH (stateOf turn) Hrest) as [IHout IHin].
    split.
    + intros k Hk. rewrite IHout; [apply Hother|]; intros H; apply Hk;
        [now left|now right].
    + intros k info [<-|Hk] Hinfo.
      * specialize (Hk0 info Hinfo). rewrite (IHout k0 Hfirst).
        destruct (watches info); [|exact Hk0].
        destruct Hk0 as [Hgone [cmd [Hcmd Hkill]]].
        split; [exact Hgone|]. exists cmd. split; [exact Hcmd|].
        apply in_or_app. now left.
      * specialize (IHin k info Hk Hinfo).
        destruct (watches info); [|exact IHin].
        destruct IHin as [Hgone [cmd [Hcmd Hkill]]].
        split; [exact Hgone|]. exists cmd. split; [exact Hcmd|].
        apply in_or_app. now right.
Qed.

End Closing.

(** X9. When the [close] event of a connection is handled, every stream
    that the connection watches is unregistered and its ffmpeg command
    is sent [SIGTERM]; every other stream stays registered exactly as it
    was, and no stream is added. *)
Theorem close_stops_the_streams_of_the_viewer
  (config : Config) (URL : jsstring -> option Url) (st : State)
  (connectionId : jsstring) :
  reachable config URL st ->
  let r := handleWebSocketClose config connectionId st in
  forall streamId,
    match JsMap.get streamId (activeStreams st) with
    | Some info =>
        (In connectionId (connections info) ->
         JsMap.get streamId (activeStreams (stateOf r)) = None /\
         exists cmd, command info = Some cmd /\
                     In (Kill cmd SIGTERM) (effectsOf r)) /\
        (~ In connectionId (connections info) ->
         JsMap.get streamId (activeStreams (stateOf r)) = Some info)
    | None => JsMap.get streamId (activeStreams (stateOf r)) = None
    end.
Proof.
  intros Hreach r streamId.
  pose proof (reachable_tidy config URL st Hreach) as Htidy.
  pose proof (reachable_distinct_keys config URL st Hreach) as Hkeys.
  unfold r, handleWebSocketClose. rewrite bind_modify.
  unfold forEach. rewrite bind_getState.
  set (s0 := with_wsConnections (JsMap.delete connectionId) st).
  destruct (close_loop config connectionId st Htidy
              (JsMap.keys (activeStreams s0)) Hkeys s0 (fun k _ => eq_refl))
    as [Hout Hin].
  destruct (JsMap.get streamId (activeStreams st)) as [info|] eqn:Hget.
  - specialize (Hin streamId info (JsMapFacts.get_Some_key _ _ _ Hget) Hget).
    destruct (existsb (str_eqb connectionId) (connections info)) eqn:Hwatch.
    + split; [intros _; exact Hin|]. intros Hnot. exfalso. apply Hnot.
      apply existsb_exists in Hwatch. destruct Hwatch as [v [Hv Heq]].
      apply str_eqb_eq in Heq. now subst v.
    + split; [|intros _; exact Hin]. intros Hyes.
      assert (existsb (str_eqb connectionId) (connections info) = true);
        [|congruence].
      apply existsb_exists. exists connectionId.
      split; [exact Hyes|apply str_eqb_refl].
  - rewrite Hout; [exact Hget|]. now apply get_None_keys.
Qed.

Lemma close_stops_the_streams_of_the_viewer_witness :
  reachable Scenario.config Scenario.URL Cases.both /\
  let r := handleWebSocketClose Scenario.config Scenario.alice Cases.both in
  JsMap.get Scenario.stream (activeStreams (stateOf r)) = None /\
  In (Kill 0 SIGTERM) (effectsOf r).
Proof.
  assert (Hreach : reachable Scenario.config Scenario.URL Cases.both).
  { unfold Cases.both. apply reachable_run.
    unfold Scenario.watching. apply reachable_run. apply reachable_initial. }
  split; [exact Hreach|].
  pose proof (close_stops_the_streams_of_the_viewer Scenario.config
                Scenario.URL Cases.both Scenario.alice Hreach
                Scenario.stream) as Hclose.
  destruct Hclose as [Hmine _].
  destruct (Hmine (or_introl eq_refl)) as [Hgone [cmd [Hcmd Hkill]]].
  injection Hcmd as <-. split; [exact Hgone|exact Hkill].
Defined.

(** ** The playlist route *)

(** A name that ends in [.m3u8] is neither empty, [.] nor [..]. *)
Lemma playlist_name_is_normal (a : jsstring) :
  isNormalized [a ++ lit ".m3u8"] = true.
Proof.
  assert (Hin : In 0x6D%N (a ++ lit ".m3u8"))
    by (apply in_or_app; right; right; now left).
  unfold isNormalized. cbn [forallb].
  rewrite andb_true_r, negb_true_iff, !orb_false_iff.
  repeat split; apply str_eqb_neq; intros Heq; rewrite Heq in Hin;
    simpl in Hin; intuition discriminate.
Qed.

(** X10. For a registered stream whose id contains no path separator,
    the playlist route looks at one path only, the entry
    [<streamId>.m3u8] of the storage directory: it serves that file when
    it is on disk and answers that the playlist does not exist
    otherwise, so that a stream that is registered and whose ffmpeg has
    not written the playlist yet is answered not-found.  The route
    changes nothing. *)
Theorem serveHLSPlaylist_registered
  (config : Config) (st : State) (streamId : jsstring) (info : StreamInfo) :
  isNormalized (streams_directory config) = true ->
  existsb (N.eqb slash) streamId = false ->
  JsMap.get streamId (activeStreams st) = Some info ->
  let filePath := streams_directory config ++ [streamId ++ lit ".m3u8"] in
  serveHLSPlaylist config streamId st
  = (if existsb (fun f => path_eqb filePath (file_path f)) (disk st)
     then SendFile (lit "application/vnd.apple.mpegurl") filePath
     else NotFound Text.noPlaylist,
     st, [ExistsSync filePath; ExistsSync filePath]).
Proof.
  intros Hdir Hplain Hget filePath.
  assert (Hjoin : path_join (streams_directory config)
                    (streamId ++ lit ".m3u8") = filePath).
  { unfold path_join. rewrite splitOn_plain.
    - apply normalizeOnto_normalized.
      now rewrite isNormalized_app, Hdir, playlist_name_is_normal.
    - rewrite existsb_app, Hplain. reflexivity. }
  unfold serveHLSPlaylist. rewrite bind_getState, Hget. cbv zeta.
  rewrite Hjoin. unfold bind, existsSync, ret.
  destruct (existsb _ (disk st)); reflexivity.
Qed.

Lemma serveHLSPlaylist_registered_witness :
  valueOf (serveHLSPlaylist Scenario.config Scenario.stream Cases.early)
  = NotFound Text.noPlaylist /\
  valueOf (serveHLSPlaylist Scenario.config Scenario.stream Scenario.watching)
  = SendFile (lit "application/vnd.apple.mpegurl")
      (file_path Scenario.playlist).
Proof.
  split.
  - exact (f_equal valueOf
             (serveHLSPlaylist_registered Scenario.config Cases.early
                Scenario.stream _ eq_refl eq_refl eq_refl)).
  - exact (f_equal valueOf
             (serveHLSPlaylist_registered Scenario.config Scenario.watching
                Scenario.stream _ eq_refl eq_refl eq_refl)).
Defined.

(** ** The merge of the user configuration into the defaults *)

Lemma mergeConfig_spread (defaultConfig userConfig : json) :
  mergeConfig defaultConfig userConfig
  = mergeConfig (JObject (ownProperties defaultConfig)) userConfig.
Proof. now destruct userConfig. Qed.

(** One turn of the loop over the properties of the user's object. *)
Lemma mergeConfig_turn (merged props : list (jsstring * json))
  (key : jsstring) (value : json) :
  mergeConfig (JObject merged) (JObject ((key, value) :: props))
  = mergeConfig
      (JObject
         (JsMap.set key
            match JsMap.get key merged with
            | Some own =>
                if isPlainObject value && isPlainObject own
                then mergeConfig own value
                else value
            | None => value
            end merged))
      (JObject props).
Proof. reflexivity. Qed.

Lemma not_key_get {V} (m : JsMap.t V) (k : jsstring) :
  ~ In k (JsMap.keys m) -> JsMap.get k m = None.
Proof.
  induction m as [|[k' v'] m IH]; simpl; [reflexivity|].
  intros Hnot. destruct (str_eqb k k') eqn:E.
  - apply str_eqb_eq in E. exfalso. apply Hnot. now left.
  - apply IH. intros Hin. apply Hnot. now right.
Qed.

Lemma mergeConfig_get (props merged : list (jsstring * json))
  (key : jsstring) :
  NoDup (JsMap.keys props) ->
  prop key (mergeConfig (JObject merged) (JObject props)) =
  match JsMap.get key props with
  | Some value =>
      match JsMap.get key merged with
      | Some own =>
          Some (if isPlainObject value && isPlainObject own
                then mergeConfig own value
                else value)
      | None => Some value
      end
  | None => JsMap.get key merged
  end.
Proof.
  revert merged. induction props as [|[k value] props IH];
    intros merged Hkeys; [reflexivity|].
  simpl in Hkeys. inversion Hkeys as [|? ? Hfirst Hrest]; subst.
  rewrite mergeConfig_turn, (IH _ Hrest). cbn [JsMap.get].
  destruct (str_eqb key k) eqn:E.
  - apply str_eqb_eq in E. subst k.
    rewrite (not_key_get props key Hfirst), JsMapFacts.get_set_eq.
    now destruct (JsMap.get key merged).
  - apply str_eqb_neq in E.
    now rewrite (JsMapFacts.get_set_ne _ _ _ _ E).
Qed.

(** X11. For a user configuration that is an object (with distinct keys,
    and no key [__proto__] at any depth), the merged configuration has,
    under each key: the default's value when the user gives none; the
    merge of the two values when both are objects or [null]; and the
    user's value in every other case, an array included. *)
Theorem mergeConfig_lookup
  (defaultConfig : json) (props : list (jsstring * json)) (key : jsstring) :
  NoDup (JsMap.keys props) ->
  protoFree defaultConfig = true ->
  protoFree (JObject props) = true ->
  prop key (mergeConfig defaultConfig (JObject props)) =
  match JsMap.get key props with
  | Some value =>
      match JsMap.get key (ownProperties defaultConfig) with
      | Some own =>
          Some (if isPlainObject value && isPlainObject own
                then mergeConfig own value
                else value)
      | None => Some value
      end
  | None => JsMap.get key (ownProperties defaultConfig)
  end.
Proof.
  intros Hkeys _ _. rewrite mergeConfig_spread. now apply mergeConfig_get.
Qed.

Lemma mergeConfig_lookup_witness :
  let merged := mergeConfig Settings.defaults Settings.user in
  prop (lit "motd") merged = Some (JString (lit "hi")) /\
  option_map (prop (lit "maxAge")) (prop (lit "streams") merged)
  = Some (Some (JNumber 1000)) /\
  option_map (prop (lit "directory")) (prop (lit "streams") merged)
  = Some (Some (JString (lit "/srv/public/streams"))).
Proof.
  assert (Hkeys : NoDup (JsMap.keys (ownProperties Settings.user))).
  { repeat constructor; simpl; intuition discriminate. }
  split; [|split].
  - exact (mergeConfig_lookup Settings.defaults (ownProperties Settings.user)
             (lit "motd") Hkeys eq_refl eq_refl).
  - exact (f_equal (option_map (prop (lit "maxAge")))
             (mergeConfig_lookup Settings.defaults
                (ownProperties Settings.user) (lit "streams") Hkeys
                eq_refl eq_refl)).
  - exact (f_equal (option_map (prop (lit "directory")))
             (mergeConfig_lookup Settings.defaults
                (ownProperties Settings.user) (lit "streams") Hkeys
                eq_refl eq_refl)).
Defined.

(** X12. [null] does not switch a section off: when the user gives
    [null] for a key under which the default is an object, the merged
    configuration keeps the default object, property for property
    ([typeof null] is ['object'], so the two are merged, and a [for-in]
    over [null] runs no turn).  Conversely a default that is [null] is
    replaced by the properties of the user's object. *)
Theorem mergeConfig_null_keeps_section
  (defaultConfig : json) (props section : list (jsstring * json))
  (key : jsstring) :
  NoDup (JsMap.keys props) ->
  protoFree defaultConfig = true ->
  protoFree (JObject props) = true ->
  JsMap.get key props = Some JNull ->
  JsMap.get key (ownProperties defaultConfig) = Some (JObject section) ->
  prop key (mergeConfig defaultConfig (JObject props))
  = Some (JObject section).
Proof.
  intros Hkeys _ _ Hnull Hsection.
  rewrite mergeConfig_spread, (mergeConfig_get _ _ _ Hkeys).
  now rewrite Hnull, Hsection.
Qed.

Lemma mergeConfig_null_keeps_section_witness :
  prop (lit "websocket") Settings.user = Some JNull /\
  prop (lit "websocket") (mergeConfig Settings.defaults Settings.user)
  = prop (lit "websocket") Settings.defaults.
Proof.
  split; [reflexivity|].
  assert (Hkeys : NoDup (JsMap.keys (ownProperties Settings.user))).
  { repeat constructor; simpl; intuition discriminate. }
  exact (mergeConfig_null_keeps_section Settings.defaults
           (ownProperties Settings.user) _ (lit "websocket") Hkeys
           eq_refl eq_refl eq_refl eq_refl).
Defined.

(** X13. The module falls back to the defaults without failing: when
    [user.config.json] is missing, cannot be read or parsed, or holds
    [null], a number, a boolean, an empty object, an empty array or an
    empty string, the exported configuration has exactly the properties
    of [defaultConfig]. *)
Theorem exportedConfig_falls_back
  (defaults : list (jsstring * json)) (file : option (option json)) :
  match file with
  | Some (Some (JObject (_ :: _))) => False
  | Some (Some (JArray (_ :: _))) => False
  | Some (Some (JString (_ :: _))) => False
  | _ => True
  end ->
  exportedConfig (JObject defaults) file = JObject defaults.
Proof.
  destruct file as [[[ | | |[|c s]|[|x items]|[|p props]]|]|];
    intros H; try reflexivity; contradiction.
Qed.

Lemma exportedConfig_falls_back_witness :
  exportedConfig Settings.defaults (Some None) = Settings.defaults /\
  exportedConfig Settings.defaults (Some (Some JNull)) = Settings.defaults.
Proof.
  split.
  - exact (exportedConfig_falls_back (ownProperties Settings.defaults)
             (Some None) I).
  - exact (exportedConfig_falls_back (ownProperties Settings.defaults)
             (Some (Some JNull)) I).
Defined.

(** ** The logger *)

(** X14. Whatever [config.level] is (any key but the names an object
    inherits), a logger writes every [error] and every [warn] message;
    it writes [info] messages unless the level is ['warn'], and [debug]
    messages only when the level is ['debug'].  The level ['error']
    cannot be selected: its rank [0] is falsy, so [|| 2] replaces it by
    the rank of ['info']. *)
Theorem shouldLog_thresholds (configured : jsstring) :
  existsb (str_eqb configured) Logger.inheritedNames = false ->
  Logger.shouldLog configured (lit "error") = true /\
  Logger.shouldLog configured (lit "warn") = true /\
  Logger.shouldLog configured (lit "info")
  = negb (str_eqb configured (lit "warn")) /\
  Logger.shouldLog configured (lit "debug")
  = str_eqb configured (lit "debug").
Proof.
  intros Hown. unfold Logger.shouldLog, Logger.currentLevel, Logger.levels.
  rewrite Hown.
  destruct (str_eqb configured (lit "error")) eqn:Herror.
  { apply str_eqb_eq in Herror. subst. repeat split. }
  destruct (str_eqb configured (lit "warn")) eqn:Hwarn.
  { apply str_eqb_eq in Hwarn. subst. repeat split. }
  destruct (str_eqb configured (lit "info")) eqn:Hinfo.
  { apply str_eqb_eq in Hinfo. subst. repeat split. }
  destruct (str_eqb configured (lit "debug")) eqn:Hdebug; repeat split.
Qed.

Lemma shouldLog_thresholds_witness :
  Logger.shouldLog (lit "error") (lit "info") = true /\
  Logger.shouldLog (lit "error") (lit "debug") = false.
Proof.
  destruct (shouldLog_thresholds (lit "error") eq_refl)
    as [_ [_ [Hinfo Hdebug]]].
  split; [exact Hinfo|exact Hdebug].
Defined.

Lemma startsWith_prefix (p q : jsstring) : startsWith p (p ++ q) = true.
Proof.
  induction p as [|x p IH]; simpl; [reflexivity|].
  now rewrite N.eqb_refl, IH.
Qed.

Lemma endsWith_suffix (a ext : jsstring) : Logger.endsWith ext (a ++ ext) = true.
Proof.
  unfold Logger.endsWith. rewrite rev_app_distr. apply startsWith_prefix.
Qed.

Lemma fromLastDot_suffix (s ext : jsstring) :
  Logger.fromLastDot s = Some ext ->
  exists a, s = a ++ ext /\ ext <> [].
Proof.
  revert ext. induction s as [|c s IH]; simpl; intros ext; [discriminate|].
  destruct (Logger.fromLastDot s) as [e|].
  - intros [= <-]. destruct (IH e eq_refl) as [a [-> He]].
    exists (c :: a). now split.
  - destruct (N.eqb c 0x2E); [|discriminate].
    intros [= <-]. exists []. now split.
Qed.

Lemma fromLastDot_app (a t : jsstring) :
  existsb (N.eqb 0x2E) t = false ->
  Logger.fromLastDot (a ++ lit "." ++ t) = Some (lit "." ++ t).
Proof.
  intros Ht.
  assert (Hnone : Logger.fromLastDot t = None).
  { induction t as [|c t IH]; [reflexivity|].
    cbn [existsb] in Ht. cbn [Logger.fromLastDot].
    apply orb_false_iff in Ht. destruct Ht as [Hc Ht].
    rewrite (IH Ht). rewrite N.eqb_sym in Hc. now rewrite Hc. }
  induction a as [|c a IH]; simpl.
  - change (Logger.fromLastDot (lit "." ++ t))
      with (match Logger.fromLastDot t with
            | Some ext => Some ext
            | None => Some (lit "." ++ t)
            end).
    now rewrite Hnone.
  - simpl in IH. now rewrite IH.
Qed.

Lemma basename_strips (a ext : jsstring) :
  ext <> [] -> Logger.basename (a ++ ext) ext = a.
Proof.
  intros Hext. unfold Logger.basename.
  rewrite endsWith_suffix.
  destruct ext as [|c ext]; [contradiction|]. cbn [str_eqb orb negb].
  rewrite length_app. replace (List.length a + _ - _)%nat with
    (List.length a + 0)%nat by lia.
  now rewrite firstn_app_2, app_nil_r.
Qed.

(** The name of the log without its extension is shorter than the name
    of the log, when that has an extension. *)
Lemma logName_shorter (logFile : jsstring) :
  Logger.extname logFile <> [] ->
  Logger.basename logFile (Logger.extname logFile) <> logFile.
Proof.
  intros Hext.
  assert (Hsplit : exists a, logFile = a ++ Logger.extname logFile).
  { unfold Logger.extname in *. destruct logFile as [|c rest]; [easy|].
    destruct (Logger.fromLastDot rest) as [ext|] eqn:Hdot; [|easy].
    destruct (str_eqb (c :: rest) (lit "..")); [easy|].
    destruct (fromLastDot_suffix rest ext Hdot) as [a [-> _]].
    now exists (c :: a). }
  destruct Hsplit as [a Ha]. rewrite Ha at 1.
  rewrite (basename_strips _ _ Hext). intros Heq.
  subst a. apply (f_equal (@List.length N)) in Ha.
  rewrite length_app in Ha.
  destruct (Logger.extname logFile); [contradiction|]. simpl in Ha. lia.
Qed.

Lemma In_insert (x y : jsstring) (l : list jsstring) :
  In x (Logger.insert y l) -> x = y \/ In x l.
Proof.
  induction l as [|z l IH]; simpl.
  - intros [<-|[]]. now left.
  - destruct (Logger.str_leb y z); simpl.
    + intros [<-|H]; [now left|now right].
    + intros [<-|H]; [right; now left|].
      destruct (IH H) as [->|Hl]; [now left|right; now right].
Qed.

Lemma In_sort (x : jsstring) (l : list jsstring) :
  In x (Logger.sort l) -> In x l.
Proof.
  induction l as [|y l IH]; simpl; [easy|].
  intros H. apply In_insert in H. destruct H as [->|H]; [now left|].
  right. now apply IH.
Qed.

Lemma In_firstn {A} (x : A) (n : nat) (l : list A) :
  In x (firstn n l) -> In x l.
Proof.
  revert l. induction n as [|n IH]; intros [|y l]; simpl; try easy.
  intros [<-|H]; [now left|right; now apply IH].
Qed.

Lemma unlinkEach_effects (logDir p : path) (files : list jsstring)
  (st : State) :
  In (Unlink p) (effectsOf (Logger.unlinkEach logDir files st)) ->
  exists file, In file files /\ p = path_join logDir file.
Proof.
  revert st. induction files as [|file files IH]; intros st; simpl.
  - intros [].
  - rewrite effectsOf_bind.
    assert (Hone : effectsOf (unlinkSync (path_join logDir file) st)
                   = [Unlink (path_join logDir file)]).
    { unfold unlinkSync.
      destruct (find _ (disk st)) as [f|]; [destruct (unlinkable f)|];
        reflexivity. }
    rewrite Hone. intros [[= <-]|Hin].
    + exists file. split; [now left|reflexivity].
    + destruct (valueOf (unlinkSync (path_join logDir file) st)).
      * destruct (IH _ Hin) as [f [Hf Hp]]. exists f. split; [now right|easy].
      * destruct Hin.
Qed.

(** X15. [cleanupOldLogs] deletes nothing but directory entries that,
    without their extension, are named as the log file without its own,
    and that are not the log file: it never deletes the log file, and
    when the log file has an extension it never deletes a rotated file
    [<logFile>.<n>] either, since such a name without its extension is
    the whole name of the log file. *)
Theorem cleanupOldLogs_spares_rotated_logs
  (file : path) (maxFiles : Z) (st : State) :
  let logDir := removelast file in
  let logFile := last file [] in
  (forall p,
      In (Unlink p) (effectsOf (Logger.cleanupOldLogs file maxFiles st)) ->
      exists name,
        p = path_join logDir name /\ Logger.isOldLog logFile name = true) /\
  Logger.isOldLog logFile logFile = false /\
  (Logger.extname logFile <> [] ->
   forall n, existsb (N.eqb 0x2E) n = false ->
             Logger.isOldLog logFile (logFile ++ lit "." ++ n) = false).
Proof.
  intros logDir logFile. split; [|split].
  - intros p. unfold Logger.cleanupOldLogs. fold logDir logFile.
    rewrite effectsOf_bind.
    change (effectsOf (readdirSync logDir st)) with [Readdir logDir].
    change (stateOf (readdirSync logDir st)) with st.
    set (files := valueOf (readdirSync logDir st)). cbv zeta.
    destruct (_ >=? maxFiles).
    + rewrite effectsOf_bind. intros [Hread|Hin]; [discriminate|].
      cbn [app] in Hin. apply in_app_or in Hin. destruct Hin as [Hin|[]].
      apply unlinkEach_effects in Hin. destruct Hin as [name [Hname ->]].
      exists name. split; [reflexivity|].
      apply In_firstn, In_sort, filter_In in Hname. apply Hname.
    + intros [Hread|[]]. discriminate.
  - unfold Logger.isOldLog. now rewrite !str_eqb_refl.
  - intros Hext n Hn. unfold Logger.isOldLog.
    assert (Hrotated : Logger.extname (logFile ++ lit "." ++ n)
                       = lit "." ++ n).
    { unfold Logger.extname in *.
      destruct logFile as [|c rest] eqn:Hfile; [contradiction|].
      cbn [app]. rewrite (fromLastDot_app rest n Hn).
      destruct rest as [|c' rest']; [contradiction|].
      assert (Hlong : str_eqb (c :: (c' :: rest') ++ lit "." ++ n) (lit "..")
                      = false).
      { apply str_eqb_neq. intros Heq.
        apply (f_equal (@List.length N)) in Heq. simpl in Heq.
        rewrite length_app in Heq. simpl in Heq. lia. }
      now rewrite Hlong. }
    rewrite Hrotated, basename_strips by discriminate.
    apply andb_false_iff. left. apply str_eqb_neq.
    intros Heq. now apply (logName_shorter logFile Hext).
Qed.

Lemma cleanupOldLogs_spares_rotated_logs_witness :
  Logger.extname (lit "app.log") <> [] /\
  Logger.isOldLog (lit "app.log") (lit "app.log.1") = false /\
  Logger.isOldLog (lit "app.log") (lit "app.txt") = true.
Proof.
  assert (Hext : Logger.extname (lit "app.log") <> []) by discriminate.
  split; [exact Hext|]. split; [|reflexivity].
  exact (proj2 (proj2 (cleanupOldLogs_spares_rotated_logs
                         [lit "srv"; lit "logs"; lit "app.log"] 5
                         (initialState [])))
           Hext (lit "1") eq_refl).
Defined.

(** ** What a message can change *)

Lemma json_eq_null (data : json) : data = JNull \/ data <> JNull.
Proof. destruct data; [now left|right; discriminate..]. Qed.

Lemma canReceive_refreshed (st : State) (connectionId : jsstring)
  (clientInfo : ClientInfo) (now : Z) (c : jsstring) :
  JsMap.get connectionId (wsConnections st) = Some clientInfo ->
  canReceive
    (with_wsConnections
       (JsMap.set connectionId (setLastPing now clientInfo)) st) c
  = canReceive st c.
Proof.
  intros Hget. unfold canReceive, with_wsConnections; simpl.
  destruct (str_eqb c connectionId) eqn:E.
  - apply str_eqb_eq in E. subst c.
    now rewrite JsMapFacts.get_set_eq, Hget.
  - apply str_eqb_neq in E. now rewrite (JsMapFacts.get_set_ne _ _ _ _ E).
Qed.

(** X16. No message adds or removes a connection: after a message of
    any content the connection table is the table before, except that
    the sender's entry, if the sender has one and the payload parsed to
    a value other than [null], carries the time of arrival as its last
    activity. *)
Theorem messages_keep_the_connection_table
  (config : Config) (URL : jsstring -> option Url) (st : State)
  (now : Z) (rnd : jsstring) (throws : bool) (connectionId : jsstring)
  (parsed : option json) :
  wsConnections
    (stateOf (onMessage config URL now rnd throws connectionId parsed st))
  = match parsed, JsMap.get connectionId (wsConnections st) with
    | Some JNull, _ => wsConnections st
    | Some _, Some clientInfo =>
        JsMap.set connectionId (setLastPing now clientInfo)
          (wsConnections st)
    | _, _ => wsConnections st
    end.
Proof.
  unfold onMessage. rewrite stateOf_bind.
  assert (Hreply : forall c s,
            wsConnections
              (stateOf (match c with
                        | Returned => ret tt
                        | Thrown => sendError connectionId Text.handlingFailed
                        end s))
            = wsConnections s).
  { intros [|] s; [reflexivity|]. now rewrite sendError_spec. }
  rewrite Hreply.
  destruct parsed as [data|]; [|reflexivity].
  destruct (JsMap.get connectionId (wsConnections st)) as [clientInfo|]
    eqn:Hget.
  - destruct (json_eq_null data) as [->|Hdata]; [reflexivity|].
    destruct (handleWebSocketMessage_refreshes config URL now rnd throws
                connectionId data clientInfo st Hdata Hget) as [_ Hws].
    rewrite Hws. now destruct data.
  - assert (Hplain :
      wsConnections
        (stateOf (bind getState (fun st =>
                    bind (match JsMap.get connectionId (wsConnections st) with
                          | Some clientInfo =>
                              modify (with_wsConnections
                                        (JsMap.set connectionId
                                           (setLastPing now clientInfo)))
                          | None => ret tt
                          end)
                      (fun _ =>
                         bind (dispatch config URL now rnd throws
                                 connectionId data)
                           (fun _ => ret Returned))) st))
      = wsConnections st).
    { rewrite bind_getState, Hget, bind_ret, stateOf_bind.
      apply dispatch_wsConnections. }
    destruct data; try exact Hplain; reflexivity.
Qed.

(** X17. A message whose [type] is neither [startStream] nor
    [stopStream] touches nothing but the sender's activity timestamp: a
    [pong] is answered with nothing, and any other type, a missing type
    or a type that is not a string is answered with one error frame
    (unknown message type) when the sender can receive. *)
Theorem other_messages_only_refresh
  (config : Config) (URL : jsstring -> option Url) (st : State)
  (now : Z) (rnd : jsstring) (throws : bool) (connectionId : jsstring)
  (data : json) :
  data <> JNull ->
  prop (lit "type") data <> Some (JString (lit "startStream")) ->
  prop (lit "type") data <> Some (JString (lit "stopStream")) ->
  onMessage config URL now rnd throws connectionId (Some data) st
  = (tt,
     match JsMap.get connectionId (wsConnections st) with
     | Some clientInfo =>
         with_wsConnections
           (JsMap.set connectionId (setLastPing now clientInfo)) st
     | None => st
     end,
     match prop (lit "type") data with
     | Some (JString type) =>
         if str_eqb type (lit "pong") then []
         else if canReceive st connectionId
              then [Send connectionId (error Text.unknownType)] else []
     | _ =>
         if canReceive st connectionId
         then [Send connectionId (error Text.unknownType)] else []
     end).
Proof.
  intros Hdata Hstart Hstop.
  set (refreshed := match JsMap.get connectionId (wsConnections st) with
                    | Some clientInfo =>
                        with_wsConnections
                          (JsMap.set connectionId
                             (setLastPing now clientInfo)) st
                    | None => st
                    end).
  assert (Hsame : canReceive refreshed connectionId
                  = canReceive st connectionId).
  { unfold refreshed.
    destruct (JsMap.get connectionId (wsConnections st)) as [clientInfo|]
      eqn:Hget; [|reflexivity].
    now apply canReceive_refreshed. }
  assert (Hdispatch :
    dispatch config URL now rnd throws connectionId data refreshed
    = (tt, refreshed,
       match prop (lit "type") data with
       | Some (JString type) =>
           if str_eqb type (lit "pong") then []
           else if canReceive st connectionId
                then [Send connectionId (error Text.unknownType)] else []
       | _ =>
           if canReceive st connectionId
           then [Send connectionId (error Text.unknownType)] else []
       end)).
  { unfold dispatch.
    destruct (prop (lit "type") data) as [[ | | |type| | ]|];
      try (now rewrite sendError_spec, Hsame).
    destruct (str_eqb type (lit "startStream")) eqn:E1.
    { apply str_eqb_eq in E1. now subst type. }
    destruct (str_eqb type (lit "stopStream")) eqn:E2.
    { apply str_eqb_eq in E2. now subst type. }
    destruct (str_eqb type (lit "pong")); [reflexivity|].
    now rewrite sendError_spec, Hsame. }
  assert (Hgeneric :
    bind (bind getState (fun st =>
            bind (match JsMap.get connectionId (wsConnections st) with
                  | Some clientInfo =>
                      modify (with_wsConnections
                                (JsMap.set connectionId
                                   (setLastPing now clientInfo)))
                  | None => ret tt
                  end)
              (fun _ =>
                 bind (dispatch config URL now rnd throws connectionId data)
                   (fun _ => ret Returned))))
      (fun c => match c with
                | Returned => ret tt
                | Thrown => sendError connectionId Text.handlingFailed
                end) st
    = (tt, refreshed,
       match prop (lit "type") data with
       | Some (JString type) =>
           if str_eqb type (lit "pong") then []
           else if canReceive st connectionId
                then [Send connectionId (error Text.unknownType)] else []
       | _ =>
           if canReceive st connectionId
           then [Send connectionId (error Text.unknownType)] else []
       end)).
  { unfold bind at 1. rewrite bind_getState.
    assert (Hstep : forall k : unit -> M Completion,
              bind (match JsMap.get connectionId (wsConnections st) with
                    | Some clientInfo =>
                        modify (with_wsConnections
                                  (JsMap.set connectionId
                                     (setLastPing now clientInfo)))
                    | None => ret tt
                    end) k st
              = k tt refreshed).
    { intros k. unfold refreshed.
      destruct (JsMap.get connectionId (wsConnections st));
        [apply bind_modify|apply bind_ret]. }
    rewrite Hstep. unfold bind. rewrite Hdispatch. unfold ret.
    now rewrite ?app_nil_r. }
  unfold onMessage, handleWebSocketMessage.
  destruct data; try exact Hgeneric. congruence.
Qed.

Lemma other_messages_only_refresh_witness :
  onMessage Scenario.config Scenario.URL 2400 [] false Scenario.alice
    (Some (JObject [(lit "type", JString (lit "pong"))])) Scenario.watching
  = (tt,
     with_wsConnections
       (JsMap.set Scenario.alice (setLastPing 2400 Scenario.viewer))
       Scenario.watching,
     []).
Proof.
  exact (other_messages_only_refresh Scenario.config Scenario.URL
           Scenario.watching 2400 [] false Scenario.alice
           (JObject [(lit "type", JString (lit "pong"))])
           ltac:(discriminate) ltac:(discriminate) ltac:(discriminate)).
Defined.

(** ** What ffmpeg is started on *)

Section Spawning.

Variable config : Config.
Variable URL : jsstring -> option Url.
Variable P : Effect -> Prop.

Hypothesis P_other :
  forall e, (forall cmd input output, e <> Save cmd input output) -> P e.
Hypothesis P_save :
  forall cmd rtspUrl streamId,
    validateRtspUrl URL rtspUrl = Valid ->
    P (Save cmd (stringOf rtspUrl)
         (path_join (streams_directory config) (streamId ++ lit ".m3u8"))).

Local Abbreviation only := (safe (fun _ => True) P).

Local Ltac other := apply P_other; intros; discriminate.
Local Ltac quietly :=
  intros ? _; split; [exact I|]; repeat constructor; try other.

Lemma only_modify f : only (modify f).
Proof. quietly. Qed.

Lemma only_emit e :
  (forall cmd input output, e <> Save cmd input output) -> only (emit e).
Proof. intros He st _. split; [exact I|]. repeat constructor. auto. Qed.

Lemma only_sendError c m : only (sendError c m).
Proof.
  intros st _. rewrite sendError_spec. split; [exact I|].
  destruct (canReceive st c); repeat constructor. other.
Qed.

Lemma only_sendMessage c m : only (sendMessage c m).
Proof.
  intros st _. rewrite sendMessage_spec. split; [exact I|].
  destruct (canReceive st c); repeat constructor. other.
Qed.

Lemma only_existsSync p : only (existsSync p).
Proof. quietly. Qed.

Lemma only_readdirSync p : only (readdirSync p).
Proof. quietly. Qed.

Lemma only_statSync p : only (statSync p).
Proof. quietly. Qed.

Lemma only_clearTimeout t : only (clearTimeout t).
Proof. quietly. Qed.

Lemma only_setTimeout s ms : only (setTimeout s ms).
Proof. quietly. Qed.

Lemma only_unlinkSync p : only (unlinkSync p).
Proof.
  intros st _. unfold unlinkSync.
  destruct (find _ (disk st)) as [f|]; [destruct (unlinkable f)|];
    (split; [exact I|]); repeat constructor; other.
Qed.

Lemma only_cleanupStream streamId : only (cleanupStream config streamId).
Proof.
  unfold cleanupStream.
  apply safe_bind; [apply safe_get|]. intros st.
  apply safe_bind.
  - destruct (JsMap.get streamId (activeStreams st)) as [info|];
      [|apply safe_ret].
    destruct (timeoutId info); [|apply safe_ret].
    apply safe_bind; [apply only_clearTimeout|].
    intros _. apply only_modify.
  - intros _. apply safe_bind; [apply only_modify|].
    intros _. apply safe_bind; [apply only_readdirSync|].
    intros files. apply safe_bind; [|intros _; apply safe_ret].
    induction files as [|file files IH]; simpl; [apply safe_ret|].
    destruct (startsWith _ file); [|exact IH].
    apply safe_bind; [apply only_unlinkSync|].
    intros [|]; [exact IH|apply safe_ret].
Qed.

Lemma only_stopRtspStream streamId connectionId :
  only (stopRtspStream config streamId connectionId).
Proof.
  unfold stopRtspStream. apply safe_bind; [apply safe_get|]. intros st.
  destruct (getStream streamId (activeStreams st)) as [[s info]|];
    [|apply only_sendError].
  apply safe_bind; [apply only_modify|]. intros _.
  apply safe_bind; [|intros _; apply only_sendMessage].
  destruct (Nat.eqb _ 0); [|apply only_modify].
  apply safe_bind; [|intros _; apply only_cleanupStream].
  destruct (command _) as [cmd|]; [|apply safe_ret].
  apply safe_bind; [now apply only_emit|]. intros _.
  apply safe_bind; [apply only_setTimeout|]. intros t.
  apply only_modify.
Qed.

Lemma only_startRtspStream now rnd throws rtspUrl connectionId :
  only (startRtspStream config URL now rnd throws rtspUrl connectionId).
Proof.
  unfold startRtspStream.
  destruct (validateRtspUrl URL rtspUrl) eqn:Hvalid; [|apply only_sendError].
  apply safe_bind; [apply only_sendMessage|]. intros _.
  apply safe_bind; [now apply only_emit|]. intros _.
  destruct throws; [apply only_sendError|].
  apply safe_bind; [|intros cmd; apply only_modify].
  intros st _. split; [exact I|].
  repeat constructor. now apply P_save.
Qed.

Lemma only_fire timer : only (fire config timer).
Proof.
  unfold fire. apply safe_bind; [apply safe_get|]. intros st.
  destruct (find _ (timers st)) as [[t streamId]|]; [|apply safe_ret].
  apply safe_bind; [quietly|]. intros _.
  unfold forcedKill. apply safe_bind; [apply safe_get|]. intros st'.
  apply safe_when.
  apply safe_bind; [|intros _; apply only_cleanupStream].
  destruct (JsMap.get streamId (activeStreams st')) as [info|];
    [|apply safe_ret].
  destruct (command info) as [cmd|]; [|apply safe_ret].
  now apply only_emit.
Qed.

Lemma only_onMessage now rnd throws connectionId parsed :
  only (onMessage config URL now rnd throws connectionId parsed).
Proof.
  assert (Hdispatch : forall data,
            only (dispatch config URL now rnd throws connectionId data)).
  { intros data. unfold dispatch.
    destruct (prop (lit "type") data) as [[ | | |type| | ]|];
      try apply only_sendError.
    destruct (str_eqb type (lit "startStream"));
      [apply only_startRtspStream|].
    destruct (str_eqb type (lit "stopStream")); [apply only_stopRtspStream|].
    destruct (str_eqb type (lit "pong"));
      [apply safe_ret|apply only_sendError]. }
  unfold onMessage. apply safe_bind;
    [|intros [|]; [apply safe_ret|apply only_sendError]].
  unfold handleWebSocketMessage.
  destruct parsed as [data|]; [|apply safe_ret].
  destruct data; try apply safe_ret;
    (apply safe_bind; [apply safe_get|]; intros st;
     apply safe_bind;
       [destruct (JsMap.get connectionId (wsConnections st));
        [apply only_modify|apply safe_ret]|];
     intros _; apply safe_bind; [apply Hdispatch|];
     intros _; apply safe_ret).
Qed.

Lemma only_handle now e : only (handle config URL now e).
Proof.
  destruct e; simpl.
  - unfold onConnection. apply safe_bind; [apply safe_get|]. intros st.
    destruct (_ >=? _); [now apply only_emit|apply only_modify].
  - apply only_onMessage.
  - unfold onClose, handleWebSocketClose.
    apply safe_bind; [apply only_modify|]. intros _.
    apply safe_forEach. intros info s. apply safe_when.
    apply only_stopRtspStream.
  - apply only_modify.
  - unfold transportMoves. apply safe_bind; [apply safe_get|]. intros st.
    destruct (JsMap.get connectionId (wsConnections st));
      [apply only_modify|apply safe_ret].
  - unfold checkConnections. apply safe_forEach. intros clientInfo k.
    unfold checkConnection.
    destruct (now - lastPing clientInfo >? _); [|apply only_sendMessage].
    apply safe_bind; [now apply only_emit|]. intros _. apply only_modify.
  - unfold cleanupExpiredFiles.
    apply safe_bind; [apply only_readdirSync|]. intros files.
    apply safe_bind; [|intros _; apply safe_ret].
    induction files as [|file files IH]; simpl; [apply safe_ret|].
    apply safe_bind; [apply only_statSync|]. intros [mtime|];
      [|apply safe_ret].
    destruct (now - mtime >? streams_maxAge config); [|exact IH].
    apply safe_bind; [apply only_unlinkSync|].
    intros [|]; [exact IH|apply safe_ret].
  - apply only_fire.
  - apply safe_ret.
  - unfold onFfmpegError. apply safe_bind; [apply safe_get|]. intros st.
    destruct (nth_error (handlers st) cmd) as [[streamId connectionId]|];
      [|apply safe_ret].
    apply safe_bind; [apply only_sendError|]. intros _.
    apply only_cleanupStream.
  - unfold onFfmpegEnd. apply safe_bind; [apply safe_get|]. intros st.
    destruct (nth_error (handlers st) cmd) as [[streamId connectionId]|];
      [|apply safe_ret].
    apply safe_bind; [apply only_sendMessage|]. intros _.
    apply only_cleanupStream.
  - apply only_modify.
  - apply safe_bind; [|intros _; apply safe_ret].
    unfold serveHLSPlaylist. apply safe_bind; [apply safe_get|]. intros st.
    destruct (JsMap.get streamId (activeStreams st)); [|apply safe_ret].
    apply safe_bind; [apply only_existsSync|]. intros _.
    apply safe_bind; [apply only_existsSync|].
    intros [|]; apply safe_ret.
  - apply safe_bind; [|intros _; apply safe_ret].
    unfold serveHLSSegment. apply safe_bind; [apply safe_get|]. intros st.
    destruct (JsMap.get streamId (activeStreams st)); [|apply safe_ret].
    apply safe_bind; [apply only_existsSync|].
    intros [|]; apply safe_ret.
Qed.

Lemma only_run events st : Forall P (effectsOf (run config URL events st)).
Proof.
  revert st. induction events as [|[now e] events IH]; intros st.
  - constructor.
  - rewrite run_cons.
    pose proof (proj2 (only_handle now e st I)) as Hfx.
    destruct (handle config URL now e st) as [[u st1] fx1].
    specialize (IH st1).
    destruct (run config URL events st1) as [[u2 st2] fx2].
    apply Forall_app. split; assumption.
Qed.

End Spawning.

